(** * Tab Wrangler: the inactive-tab eviction core

    A shallow embedding of the background script ([checkToClose],
    [startup], [getTabsOlderThan], the [onReplaced] and
    [windows.onRemoved] listeners), of the in-memory cache
    ([tabTimesCache.ts]), of the archiver ([wrangleTabs] and the lock
    predicates of [tabUtil]) and of [debounce], followed by the
    properties the specification states about them and by further
    properties of the code.

    JavaScript objects used as dictionaries are finite maps keyed by
    property-key strings; numbers that the code only uses as integers
    (tab ids, epoch milliseconds, counts) are [Z]; [NaN] is [None] where a
    number can be [NaN]. *)

From Stdlib Require Import ZArith Lia Ascii String List QArith Qminmax.
From stdpp Require Import gmap strings list fin_maps pretty sorting.

Local Open Scope string_scope.
Local Open Scope list_scope.
Local Open Scope Z_scope.

(** ** JavaScript primitives used by the code *)

Module JS.

(** [String(n)] for an integer [n]: its decimal numeral. *)
Definition String_ (n : Z) : string := pretty n.

(** [String(tab.id)] where [tab.id] may be [undefined]. *)
Definition String_opt (o : option Z) : string :=
  match o with
  | Some n => String_ n
  | None => "undefined"
  end.

(** White space skipped by [parseInt] (the ASCII part of
    StrWhiteSpaceChar: TAB, LF, VT, FF, CR, SP). *)
Definition is_white (c : ascii) : bool :=
  let n := nat_of_ascii c in
  ((9 <=? n) && (n <=? 13))%nat || (n =? 32)%nat.

Fixpoint trimStart (s : string) : string :=
  match s with
  | String c r => if is_white c then trimStart r else s
  | EmptyString => EmptyString
  end.

Definition digit_of (c : ascii) : option Z :=
  let n := Z.of_nat (nat_of_ascii c) in
  if (48 <=? n) && (n <=? 57) then Some (n - 48) else None.

(** The longest prefix of decimal digits, read left to right; [acc] is
    [None] as long as no digit was seen. *)
Fixpoint parseDigits (s : string) (acc : option Z) : option Z :=
  match s with
  | String c r =>
      match digit_of c with
      | Some d => parseDigits r (Some (10 * default 0 acc + d))
      | None => acc
      end
  | EmptyString => acc
  end.

(** [parseInt(s, 10)]; [None] is [NaN]. *)
Definition parseInt (s : string) : option Z :=
  match trimStart s with
  | String c r =>
      if Ascii.eqb c "-" then Z.opp <$> parseDigits r None
      else if Ascii.eqb c "+" then parseDigits r None
      else parseDigits (String c r) None
  | EmptyString => None
  end.

(** [x || d] on a possibly missing number: [undefined] and [0] are
    falsy. *)
Definition or_default (x : option Z) (d : Z) : Z :=
  match x with
  | Some v => if v =? 0 then d else v
  | None => d
  end.

(** [Array.prototype.splice(start)]: removes and returns everything from
    [start] on; the pair is (removed, what the array keeps). *)
Definition splice_from {A} (start : Z) (l : list A) : list A * list A :=
  let len := Z.of_nat (length l) in
  let from := if start <? 0 then Z.max (len + start) 0 else Z.min start len in
  (drop (Z.to_nat from) l, take (Z.to_nat from) l).

(** [Array.prototype.splice(0, count)]: removes and returns the first
    [count] elements (clamped to the array). *)
Definition splice_front {A} (count : Z) (l : list A) : list A * list A :=
  let len := Z.of_nat (length l) in
  let c := Z.min (Z.max count 0) len in
  (take (Z.to_nat c) l, drop (Z.to_nat c) l).

(** [Array.prototype.splice(pos, 1)] for an index [pos] of the array. *)
Definition splice_one {A} (pos : nat) (l : list A) : list A :=
  take pos l ++ drop (S pos) l.

(** [s.indexOf(sub) !== -1]. *)
Definition includes (sub s : string) : bool :=
  match String.index 0 sub s with
  | Some _ => true
  | None => false
  end.

(** [Array.prototype.findIndex]; [None] is [-1]. *)
Fixpoint findIndex {A} (p : A -> bool) (l : list A) : option nat :=
  match l with
  | [] => None
  | x :: r => if p x then Some 0%nat else S <$> findIndex p r
  end.

End JS.

(** ** Data model *)

(** A [chrome.tabs.Tab], with the fields the code reads; [closedAt] is the
    expando property [wrangleTabs] adds. *)
Record Tab := mkTab {
  tab_id : option Z;
  tab_windowId : option Z;
  tab_url : option string;
  tab_title : option string;
  tab_pinned : bool;
  tab_audible : bool;
  tab_groupId : option Z;
  tab_active : bool;
  tab_closedAt : option Z
}.

(** A [chrome.windows.Window]. *)
Record Window := mkWindow {
  win_id : option Z;
  win_focused : bool
}.

(** Modelled from the spec: the settings store of [./js/settings] is not
    among the sources. Section 6 lists the keys the core reads through
    [settings.get]; they are the fields here, with the types the code
    uses them at. *)
Record Settings := mkSettings {
  stayOpen : Z;
  minTabs : Z;
  minTabsStrategy : string;
  maxTabs : Z;
  wrangleOption : string;
  lockedIds : list Z;
  whitelist : list string;
  filterAudio : bool;
  filterGroupedTabs : bool;
  purgeClosedTabs : bool;
  showBadgeCount : bool
}.

(** Modelled from the spec: the declaration of the object stored under
    ["persist:localStorage"] ([./js/queries]) is not among the sources.
    Section 6: the persisted list of archive entries, newest first, and
    the running total-evicted counter; the properties the code at hand
    does not touch are kept as a bag. *)
Record StorageLocalPersistState := mkPersist {
  savedTabs : list Tab;
  totalTabsWrangled : Z;
  otherFields : gmap string Z
}.

(** Module state of [tabTimesCache.ts]. *)
Record Cache := mkCache {
  memoryTabTimes : gmap string Z;
  memoryTabTimesByUrl : gmap string Z;
  isInitialized : bool
}.

(** ** tabUtil: the lock predicates *)

Definition getWhitelistMatch (url : option string) (whitelist : list string)
  : option string :=
  match url with
  | None => None
  | Some u => List.find (fun w => JS.includes w u) whitelist
  end.

(** [!!s] for a possibly null string: the empty string is falsy. *)
Definition truthy_string (s : option string) : bool :=
  match s with
  | Some s => negb (String.eqb s "")
  | None => false
  end.

(** [lockedIds] is an array or a [Set]; [has]/[indexOf] of [undefined]
    finds nothing since both only hold numbers. *)
Definition hasLockedId (lockedIds : list Z + gset Z) (id : option Z) : bool :=
  match id, lockedIds with
  | None, _ => false
  | Some i, inl a => bool_decide (i ∈ a)
  | Some i, inr s => bool_decide (i ∈ s)
  end.

Definition isTabLocked (tab : Tab) (filterAudio filterGroupedTabs : bool)
    (lockedIds : list Z + gset Z) (whitelist : list string) : bool :=
  let tabWhitelistMatch := getWhitelistMatch (tab_url tab) whitelist in
  let hasLocked := hasLockedId lockedIds (tab_id tab) in
  tab_pinned tab
  || truthy_string tabWhitelistMatch
  || (bool_decide (is_Some (tab_id tab)) && hasLocked)
  || (filterGroupedTabs
      && match tab_groupId tab with Some g => 0 <? g | None => false end)
  || (tab_audible tab && filterAudio).

Definition shouldTabBeClosed (settings : Settings) (tab : Tab) : bool :=
  negb (isTabLocked tab (filterAudio settings) (filterGroupedTabs settings)
          (inl (lockedIds settings)) (whitelist settings)).

Definition createShouldTabBeClosedFilter (settings : Settings) : Tab -> bool :=
  let filterAudio := filterAudio settings in
  let filterGroupedTabs := filterGroupedTabs settings in
  let lockedIds : gset Z := list_to_set (lockedIds settings) in
  let whitelist := whitelist settings in
  fun tab => negb (isTabLocked tab filterAudio filterGroupedTabs (inr lockedIds) whitelist).

(** ** tabTimesCache: the in-memory maps *)

Definition initTabTimes (initialData : gmap string Z)
    (initialUrlData : option (gmap string Z)) (c : Cache) : Cache :=
  {| memoryTabTimes := initialData;
     memoryTabTimesByUrl := default (memoryTabTimesByUrl c) initialUrlData;
     isInitialized := true |}.

Definition setTabTimeSilent (tabId : string) (time : Z) (c : Cache) : Cache :=
  {| memoryTabTimes := <[tabId := time]> (memoryTabTimes c);
     memoryTabTimesByUrl := memoryTabTimesByUrl c;
     isInitialized := isInitialized c |}.

Definition setTabTimeByUrlSilent (url : string) (time : Z) (c : Cache) : Cache :=
  {| memoryTabTimes := memoryTabTimes c;
     memoryTabTimesByUrl := <[url := time]> (memoryTabTimesByUrl c);
     isInitialized := isInitialized c |}.

Definition setTabTime (tabId : string) (time : Z) (c : Cache) : Cache :=
  {| memoryTabTimes := <[tabId := time]> (memoryTabTimes c);
     memoryTabTimesByUrl := memoryTabTimesByUrl c;
     isInitialized := isInitialized c |}.

Definition setTabTimes (tabIds : list string) (time : Z) (c : Cache) : Cache :=
  foldl (fun c id => setTabTime id time c) c tabIds.

Definition removeTabTime (tabId : string) (c : Cache) : Cache :=
  {| memoryTabTimes := delete tabId (memoryTabTimes c);
     memoryTabTimesByUrl := memoryTabTimesByUrl c;
     isInitialized := isInitialized c |}.

Definition cleanUpTabTimesByUrl (aliveUrls : list string) (c : Cache) : Cache :=
  let aliveSet : gset string := list_to_set aliveUrls in
  {| memoryTabTimes := memoryTabTimes c;
     memoryTabTimesByUrl :=
       foldl (fun m url => if bool_decide (url ∈ aliveSet) then m else delete url m)
             (memoryTabTimesByUrl c) (map_to_list (memoryTabTimesByUrl c)).*1;
     isInitialized := isInitialized c |}.

(** ** background: which cached ids are past the cutoff *)

(** Both variants of the file (the [for..in] one and the
    [Object.entries] one) enumerate the own properties and keep the same
    ones; the order is irrelevant since the only caller makes a [Set] of
    the result. *)
Definition getTabsOlderThan (tabTimes : gmap string Z) (time : Z)
  : list (option Z) :=
  (fun kv : string * Z => JS.parseInt kv.1)
    <$> List.filter (fun kv : string * Z => (time =? 0) || (kv.2 <? time))
          (map_to_list tabTimes).

(** ** background: one evaluation cycle, the part under the lock *)

Section Candidates.

(** The variables [findTabsToCloseCandidates] closes over. The filter
    is a variable of its own: it is built from a second read of the
    settings, after an [await]. *)
Variable toCut : gset (option Z).
Variable minTabs : Z.
Variable lockedIds : gset Z.
Variable updatedAt : Z.
Variable shouldTabBeClosed : Tab -> bool.

(** [tab.id == null || toCut.has(tab.id)] *)
Definition inToCut (tab : Tab) : bool :=
  match tab_id tab with
  | None => true
  | Some i => bool_decide (Some i ∈ toCut)
  end.

(** The loop of the floor branch. *)
Definition resetTabTimes (resetIfNoCandidates : bool) (tabs : list Tab)
    (c : Cache) : Cache :=
  foldl (fun c tab =>
           match tab_id tab with
           | Some tabId =>
               if resetIfNoCandidates
               then setTabTimeSilent (JS.String_ tabId) updatedAt c
               else c
           | None => c
           end) c tabs.

(** The final loop: id-less tabs are skipped, locked ones refreshed,
    the others pushed in order. *)
Fixpoint collectCandidates (tabsToCut : list Tab) (c : Cache)
  : list Tab * Cache :=
  match tabsToCut with
  | [] => ([], c)
  | tab :: rest =>
      match tab_id tab with
      | None => collectCandidates rest c
      | Some tabId =>
          if bool_decide (tabId ∈ lockedIds)
          then collectCandidates rest (setTabTimeSilent (JS.String_ tabId) updatedAt c)
          else let '(candidates, c') := collectCandidates rest c in
               (tab :: candidates, c')
      end
  end.

Definition findTabsToCloseCandidates (tabs : list Tab)
    (resetIfNoCandidates : bool) (c : Cache) : list Tab * Cache :=
  let tabs := List.filter shouldTabBeClosed tabs in
  let tabsToCut := List.filter inToCut tabs in
  if Z.of_nat (length tabs) - minTabs <=? 0
  then ([], resetTabTimes resetIfNoCandidates tabs c)
  else
    let tabsToCut :=
      (JS.splice_front (Z.of_nat (length tabs) - minTabs) tabsToCut).1 in
    if (length tabsToCut =? 0)%nat then ([], c)
    else collectCandidates tabsToCut c.

(** [allTabs.reduce] grouping the tabs by [windowId]. *)
Definition tabsByWindowId (allTabs : list Tab) : gmap Z (list Tab) :=
  foldl (fun acc tab =>
           match tab_windowId tab with
           | Some wid => <[wid := default [] (acc !! wid) ++ [tab]]> acc
           | None => acc
           end) ∅ allTabs.

(** [windows.map(..).reduce(concat)]: the groups are evaluated in the
    order of [windows], each on the cache the previous one left. *)
Definition candidatesPerWindow (allTabs : list Tab) (windows : list Window)
    (c : Cache) : list Tab * Cache :=
  let byWindow := tabsByWindowId allTabs in
  foldl (fun '(acc, c) win =>
           match win_id win with
           | None => (acc, c)
           | Some wid =>
               let '(candidates, c') :=
                 findTabsToCloseCandidates (default [] (byWindow !! wid))
                   (win_focused win) c in
               (acc ++ candidates, c')
           end) ([], c) windows.

End Candidates.

(** [activeTabs.forEach]: the key is [String(tab.id)], also when the id
    is [undefined]. *)
Definition refreshActiveTabs (activeTabs : list Tab) (updatedAt : Z) (c : Cache)
  : Cache :=
  foldl (fun c tab => setTabTimeSilent (JS.String_opt (tab_id tab)) updatedAt c)
        c activeTabs.

Definition refreshAudibleTabs (filterAudio : bool) (allTabs : list Tab)
    (updatedAt : Z) (c : Cache) : Cache :=
  if filterAudio
  then foldl (fun c tab =>
                if tab_audible tab
                then setTabTimeSilent (JS.String_opt (tab_id tab)) updatedAt c
                else c) c allTabs
  else c.

(** Deleting the cached ids of tabs that are gone. *)
Definition cleanUpTabTimes (allTabs : list Tab) (c : Cache) : Cache :=
  let aliveTabIds : gset string :=
    list_to_set ((fun t => JS.String_opt (tab_id t)) <$> allTabs) in
  {| memoryTabTimes :=
       foldl (fun m tabId =>
                if bool_decide (tabId ∈ aliveTabIds) then m else delete tabId m)
             (memoryTabTimes c) (map_to_list (memoryTabTimes c)).*1;
     memoryTabTimesByUrl := memoryTabTimesByUrl c;
     isInitialized := isInitialized c |}.

(** The recompute loop of the alarm-based variant; returns the cache and
    [aliveUrls]. *)
Definition recomputeTabTimes (allTabs : list Tab) (updatedAt : Z) (c : Cache)
  : Cache * gset string :=
  foldl (fun '(c, aliveUrls) tab =>
           match tab_id tab with
           | Some tabId =>
               let time :=
                 JS.or_default (memoryTabTimes c !! JS.String_ tabId) updatedAt in
               let c := setTabTimeSilent (JS.String_ tabId) time c in
               if truthy_string (tab_url tab)
               then
                 let url := default "" (tab_url tab) in
                 (setTabTimeByUrlSilent url time c, {[url]} ∪ aliveUrls)
               else (c, aliveUrls)
           | None => (c, aliveUrls)
           end) (c, ∅) allTabs.

(** What the environment answers during one critical section. *)
Record Snapshot := mkSnapshot {
  snap_allTabs : list Tab;
  snap_activeTabs : list Tab;
  snap_windows : list Window;
  snap_updatedAt : Z
}.

(** The critical section of [checkToClose] up to (not including) the
    forced sync, as a function of the environment's answers. *)
Definition evaluate (settings : Settings) (cutOff : Z) (env : Snapshot)
    (c : Cache) : list Tab * Cache :=
  let allTabs := snap_allTabs env in
  let updatedAt := snap_updatedAt env in
  let lockedIds : gset Z := list_to_set (lockedIds settings) in
  let toCut : gset (option Z) :=
    list_to_set (getTabsOlderThan (memoryTabTimes c) cutOff) in
  let c := refreshActiveTabs (snap_activeTabs env) updatedAt c in
  let c := refreshAudibleTabs (filterAudio settings) allTabs updatedAt c in
  let shouldTabBeClosed := createShouldTabBeClosedFilter settings in
  let '(candidateTabs, c) :=
    if String.eqb (minTabsStrategy settings) "allWindows"
    then findTabsToCloseCandidates toCut (minTabs settings) lockedIds updatedAt
           shouldTabBeClosed allTabs false c
    else candidatesPerWindow toCut (minTabs settings) lockedIds updatedAt
           shouldTabBeClosed allTabs (snap_windows env) c in
  let c := cleanUpTabTimes allTabs c in
  let '(c, aliveUrls) := recomputeTabTimes allTabs updatedAt c in
  let c := cleanUpTabTimesByUrl (elements aliveUrls) c in
  (candidateTabs, c).

(** The timer-based variant of the file recomputes both maps from
    scratch and keeps the oldest time of a URL. *)
Module TimerVariant.

Definition recomputeTabTimes (allTabs : list Tab) (updatedAt : Z)
    (tabTimes : gmap string Z) : gmap string Z * gmap string Z :=
  foldl (fun '(nextTabTimes, nextTabTimesByUrl) tab =>
           match tab_id tab with
           | Some tabId =>
               let time := JS.or_default (tabTimes !! JS.String_ tabId) updatedAt in
               let nextTabTimes := <[JS.String_ tabId := time]> nextTabTimes in
               if truthy_string (tab_url tab)
               then
                 let url := default "" (tab_url tab) in
                 match nextTabTimesByUrl !! url with
                 | Some existing =>
                     if time <? existing
                     then (nextTabTimes, <[url := time]> nextTabTimesByUrl)
                     else (nextTabTimes, nextTabTimesByUrl)
                 | None => (nextTabTimes, <[url := time]> nextTabTimesByUrl)
                 end
               else (nextTabTimes, nextTabTimesByUrl)
           | None => (nextTabTimes, nextTabTimesByUrl)
           end) (∅, ∅) allTabs.

End TimerVariant.

(** ** background: the startup migration *)

(** The loop of [startup] that reconciles the stored id map with the live
    tabs; returns [nextTabTimes] and the [migrated] counter. *)
Definition migrateTabTimes (tabTimes tabTimesByUrl : gmap string Z)
    (allTabs : list Tab) (now : Z) : gmap string Z * Z :=
  foldl (fun '(nextTabTimes, migrated) tab =>
           match tab_id tab with
           | None => (nextTabTimes, migrated)
           | Some tabId =>
               match tabTimes !! JS.String_ tabId with
               | Some t => (<[JS.String_ tabId := t]> nextTabTimes, migrated)
               | None =>
                   match (if truthy_string (tab_url tab)
                          then tabTimesByUrl !! default "" (tab_url tab)
                          else None) with
                   | Some t => (<[JS.String_ tabId := t]> nextTabTimes, migrated + 1)
                   | None => (<[JS.String_ tabId := now]> nextTabTimes, migrated)
                   end
               end
           end) (∅, 0) allTabs.

(** ** The environment and the effects *)

(** What the code cannot control: the readings of [Date.now()] in the
    order they are taken, which awaited platform calls reject ([true]
    rejects; an exhausted list means no more failures), and the URL
    parser ([new URL(u).hostname], [None] when the constructor throws). *)
Record Oracle := mkOracle {
  clock : nat -> Z;
  ticks : nat;
  faults : list bool;
  hostname : string -> option string
}.

Record Browser := mkBrowser {
  br_tabs : list Tab;
  br_windows : list Window;
  br_lastFocusedWindow : option Z
}.

(** [chrome.storage.local] (the two time maps and the persisted state)
    and the [paused] flag of [chrome.storage.sync]. *)
Record Storage := mkStorage {
  st_tabTimes : gmap string Z;
  st_tabTimesByUrl : gmap string Z;
  st_persistLocal : StorageLocalPersistState;
  st_paused : bool
}.

(** Calls that leave the process. *)
Inductive Event :=
| TabsRemove (ids : list Z)
| AlarmCreate (name : string) (delayInMinutes : Q)
| StorageSetTabTimes (tabTimes tabTimesByUrl : gmap string Z)
| StorageSetPersist (p : StorageLocalPersistState)
| SetIcon (path : string)
| SetBadgeText (text : string)
| Console (level message : string)
| ConsoleUrls (urls : list (option string)).

Record World := mkWorld {
  w_oracle : Oracle;
  w_browser : Browser;
  w_storage : Storage;
  w_settings : Settings;
  w_cache : Cache;
  w_startupComplete : bool;
  w_alarms : gmap string Q;
  w_log : list Event
}.

Definition set_oracle (o : Oracle) (w : World) : World :=
  mkWorld o (w_browser w) (w_storage w) (w_settings w) (w_cache w)
    (w_startupComplete w) (w_alarms w) (w_log w).
Definition set_browser (b : Browser) (w : World) : World :=
  mkWorld (w_oracle w) b (w_storage w) (w_settings w) (w_cache w)
    (w_startupComplete w) (w_alarms w) (w_log w).
Definition set_storage (s : Storage) (w : World) : World :=
  mkWorld (w_oracle w) (w_browser w) s (w_settings w) (w_cache w)
    (w_startupComplete w) (w_alarms w) (w_log w).
Definition set_cache (c : Cache) (w : World) : World :=
  mkWorld (w_oracle w) (w_browser w) (w_storage w) (w_settings w) c
    (w_startupComplete w) (w_alarms w) (w_log w).
Definition set_startupComplete (b : bool) (w : World) : World :=
  mkWorld (w_oracle w) (w_browser w) (w_storage w) (w_settings w) (w_cache w)
    b (w_alarms w) (w_log w).
Definition set_alarms (a : gmap string Q) (w : World) : World :=
  mkWorld (w_oracle w) (w_browser w) (w_storage w) (w_settings w) (w_cache w)
    (w_startupComplete w) a (w_log w).
Definition emit (e : Event) (w : World) : World :=
  mkWorld (w_oracle w) (w_browser w) (w_storage w) (w_settings w) (w_cache w)
    (w_startupComplete w) (w_alarms w) (w_log w ++ [e]).

(** A computation either completes with a value or throws; the world it
    leaves is kept in both cases. *)
Inductive Result (A : Type) :=
| Ok (a : A)
| Throw (e : string).
Arguments Ok {A} a.
Arguments Throw {A} e.

Definition M (A : Type) : Type := World -> Result A * World.

Definition ret {A} (a : A) : M A := fun w => (Ok a, w).

Definition bind {A B} (m : M A) (k : A -> M B) : M B :=
  fun w =>
    match m w with
    | (Ok a, w') => k a w'
    | (Throw e, w') => (Throw e, w')
    end.

Notation "'let*' x ':=' m 'in' k" := (bind m (fun x => k))
  (at level 10, x pattern, m at level 100, k at level 200).
Notation "m ;;; k" := (bind m (fun _ => k))
  (at level 100, k at level 200, right associativity).

Definition throw {A} (e : string) : M A := fun w => (Throw e, w).
Definition gets {A} (f : World -> A) : M A := fun w => (Ok (f w), w).
Definition modify (f : World -> World) : M unit := fun w => (Ok tt, f w).
Definition modifyCache (f : Cache -> Cache) : M unit :=
  modify (fun w => set_cache (f (w_cache w)) w).
Definition lift {A} (r : Result A) : M A := fun w => (r, w).

(** [try { body } catch (e) { handler(e) }] *)
Definition try_catch {A} (body : M A) (handler : string -> M A) : M A :=
  fun w =>
    match body w with
    | (Ok a, w') => (Ok a, w')
    | (Throw e, w') => handler e w'
    end.

(** [try { .. } finally { fin }]: [fin] runs whatever the outcome; the
    outcome is kept unless [fin] throws itself. *)
Definition try_finally (body : M unit) (fin : M unit) : M unit :=
  fun w =>
    match body w with
    | (r, w') =>
        match fin w' with
        | (Ok _, w'') => (r, w'')
        | (Throw e, w'') => (Throw e, w'')
        end
    end.

(** A promise that is not awaited: it runs, and its rejection is not
    seen by the caller. *)
Definition detached (m : M unit) : M unit :=
  fun w => (Ok tt, (m w).2).

(** [Date.now()] / [new Date().getTime()]: the next reading. *)
Definition Date_now : M Z :=
  fun w =>
    let o := w_oracle w in
    (Ok (clock o (ticks o)),
     set_oracle (mkOracle (clock o) (S (ticks o)) (faults o) (hostname o)) w).

(** An awaited platform call: it rejects when the oracle says so. *)
Definition await (what : string) : M unit :=
  fun w =>
    let o := w_oracle w in
    match faults o with
    | [] => (Ok tt, w)
    | failed :: rest =>
        let w' := set_oracle (mkOracle (clock o) (ticks o) rest (hostname o)) w in
        if failed then (Throw what, w') else (Ok tt, w')
    end.

Definition console (level message : string) : M unit :=
  modify (emit (Console level message)).

(** *** The platform calls *)

(** [chrome.tabs.query({})] *)
Definition tabs_query_all : M (list Tab) :=
  await "tabs.query" ;;; gets (fun w => br_tabs (w_browser w)).

(** The tabs [chrome.tabs.query({ active: true, lastFocusedWindow: true })]
    answers with. *)
Definition activeTabsOf (b : Browser) : list Tab :=
  List.filter
    (fun t => tab_active t
              && bool_decide (is_Some (tab_windowId t))
              && bool_decide (tab_windowId t = br_lastFocusedWindow b))
    (br_tabs b).

Definition tabs_query_active : M (list Tab) :=
  await "tabs.query" ;;; gets (fun w => activeTabsOf (w_browser w)).

(** [chrome.windows.getAll({ populate: false })] *)
Definition windows_getAll : M (list Window) :=
  await "windows.getAll" ;;; gets (fun w => br_windows (w_browser w)).

(** The live tabs once those with an id in [ids] are closed. *)
Definition closeTabs (ids : list Z) (tabs : list Tab) : list Tab :=
  List.filter
    (fun t => match tab_id t with
              | Some i => negb (bool_decide (i ∈ ids))
              | None => true
              end) tabs.

(** [chrome.tabs.remove(ids)], which [wrangleTabs] does not await: the
    tabs with these ids are closed. *)
Definition tabs_remove (ids : list Z) : M unit :=
  modify (fun w =>
    let b := w_browser w in
    emit (TabsRemove ids)
      (set_browser
         (mkBrowser (closeTabs ids (br_tabs b)) (br_windows b)
            (br_lastFocusedWindow b)) w)).

(** [chrome.storage.local.get({ tabTimes: {}, tabTimesByUrl: {} })] *)
Definition storage_get_tabTimes : M (gmap string Z * gmap string Z) :=
  await "storage.local.get" ;;;
  gets (fun w => (st_tabTimes (w_storage w), st_tabTimesByUrl (w_storage w))).

(** [chrome.storage.local.set({ tabTimes, tabTimesByUrl })] *)
Definition storage_set_tabTimes (tabTimes tabTimesByUrl : gmap string Z) : M unit :=
  await "storage.local.set" ;;;
  modify (fun w =>
    let s := w_storage w in
    emit (StorageSetTabTimes tabTimes tabTimesByUrl)
      (set_storage (mkStorage tabTimes tabTimesByUrl (st_persistLocal s) (st_paused s)) w)).

(** [chrome.storage.local.set({ "persist:localStorage": p })] *)
Definition storage_set_persist (p : StorageLocalPersistState) : M unit :=
  await "storage.local.set" ;;;
  modify (fun w =>
    let s := w_storage w in
    emit (StorageSetPersist p)
      (set_storage (mkStorage (st_tabTimes s) (st_tabTimesByUrl s) p (st_paused s)) w)).

(** [chrome.alarms.create(name, { delayInMinutes })]: an alarm of the
    same name is replaced. *)
Definition alarms_create (name : string) (delayInMinutes : Q) : M unit :=
  modify (fun w =>
    emit (AlarmCreate name delayInMinutes)
      (set_alarms (<[name := delayInMinutes]> (w_alarms w)) w)).

(** Modelled from the spec: the keyed lock of [./js/storage] is not among
    the sources. Section 4.1: the critical section runs, its result is
    the result of [acquire], and when it throws the lock is released and
    the error propagates. One listener runs at a time here, so the lock
    never waits. *)
Definition ASYNC_LOCK_acquire {A} (names : list string) (criticalSection : M A)
  : M A := criticalSection.

(** Modelled from the spec: [getStorageSyncPersist] and
    [getStorageLocalPersist] of [./js/queries] are storage reads
    (section 1: thin I/O wrappers). *)
Definition getStorageSyncPersist : M bool :=
  await "storage.sync.get" ;;; gets (fun w => st_paused (w_storage w)).

Definition getStorageLocalPersist : M StorageLocalPersistState :=
  await "storage.local.get" ;;; gets (fun w => st_persistLocal (w_storage w)).

(** Modelled from the spec: [settings.init] of [./js/settings] loads the
    settings from storage (section 1: a read-only key/value provider). *)
Definition settings_init : M unit := await "settings.init".

(** Modelled from the spec: [removeAllSavedTabs] of
    [./js/actions/localStorageActions] is not among the sources; it is
    taken to empty the archive (section 1: the saved-tabs archive), as
    its name says. *)
Definition removeAllSavedTabs : M unit :=
  ASYNC_LOCK_acquire ["persist:localStorage"]
    (let* p := getStorageLocalPersist in
     storage_set_persist (mkPersist [] (totalTabsWrangled p) (otherFields p))).

(** *** tabTimesCache: the accessors that log or write *)

Definition getTabTimes : M (gmap string Z) :=
  let* c := gets w_cache in
  (if isInitialized c then ret tt
   else console "warn" "[tabTimesCache] getTabTimes called before initialization!") ;;;
  ret (memoryTabTimes c).

Definition forceSyncTabTimes : M unit :=
  let* c := gets w_cache in
  if isInitialized c
  then try_catch
         (storage_set_tabTimes (memoryTabTimes c) (memoryTabTimesByUrl c) ;;;
          console "debug" "[tabTimesCache] Force-synced tabTimes to disk.")
         (fun _ => console "error" "[tabTimesCache] Failed to force-sync tabTimes to disk:")
  else ret tt.

(** ** tabUtil: the archiver *)

Definition findPositionByURL (savedTabs : list Tab) (url : option string)
  : option nat :=
  let url := default "" url in
  JS.findIndex (fun item => bool_decide (tab_url item = Some url)) savedTabs.

(** [findIndex] with a predicate that may throw: the elements are tried
    in order and the first exception ends the search. *)
Fixpoint findIndexThrowing {A} (p : A -> Result bool) (l : list A)
  : Result (option nat) :=
  match l with
  | [] => Ok None
  | x :: r =>
      match p x with
      | Throw e => Throw e
      | Ok true => Ok (Some 0%nat)
      | Ok false =>
          match findIndexThrowing p r with
          | Ok o => Ok (S <$> o)
          | Throw e => Throw e
          end
      end
  end.

Definition findPositionByHostnameAndTitle (hostname : string -> option string)
    (savedTabs : list Tab) (url title : option string) : Result (option nat) :=
  let url := default "" url in
  let title := default "" title in
  match hostname url with
  | None => Throw "TypeError: Invalid URL"
  | Some hostB =>
      findIndexThrowing
        (fun tab =>
           match hostname (default "" (tab_url tab)) with
           | None => Throw "TypeError: Invalid URL"
           | Some hostA =>
               Ok (String.eqb hostA hostB && bool_decide (tab_title tab = Some title))
           end) savedTabs
  end.

(** The returned closure holds the [savedTabs] array itself, which
    [wrangleTabs] then changes in place; the array as it is at the time
    of the call is therefore an argument here. *)
Definition getURLPositionFilterByWrangleOption
    (hostname : string -> option string) (wrangleOption : string)
  : list Tab -> Tab -> Result (option nat) :=
  if String.eqb wrangleOption "hostnameAndTitleMatch"
  then fun savedTabs tab =>
         findPositionByHostnameAndTitle hostname savedTabs (tab_url tab) (tab_title tab)
  else if String.eqb wrangleOption "exactURLMatch"
  then fun savedTabs tab => Ok (findPositionByURL savedTabs (tab_url tab))
  else fun _ _ => Ok None.

Definition set_closedAt (closingDate : Z) (tab : Tab) : Tab :=
  mkTab (tab_id tab) (tab_windowId tab) (tab_url tab) (tab_title tab)
    (tab_pinned tab) (tab_audible tab) (tab_groupId tab) (tab_active tab)
    (Some closingDate).

(** The loop of [wrangleTabs] over [tabs]; the tab objects are taken to
    be distinct objects, as the platform's queries return them. *)
Fixpoint wrangleLoop (find : list Tab -> Tab -> Result (option nat))
    (tabs : list Tab) (p : StorageLocalPersistState) (tabIdsToRemove : list Z)
  : M (StorageLocalPersistState * list Z) :=
  match tabs with
  | [] => ret (p, tabIdsToRemove)
  | tab :: rest =>
      let* existingTabPosition := lift (find (savedTabs p) tab) in
      let* closingDate := Date_now in
      let saved :=
        match existingTabPosition with
        | Some pos => JS.splice_one pos (savedTabs p)
        | None => savedTabs p
        end in
      let p' := mkPersist (set_closedAt closingDate tab :: saved)
                  (totalTabsWrangled p + 1) (otherFields p) in
      wrangleLoop find rest p'
        (match tab_id tab with
         | Some tabId => tabIdsToRemove ++ [tabId]
         | None => tabIdsToRemove
         end)
  end.

(** [wrangleTabs] mutates [storageLocalPersist]; the mutated object is
    the result. When it throws the callers drop the object. *)
Definition wrangleTabs (storageLocalPersist : StorageLocalPersistState)
    (tabs : list Tab) : M StorageLocalPersistState :=
  if (length tabs =? 0)%nat then ret storageLocalPersist
  else
    let* settings := gets w_settings in
    let* hostname := gets (fun w => hostname (w_oracle w)) in
    let maxTabs := maxTabs settings in
    let findURLPositionByWrangleOption :=
      getURLPositionFilterByWrangleOption hostname (wrangleOption settings) in
    let* (p, tabIdsToRemove) :=
      wrangleLoop findURLPositionByWrangleOption tabs storageLocalPersist [] in
    (if (0 <? length tabIdsToRemove)%nat then tabs_remove tabIdsToRemove else ret tt) ;;;
    if 0 <? Z.of_nat (length (savedTabs p)) - maxTabs
    then
      let '(tabsToTrim, kept) := JS.splice_from maxTabs (savedTabs p) in
      console "log" "Exceeded maxTabs (%d), trimming older tabs:" ;;;
      modify (emit (ConsoleUrls (tab_url <$> tabsToTrim))) ;;;
      ret (mkPersist (JS.splice_front maxTabs kept).1
             (totalTabsWrangled p) (otherFields p))
    else ret p.

Definition wrangleTabsAndPersist (tabs : list Tab) : M unit :=
  if (length tabs =? 0)%nat then ret tt
  else
    let* storageLocalPersist := getStorageLocalPersist in
    let* p := wrangleTabs storageLocalPersist tabs in
    storage_set_persist p.

Definition updateClosedCount (showBadgeCount : bool) : M unit :=
  let* text :=
    (if showBadgeCount
     then
       let* localStorage := getStorageLocalPersist in
       let savedTabsLength := length (savedTabs localStorage) in
       ret (if (savedTabsLength =? 0)%nat then ""
            else pretty (Z.of_nat savedTabsLength))
     else ret "") in
  modify (emit (SetBadgeText text)).

(** ** background: the scheduler, the evaluation entry point, startup *)

Definition setPaused (paused : bool) : M unit :=
  modify (emit (SetIcon (if paused then "img/icon-paused.png" else "img/icon.png"))).

Definition CHECK_TO_CLOSE_ALARM : string := "checkToClose".

(** The delay is kept as the exact quotient. The code computes it in
    double arithmetic, so that between the bounds the number it passes
    can differ from that quotient by rounding; the bounds themselves,
    30000 / 60000 and 10800000 / 60000, are exact in doubles too. *)
Definition scheduleCheckToClose : M unit :=
  let* settings := gets w_settings in
  let stayOpenTime := inject_Z (stayOpen settings) in
  let intervalMs :=
    Qmax (inject_Z 30000) (Qmin (inject_Z 10800000) (Qdiv stayOpenTime (inject_Z 20))) in
  let intervalMinutes := Qdiv intervalMs (inject_Z 60000) in
  console "debug" "[scheduleCheckToClose] Scheduling next check" ;;;
  alarms_create CHECK_TO_CLOSE_ALARM intervalMinutes.

(** Running a piece of the cycle that only touches the cache. *)
Definition onCache {A} (f : Cache -> A * Cache) : M A :=
  fun w => let '(a, c) := f (w_cache w) in (Ok a, set_cache c w).

(** The critical section of [checkToClose] under ["local.tabTimes"].
    [getTabTimes] hands out the cache's own object, so the later writes
    through [setTabTimeSilent] and the reads of [tabTimes] meet in the
    cache; [toCut] is fixed before any of them. *)
Definition checkToClose_locked (cutOff minTabs : Z) : M (list Tab) :=
  let* allTabs := tabs_query_all in
  let* tabTimes := getTabTimes in
  let* settings := gets w_settings in
  let lockedIds : gset Z := list_to_set (lockedIds settings) in
  let toCut : gset (option Z) := list_to_set (getTabsOlderThan tabTimes cutOff) in
  let* updatedAt := Date_now in
  let* activeTabs := tabs_query_active in
  modifyCache (refreshActiveTabs activeTabs updatedAt) ;;;
  let* settings := gets w_settings in
  modifyCache (refreshAudibleTabs (filterAudio settings) allTabs updatedAt) ;;;
  let shouldTabBeClosed := createShouldTabBeClosedFilter settings in
  let* candidateTabs :=
    (if String.eqb (minTabsStrategy settings) "allWindows"
     then onCache (findTabsToCloseCandidates toCut minTabs lockedIds updatedAt
                     shouldTabBeClosed allTabs false)
     else
       let* windows := windows_getAll in
       onCache (candidatesPerWindow toCut minTabs lockedIds updatedAt
                  shouldTabBeClosed allTabs windows)) in
  modifyCache (cleanUpTabTimes allTabs) ;;;
  let* aliveUrls :=
    onCache (fun c => let '(c, u) := recomputeTabTimes allTabs updatedAt c in (u, c)) in
  modifyCache (cleanUpTabTimesByUrl (elements aliveUrls)) ;;;
  forceSyncTabTimes ;;;
  ret candidateTabs.

(** The [try] block; the early [return] when paused ends it normally. *)
Definition checkToClose_try : M unit :=
  let* paused := getStorageSyncPersist in
  if paused then ret tt
  else
    let* now := Date_now in
    let* settings := gets w_settings in
    let cutOff := now - stayOpen settings in
    let minTabs := minTabs settings in
    let* tabsToCloseCandidates :=
      ASYNC_LOCK_acquire ["local.tabTimes"] (checkToClose_locked cutOff minTabs) in
    let tabsToClose := tabsToCloseCandidates in
    if (0 <? length tabsToClose)%nat
    then
      ASYNC_LOCK_acquire ["persist:localStorage"]
        (let* storageLocalPersist := getStorageLocalPersist in
         let* p := wrangleTabs storageLocalPersist tabsToClose in
         storage_set_persist p)
    else ret tt.

Definition checkToClose_finally (startTime : Z) : M unit :=
  let* now := Date_now in
  let elapsedTime := now - startTime in
  (if 5000 <? elapsedTime
   then console "warn" "[checkToClose] Took longer than maxExecutionTime"
   else ret tt) ;;;
  scheduleCheckToClose.

Definition checkToClose : M unit :=
  let* startTime := Date_now in
  try_finally
    (try_catch checkToClose_try (fun _ => console "error" "[checkToClose]"))
    (checkToClose_finally startTime).

(** The critical section of [startup] under ["local.tabTimes"]. *)
Definition startup_locked : M unit :=
  let* (tabTimes, tabTimesByUrl) := storage_get_tabTimes in
  let* allTabs := tabs_query_all in
  let* now := Date_now in
  let '(nextTabTimes, migrated) := migrateTabTimes tabTimes tabTimesByUrl allTabs now in
  modifyCache (initTabTimes nextTabTimes (Some tabTimesByUrl)) ;;;
  console "debug" "[tabTimesCache] Initialized from storage" ;;;
  forceSyncTabTimes ;;;
  if 0 <? migrated
  then console "debug" "[startup] Migrated tab timer(s) from previous session via URL"
  else ret tt.

(** What [startup] does once the settings are loaded and the archive is
    purged: the migration, then the flag, then the first alarm. *)
Definition startup_migrate : M unit :=
  ASYNC_LOCK_acquire ["local.tabTimes"] startup_locked ;;;
  modify (set_startupComplete true) ;;;
  scheduleCheckToClose.

Definition startup : M unit :=
  settings_init ;;;
  let* storageSyncPersist := getStorageSyncPersist in
  detached (setPaused storageSyncPersist) ;;;
  let* settings := gets w_settings in
  detached (updateClosedCount (showBadgeCount settings)) ;;;
  (if purgeClosedTabs settings then removeAllSavedTabs else ret tt) ;;;
  startup_migrate.

(** The [chrome.alarms.onAlarm] listener. *)
Definition onAlarm (name : string) : M unit :=
  if String.eqb name CHECK_TO_CLOSE_ALARM then checkToClose else ret tt.

(** ** background: the remaining listeners *)

(** [lockedIds.splice(lockedIds.indexOf(removedTabId), 1, addedTabId)],
    done when [indexOf] finds the id: the first occurrence is replaced
    in place. [None] when the id is not in the array. *)
Definition replaceLockedId (addedTabId removedTabId : Z) (lockedIds : list Z)
  : option (list Z) :=
  match JS.findIndex (fun i => bool_decide (i = removedTabId)) lockedIds with
  | Some pos => Some (take pos lockedIds ++ addedTabId :: drop (S pos) lockedIds)
  | None => None
  end.

(** The [chrome.tabs.onReplaced] listener. The array of locked ids lives
    in [chrome.storage.sync]: what is stored there is passed in, and
    what the listener leaves there is the result (when the listener
    throws, nothing was written). [getTabTimes] hands out the cache's own
    object, so the [delete] is a removal from the cache. *)
Definition replaceTab (addedTabId removedTabId : Z) (syncLockedIds : list Z)
  : M (list Z) :=
  ASYNC_LOCK_acquire ["local.tabTimes"; "persist:settings"]
    (await "storage.sync.get" ;;;
     let* stored :=
       (match replaceLockedId addedTabId removedTabId syncLockedIds with
        | Some lockedIds =>
            await "storage.sync.set" ;;;
            console "debug" "[onReplaced] Re-locked tab: removedId, addedId" ;;;
            ret lockedIds
        | None => ret syncLockedIds
        end) in
     let* tabTimes := getTabTimes in
     match tabTimes !! JS.String_ removedTabId with
     | Some time =>
         if time =? 0 then ret stored
         else
           modifyCache (setTabTimeSilent (JS.String_ addedTabId) time) ;;;
           modifyCache (removeTabTime (JS.String_ removedTabId)) ;;;
           forceSyncTabTimes ;;;
           console "debug" "[onReplaced] Replaced tab time: removedId, addedId" ;;;
           ret stored
     | None => ret stored
     end).

(** The [chrome.windows.onRemoved] listener. *)
Definition windows_onRemoved : M unit :=
  let* windows := windows_getAll in
  if (length windows =? 0)%nat
  then
    console "debug"
      "[windows.onRemoved] Last window closed, forcing tab times to disk..." ;;;
    forceSyncTabTimes
  else ret tt.

(** ** debounce *)

(** The two variables of the closure that [debounce] returns. A pending
    timeout is its deadline together with the arguments its callback
    has captured. ([timer] keeps the id of a timeout that has run;
    clearing such an id does nothing, so that only pending timeouts are
    kept here.) *)
Record DebounceState (A : Type) := mkDebounceState {
  timer : option (Z * A);
  maxWaitTimer : option (Z * A)
}.
Arguments mkDebounceState {A} timer maxWaitTimer.
Arguments timer {A} d.
Arguments maxWaitTimer {A} d.

Definition debounce_idle {A} : DebounceState A := mkDebounceState None None.

(** A call of the debounced function at time [now] with [args].
    [maxWait] is [options?.maxWait], [None] when it is missing; zero is
    falsy. A negative delay of [setTimeout] counts as zero. *)
Definition debounce {A} (ms : Z) (maxWait : option Z) (now : Z) (args : A)
    (s : DebounceState A) : DebounceState A :=
  let maxWaitTimer :=
    match maxWait, maxWaitTimer s with
    | Some wait, None =>
        if wait =? 0 then None else Some (now + Z.max 0 wait, args)
    | _, pending => pending
    end in
  mkDebounceState (Some (now + Z.max 0 ms, args)) maxWaitTimer.

(** The event loop at time [now]: of the pending timeouts the one with
    the earlier deadline runs if it is due, on a tie the one that was
    set first, which is the [maxWait] one. Either callback clears the
    other timeout and calls [fn]; the list holds the arguments of that
    call. *)
Definition runTimers {A} (now : Z) (s : DebounceState A)
  : list A * DebounceState A :=
  match timer s, maxWaitTimer s with
  | Some (due, args), Some (maxDue, firstArgs) =>
      if maxDue <=? due
      then if maxDue <=? now then ([firstArgs], debounce_idle) else ([], s)
      else if due <=? now then ([args], debounce_idle) else ([], s)
  | Some (due, args), None =>
      if due <=? now then ([args], debounce_idle) else ([], s)
  | None, Some (maxDue, firstArgs) =>
      if maxDue <=? now then ([firstArgs], debounce_idle) else ([], s)
  | None, None => ([], s)
  end.

(** A sequence of calls, each at its time, after the timeouts that are
    due by then; the result lists the calls of [fn] so far. *)
Fixpoint debounce_run {A} (ms : Z) (maxWait : option Z) (calls : list (Z * A))
    (s : DebounceState A) : list A * DebounceState A :=
  match calls with
  | [] => ([], s)
  | (now, args) :: rest =>
      let '(fired, s) := runTimers now s in
      let '(later, s) := debounce_run ms maxWait rest (debounce ms maxWait now args s) in
      (fired ++ later, s)
  end.

(** The call of [fn] that is still to come when no further call
    arrives. *)
Definition debounce_flush {A} (s : DebounceState A) : list A :=
  match timer s, maxWaitTimer s with
  | Some (due, args), Some (maxDue, firstArgs) =>
      if maxDue <=? due then [firstArgs] else [args]
  | Some (_, args), None => [args]
  | None, Some (_, firstArgs) => [firstArgs]
  | None, None => []
  end.

(** ** Vocabulary of the statements *)

(** [const toCut = new Set(getTabsOlderThan(tabTimes, cutOff))] *)
Definition toCutSet (tabTimes : gmap string Z) (cutOff : Z) : gset (option Z) :=
  list_to_set (getTabsOlderThan tabTimes cutOff).

(** Every key that reads as a number is the numeral [String] prints for
    it: what the writers of the cache produce ([String(tab.id)] for a
    number or for [undefined]). *)
Definition canonical_keys (m : gmap string Z) : Prop :=
  forall k v i, m !! k = Some v -> JS.parseInt k = Some i -> k = JS.String_ i.

(** The timestamp the cache holds for a tab id. *)
Definition cachedTime (c : Cache) (tabId : Z) : option Z :=
  memoryTabTimes c !! JS.String_ tabId.

(** [c'] is [c] after some ids were refreshed to [updatedAt]: nothing
    else is written, nothing is removed. *)
Definition refreshes (updatedAt : Z) (c c' : Cache) : Prop :=
  memoryTabTimesByUrl c' = memoryTabTimesByUrl c
  /\ isInitialized c' = isInitialized c
  /\ forall k, memoryTabTimes c' !! k = memoryTabTimes c !! k
             \/ memoryTabTimes c' !! k = Some updatedAt.

(** [c'] is [c] after a whole cycle: ids may be gone, and the times
    that are there are the old ones or [updatedAt]. *)
Definition keeps_or_refreshes (updatedAt : Z) (c c' : Cache) : Prop :=
  isInitialized c' = isInitialized c
  /\ forall k v, memoryTabTimes c' !! k = Some v ->
                 memoryTabTimes c !! k = Some v \/ v = updatedAt.

(** [w'] has the cache, the stored time maps, the settings and the
    oracle's functions of [w]. *)
Definition same_times (w w' : World) : Prop :=
  w_cache w' = w_cache w
  /\ st_tabTimes (w_storage w') = st_tabTimes (w_storage w)
  /\ st_tabTimesByUrl (w_storage w') = st_tabTimesByUrl (w_storage w)
  /\ w_settings w' = w_settings w.

(** A computation that leaves the time maps alone, however it ends. *)
Definition keeps_times {A} (m : M A) : Prop :=
  forall w, same_times w (m w).2.

(** The end of the [try] block of [checkToClose]: what is done with the
    candidates. *)
Definition archiveCandidates (tabsToClose : list Tab) : M unit :=
  if (0 <? length tabsToClose)%nat
  then
    ASYNC_LOCK_acquire ["persist:localStorage"]
      (let* storageLocalPersist := getStorageLocalPersist in
       let* p := wrangleTabs storageLocalPersist tabsToClose in
       storage_set_persist p)
  else ret tt.

(** The tabs of the trimmed list that the final loop pushes. *)
Definition evictable (lockedIds : gset Z) (tab : Tab) : bool :=
  match tab_id tab with
  | None => false
  | Some tabId => negb (bool_decide (tabId ∈ lockedIds))
  end.

(** The number of tabs a group may lose: the size of the filtered group
    minus [minTabs]. *)
Definition budget (minTabs : Z) (shouldTabBeClosed : Tab -> bool)
    (tabs : list Tab) : Z :=
  Z.of_nat (length (List.filter shouldTabBeClosed tabs)) - minTabs.

(** The trimmed [tabsToCut]: the first [budget] past-cutoff tabs of the
    filtered group, in the order of enumeration. *)
Definition trimmed (toCut : gset (option Z)) (minTabs : Z)
    (shouldTabBeClosed : Tab -> bool) (tabs : list Tab) : list Tab :=
  take (Z.to_nat (budget minTabs shouldTabBeClosed tabs))
       (List.filter (inToCut toCut) (List.filter shouldTabBeClosed tabs)).

(** The clock never goes back. *)
Definition clock_monotone (o : Oracle) : Prop :=
  forall i j : nat, (i <= j)%nat -> clock o i <= clock o j.

(** The [n]-th next reading of the clock in [w]. *)
Definition reading (w : World) (n : nat) : Z :=
  clock (w_oracle w) (ticks (w_oracle w) + n).

(** For a cycle that starts in [w]: [startTime] is the first reading
    [checkToClose] takes, [cutOff] comes from the second, [updatedAt] is
    the third (lemma [checkToClose_try_run] below runs the code and
    finds these). *)
Definition cycle_startTime (w : World) : Z := reading w 0.
Definition cycle_cutOff (w : World) : Z := reading w 1 - stayOpen (w_settings w).
Definition cycle_updatedAt (w : World) : Z := reading w 2.

(** What the platform answers during a cycle that starts in [w]. *)
Definition cycle_snapshot (w : World) : Snapshot :=
  mkSnapshot (br_tabs (w_browser w)) (activeTabsOf (w_browser w))
    (br_windows (w_browser w)) (cycle_updatedAt w).

(** The candidates of one group, without the cache. *)
Definition groupCandidates (toCut : gset (option Z)) (minTabs : Z)
    (lockedIds : gset Z) (shouldTabBeClosed : Tab -> bool) (tabs : list Tab)
  : list Tab :=
  if budget minTabs shouldTabBeClosed tabs <=? 0 then []
  else List.filter (evictable lockedIds) (trimmed toCut minTabs shouldTabBeClosed tabs).

(** The tabs of a window, in the order of enumeration. *)
Definition windowTabs (wid : Z) (allTabs : list Tab) : list Tab :=
  List.filter (fun t => bool_decide (tab_windowId t = Some wid)) allTabs.

(** The candidates of a cycle, without the cache: one group of all
    tabs, or one group per window. *)
Definition cycleCandidates (settings : Settings) (toCut : gset (option Z))
    (allTabs : list Tab) (windows : list Window) : list Tab :=
  let lockedIds : gset Z := list_to_set (lockedIds settings) in
  let shouldTabBeClosed := createShouldTabBeClosedFilter settings in
  if String.eqb (minTabsStrategy settings) "allWindows"
  then groupCandidates toCut (minTabs settings) lockedIds shouldTabBeClosed allTabs
  else
    flat_map
      (fun win =>
         match win_id win with
         | Some wid =>
             groupCandidates toCut (minTabs settings) lockedIds shouldTabBeClosed
               (windowTabs wid allTabs)
         | None => []
         end) windows.

(** The ids of the tabs a cycle hands to the archiver. *)
Definition idsOf (tabs : list Tab) : list Z := omap tab_id tabs.

(** What the specification says instead of [trimmed]: the past-cutoff
    tabs sorted by cached time, oldest first (ties in the order of
    enumeration), then the first [budget] of them. *)
Fixpoint insertByTime (time : Tab -> Z) (tab : Tab) (l : list Tab) : list Tab :=
  match l with
  | [] => [tab]
  | x :: r => if time tab <=? time x then tab :: x :: r
              else x :: insertByTime time tab r
  end.

Definition sortByTime (time : Tab -> Z) (l : list Tab) : list Tab :=
  foldr (insertByTime time) [] l.

Definition spec_oldestFirst (time : Tab -> Z) (toCut : gset (option Z))
    (minTabs : Z) (shouldTabBeClosed : Tab -> bool) (tabs : list Tab) : list Tab :=
  take (Z.to_nat (budget minTabs shouldTabBeClosed tabs))
       (sortByTime time
          (List.filter (inToCut toCut) (List.filter shouldTabBeClosed tabs))).

(** The platform gives distinct live tabs distinct ids. *)
Definition unique_ids (tabs : list Tab) : Prop :=
  forall t t', t ∈ tabs -> t' ∈ tabs ->
    is_Some (tab_id t) -> tab_id t = tab_id t' -> t = t'.

(** The reconciled time as the specification words it: the id map's
    entry if there is one, else the URL map's entry for the tab's URL if
    there is one, else now. *)
Definition reconciledTime (tabTimes tabTimesByUrl : gmap string Z) (now : Z)
    (tab : Tab) (tabId : Z) : Z :=
  match tabTimes !! JS.String_ tabId with
  | Some t => t
  | None =>
      match tab_url tab ≫= (fun url => tabTimesByUrl !! url) with
      | Some t => t
      | None => now
      end
  end.

(** When an archive entry was closed ([0] for an entry without a
    stamp), and the order of the archive: newest first. *)
Definition closedTime (tab : Tab) : Z := default 0 (tab_closedAt tab).

Definition newer (x y : Tab) : Prop := closedTime y <= closedTime x.

Definition newestFirst (archive : list Tab) : Prop := StronglySorted newer archive.

(** The world after one more reading of the clock. *)
Definition tick (w : World) : World :=
  let o := w_oracle w in
  set_oracle (mkOracle (clock o) (S (ticks o)) (faults o) (hostname o)) w.

(** The time the recompute loops give a live tab: its cached time, or
    [updatedAt] when there is none (or a zero one). *)
Definition recomputedTime (tabTimes : gmap string Z) (updatedAt : Z) (tab : Tab) : Z :=
  match tab_id tab with
  | Some tabId => JS.or_default (tabTimes !! JS.String_ tabId) updatedAt
  | None => updatedAt
  end.

(** A tab the recompute loops file under [url]. *)
Definition filedUnder (url : string) (tab : Tab) : Prop :=
  is_Some (tab_id tab) /\ tab_url tab = Some url.

(** ** Sample inputs *)

Definition sample_tab (tabId windowId : Z) (url : string) : Tab :=
  mkTab (Some tabId) (Some windowId) (Some url) None false false None false None.

Definition sample_settings : Settings :=
  mkSettings 1000 2 "givenWindow" 2 "exactURLMatch" [] [] false false false false.

(** Three tabs of one window, cached at 50, 10 and 30. *)
Definition sample_tabs : list Tab :=
  [sample_tab 1 7 "https://a.example/"; sample_tab 2 7 "https://b.example/";
   sample_tab 3 7 "https://c.example/"].

Definition sample_tabTimes : gmap string Z :=
  <["1" := 50]> (<["2" := 10]> (<["3" := 30]> ∅)).

Definition sample_cache : Cache := mkCache sample_tabTimes ∅ true.

Definition sample_clock (n : nat) : Z := 5000 + Z.of_nat n.

Definition sample_world : World :=
  mkWorld (mkOracle sample_clock 0 [] (fun _ => None))
    (mkBrowser sample_tabs [mkWindow (Some 7) true] (Some 7))
    (mkStorage ∅ ∅ (mkPersist [] 0 ∅) false)
    sample_settings sample_cache true ∅ [].

(** After a restart: the stored ids are stale except for tab 1, the
    URL map knows the second tab. *)
Definition sample_restart_world : World :=
  mkWorld (mkOracle sample_clock 0 [] (fun _ => None))
    (mkBrowser sample_tabs [mkWindow (Some 7) true] (Some 7))
    (mkStorage (<["1" := 50]> ∅) (<["https://b.example/" := 10]> ∅)
       (mkPersist [] 0 ∅) false)
    sample_settings (mkCache ∅ ∅ false) false ∅ [].

(** Two live tabs with one URL, cached at 4500 and 4800, in a window
    that is not focused; nothing is past the cutoff. *)
Definition duplicate_url : string := "https://dup.example/".

Definition duplicate_url_tabs : list Tab :=
  [sample_tab 1 7 duplicate_url; sample_tab 2 7 duplicate_url].

Definition duplicate_url_world : World :=
  mkWorld (mkOracle sample_clock 0 [] (fun _ => None))
    (mkBrowser duplicate_url_tabs [mkWindow (Some 7) false] None)
    (mkStorage ∅ ∅ (mkPersist [] 0 ∅) false)
    sample_settings (mkCache (<["1" := 4500]> (<["2" := 4800]> ∅)) ∅ true)
    true ∅ [].

(** One tab, no floor, an empty cache, and a clock that stands at
    [stayOpen] milliseconds: the cutoff is zero. *)
Definition zero_cutoff_settings : Settings :=
  mkSettings 1000 0 "givenWindow" 2 "exactURLMatch" [] [] false false false false.

Definition zero_cutoff_snapshot : Snapshot :=
  mkSnapshot [sample_tab 1 7 "https://a.example/"] [] [mkWindow (Some 7) false] 1000.

Definition zero_cutoff_world : World :=
  mkWorld (mkOracle (fun _ => 1000) 0 [] (fun _ => None))
    (mkBrowser [sample_tab 1 7 "https://a.example/"] [mkWindow (Some 7) false] None)
    (mkStorage ∅ ∅ (mkPersist [] 0 ∅) false)
    zero_cutoff_settings (mkCache ∅ ∅ true) true ∅ [].

(** The sample window with tab 1 locked by id. *)
Definition locked_tab_settings : Settings :=
  mkSettings 1000 2 "givenWindow" 2 "exactURLMatch" [1] [] false false false false.

Definition locked_tab_world : World :=
  mkWorld (mkOracle sample_clock 0 [] (fun _ => None))
    (mkBrowser sample_tabs [mkWindow (Some 7) false] None)
    (mkStorage ∅ ∅ (mkPersist [] 0 ∅) false)
    locked_tab_settings sample_cache true ∅ [].

(** [sub] occurs in [s] at some offset. *)
Definition occurs_in (sub s : string) : Prop :=
  exists m : nat, String.substring m (String.length sub) s = sub.

(** A computation that, started before the cache is initialized, leaves
    it uninitialized and does not write the stored time maps, however it
    ends. *)
Definition keeps_stored_while_uninitialized {A} (m : M A) : Prop :=
  forall w,
    isInitialized (w_cache w) = false ->
    isInitialized (w_cache (m w).2) = false
    /\ st_tabTimes (w_storage (m w).2) = st_tabTimes (w_storage w)
    /\ st_tabTimesByUrl (w_storage (m w).2) = st_tabTimesByUrl (w_storage w).

(** A computation that does not touch the [startupComplete] flag. *)
Definition keeps_startupComplete {A} (m : M A) : Prop :=
  forall w, w_startupComplete (m w).2 = w_startupComplete w.

(** A computation that raises the [startupComplete] flag only when it
    completes, with the cache initialized and the alarm set. *)
Definition startupComplete_implies_initialized (m : M unit) : Prop :=
  forall w,
    w_startupComplete w = false ->
    w_startupComplete (m w).2 = true ->
    (m w).1 = Ok tt
    /\ isInitialized (w_cache (m w).2) = true
    /\ is_Some (w_alarms (m w).2 !! CHECK_TO_CLOSE_ALARM).

(** Calls that follow a call at time [prev], each less than [ms] after
    the one before it. *)
Fixpoint burst {A} (ms : Z) (prev : Z) (calls : list (Z * A)) : Prop :=
  match calls with
  | [] => True
  | (now, _) :: rest => prev <= now < prev + ms /\ burst ms now rest
  end.

(** The last call of a sequence that starts with [first]. *)
Fixpoint lastCall {A} (first : Z * A) (calls : list (Z * A)) : Z * A :=
  match calls with
  | [] => first
  | call :: rest => lastCall call rest
  end.

(** * Properties *)

Example parseInt_42 : JS.parseInt "42" = Some 42.
Proof. reflexivity. Qed.
Example parseInt_neg : JS.parseInt " -7x" = Some (-7).
Proof. reflexivity. Qed.
Example parseInt_undefined : JS.parseInt "undefined" = None.
Proof. reflexivity. Qed.
Example String_1234 : JS.String_ 1234 = "1234".
Proof. reflexivity. Qed.
Example includes_ex : JS.includes "b.c" "a.b.c/d" = true.
Proof. reflexivity. Qed.

(** ** JavaScript primitives *)

Section JSFacts.
Import JS.

Lemma digit_of_pretty_N_char d :
  (d < 10)%N -> digit_of (pretty_N_char d) = Some (Z.of_N d).
Proof.
  intros Hd.
  assert (d = 0 \/ d = 1 \/ d = 2 \/ d = 3 \/ d = 4 \/ d = 5 \/ d = 6
          \/ d = 7 \/ d = 8 \/ d = 9)%N as Hcases by lia.
  repeat (destruct Hcases as [-> | Hcases]; [reflexivity |]).
  subst d. reflexivity.
Qed.

(** Reading back the digits [pretty_N_go] printed in front of [s]. *)
Lemma parseDigits_pretty_N_go x :
  forall s, exists n : Z,
    0 <= n /\ (x = 0%N -> n = 0) /\
    forall acc,
      parseDigits (pretty_N_go x s) acc
      = parseDigits s (if (x =? 0)%N then acc
                       else Some (10 ^ n * default 0 acc + Z.of_N x)).
Proof.
  induction (N.lt_wf_0 x) as [x _ IH]. intros s.
  destruct (N.eq_dec x 0%N) as [-> | Hx].
  - exists 0. rewrite pretty_N_go_0. repeat split; try done.
  - assert (0 < x)%N as Hpos by lia.
    rewrite pretty_N_go_step by done.
    destruct (IH (x `div` 10)%N (N.div_lt x 10 Hpos eq_refl)
                (String (pretty_N_char (x `mod` 10)) s)) as (n & Hn & Hn0 & Hgo).
    exists (n + 1). split; [lia |]. split; [lia |].
    intros acc. rewrite Hgo. cbn [parseDigits].
    rewrite digit_of_pretty_N_char by (apply N.mod_lt; lia).
    replace (x =? 0)%N with false by (symmetry; apply N.eqb_neq; done).
    f_equal. f_equal.
    pose proof (N.div_mod x 10 ltac:(lia)) as Hdm.
    destruct (x `div` 10 =? 0)%N eqn:Hq.
    + apply N.eqb_eq in Hq. rewrite (Hn0 Hq). simpl (10 ^ (0 + 1)). lia.
    + cbn [default]. rewrite Z.pow_add_r by lia.
      change (10 ^ 1) with 10.
      assert (Z.of_N x = 10 * Z.of_N (x `div` 10) + Z.of_N (x `mod` 10)) as -> by lia.
      unfold id. ring.
Qed.

Lemma pretty_N_go_head x :
  forall s, (0 < x)%N ->
    exists d r, (d < 10)%N /\ pretty_N_go x s = String (pretty_N_char d) r.
Proof.
  induction (N.lt_wf_0 x) as [x _ IH]. intros s Hpos.
  rewrite pretty_N_go_step by done.
  destruct (N.eq_dec (x `div` 10)%N 0%N) as [Hq | Hq].
  - rewrite Hq, pretty_N_go_0. eexists _, _. split; [| reflexivity].
    apply N.mod_lt. lia.
  - apply IH; [by apply N.div_lt | by apply N.neq_0_lt_0].
Qed.

Lemma parseInt_digit_head d r :
  (d < 10)%N ->
  parseInt (String (pretty_N_char d) r) = parseDigits (String (pretty_N_char d) r) None.
Proof.
  intros Hd.
  assert (d = 0 \/ d = 1 \/ d = 2 \/ d = 3 \/ d = 4 \/ d = 5 \/ d = 6
          \/ d = 7 \/ d = 8 \/ d = 9)%N as Hcases by lia.
  repeat (destruct Hcases as [-> | Hcases]; [reflexivity |]).
  subst d. reflexivity.
Qed.

Lemma parseDigits_pretty_pos p :
  parseDigits (pretty_N_go (N.pos p) "") None = Some (Z.pos p).
Proof.
  destruct (parseDigits_pretty_N_go (N.pos p) "") as (n & _ & _ & Hgo).
  rewrite Hgo. cbn. f_equal. lia.
Qed.

(** [parseInt] reads back what [String] prints. *)
Lemma parseInt_String n : parseInt (String_ n) = Some n.
Proof.
  destruct n as [| p | p]; [reflexivity | |].
  - change (String_ (Z.pos p)) with (pretty_N_go (N.pos p) "").
    destruct (pretty_N_go_head (N.pos p) "") as (d & r & Hd & Heq); [lia |].
    rewrite Heq, parseInt_digit_head, <- Heq by done.
    apply parseDigits_pretty_pos.
  - change (String_ (Z.neg p)) with (String "-" (pretty_N_go (N.pos p) "")).
    unfold parseInt. cbn [trimStart]. change (is_white "-") with false.
    cbn iota. change (Ascii.eqb "-" "-") with true. cbn iota.
    by rewrite parseDigits_pretty_pos.
Qed.

Lemma String_inj a b : String_ a = String_ b -> a = b.
Proof.
  intros Heq. pose proof (parseInt_String a) as Ha.
  rewrite Heq, parseInt_String in Ha. congruence.
Qed.

Lemma String_not_undefined n : String_ n <> "undefined".
Proof.
  intros Heq. pose proof (parseInt_String n) as Hn. rewrite Heq in Hn. discriminate.
Qed.

Lemma String_opt_Some_inv o n : String_opt o = String_ n -> o = Some n.
Proof.
  destruct o as [m |]; cbn.
  - intros Heq. f_equal. by apply String_inj.
  - intros Heq. symmetry in Heq. by apply String_not_undefined in Heq.
Qed.

End JSFacts.

(** ** Which ids are past the cutoff *)

Lemma elem_of_getTabsOlderThan (m : gmap string Z) (time : Z) (o : option Z) :
  o ∈ getTabsOlderThan m time
  <-> exists k v, m !! k = Some v /\ JS.parseInt k = o /\ (time = 0 \/ v < time).
Proof.
  unfold getTabsOlderThan. rewrite list_elem_of_fmap. split.
  - intros ([k v] & -> & Hin). apply list_elem_of_In, filter_In in Hin as [Hin Hp].
    apply list_elem_of_In, elem_of_map_to_list in Hin. exists k, v.
    repeat split; [done |]. cbn in Hp. apply orb_prop in Hp as [Hp | Hp]; [left | right]; lia.
  - intros (k & v & Hkv & <- & Hp). exists (k, v). split; [done |].
    apply list_elem_of_In, filter_In. split.
    + by apply list_elem_of_In, elem_of_map_to_list.
    + cbn. apply orb_true_iff. destruct Hp; [left | right]; lia.
Qed.

Lemma elem_of_toCutSet (m : gmap string Z) (time : Z) (o : option Z) :
  o ∈ toCutSet m time
  <-> exists k v, m !! k = Some v /\ JS.parseInt k = o /\ (time = 0 \/ v < time).
Proof. unfold toCutSet. rewrite elem_of_list_to_set. apply elem_of_getTabsOlderThan. Qed.

Lemma elem_of_toCutSet_canonical (m : gmap string Z) (time tabId : Z) :
  canonical_keys m ->
  Some tabId ∈ toCutSet m time
  <-> exists t, m !! JS.String_ tabId = Some t /\ (time = 0 \/ t < time).
Proof.
  intros Hcan. rewrite elem_of_toCutSet. split.
  - intros (k & v & Hkv & Hparse & Hp). exists v.
    by rewrite <- (Hcan k v tabId Hkv Hparse).
  - intros (t & Ht & Hp). exists (JS.String_ tabId), t.
    split; [done |]. split; [apply parseInt_String | done].
Qed.

(** The writers of the cache keep the keys canonical. *)
Lemma canonical_keys_empty : canonical_keys ∅.
Proof. intros k v i Hk. by rewrite lookup_empty in Hk. Qed.

Lemma canonical_keys_insert_String m tabId t :
  canonical_keys m -> canonical_keys (<[JS.String_ tabId := t]> m).
Proof.
  intros Hcan k v i Hk Hparse.
  destruct (decide (JS.String_ tabId = k)) as [<- | Hne].
  - rewrite parseInt_String in Hparse. congruence.
  - rewrite lookup_insert_ne in Hk by done. eauto.
Qed.

Lemma canonical_keys_insert_String_opt m o t :
  canonical_keys m -> canonical_keys (<[JS.String_opt o := t]> m).
Proof.
  destruct o as [tabId |]; [apply canonical_keys_insert_String |].
  intros Hcan k v i Hk Hparse.
  destruct (decide ("undefined" = k)) as [<- | Hne]; [discriminate |].
  cbn in Hk. rewrite lookup_insert_ne in Hk by done. eauto.
Qed.

Lemma canonical_keys_subseteq m m' :
  (forall k v, m' !! k = Some v -> is_Some (m !! k)) ->
  canonical_keys m -> canonical_keys m'.
Proof.
  intros Hsub Hcan k v i Hk Hparse.
  destruct (Hsub k v Hk) as [v' Hv']. eauto.
Qed.

(** ** The cache writes of a cycle *)

Lemma refreshes_refl u c : refreshes u c c.
Proof. repeat split; auto. Qed.

Lemma refreshes_trans u c1 c2 c3 :
  refreshes u c1 c2 -> refreshes u c2 c3 -> refreshes u c1 c3.
Proof.
  intros (Hu1 & Hi1 & H1) (Hu2 & Hi2 & H2).
  split; [congruence |]. split; [congruence |].
  intros k. destruct (H2 k) as [-> | ->]; auto.
Qed.

Lemma refreshes_setTabTimeSilent u k c : refreshes u c (setTabTimeSilent k u c).
Proof.
  repeat split; try done. intros k'. cbn.
  destruct (decide (k = k')) as [-> | Hne].
  - right. apply lookup_insert_eq.
  - left. by apply lookup_insert_ne.
Qed.

Lemma refreshes_keeps u c c' k :
  refreshes u c c' ->
  memoryTabTimes c !! k = Some u -> memoryTabTimes c' !! k = Some u.
Proof. intros (_ & _ & H) Hk. destruct (H k) as [-> | ->]; done. Qed.

Lemma refreshes_foldl {A} u (f : Cache -> A -> Cache) l :
  (forall c a, refreshes u c (f c a)) ->
  forall c, refreshes u c (foldl f c l).
Proof.
  intros Hf. induction l as [| a l IH]; intros c; cbn.
  - apply refreshes_refl.
  - eapply refreshes_trans; [apply Hf | apply IH].
Qed.

Lemma refreshes_refreshActiveTabs activeTabs u c :
  refreshes u c (refreshActiveTabs activeTabs u c).
Proof.
  apply refreshes_foldl. intros c' tab. apply refreshes_setTabTimeSilent.
Qed.

Lemma refreshes_refreshAudibleTabs b allTabs u c :
  refreshes u c (refreshAudibleTabs b allTabs u c).
Proof.
  unfold refreshAudibleTabs. destruct b; [| apply refreshes_refl].
  apply refreshes_foldl. intros c' tab.
  destruct (tab_audible tab); [apply refreshes_setTabTimeSilent | apply refreshes_refl].
Qed.

(** ** Selecting the candidates of one group *)

Section CandidatesFacts.

Variable toCut : gset (option Z).
Variable minTabs : Z.
Variable lockedIds : gset Z.
Variable updatedAt : Z.
Variable shouldTabBeClosed : Tab -> bool.

Local Abbreviation find :=
  (findTabsToCloseCandidates toCut minTabs lockedIds updatedAt shouldTabBeClosed).
Local Abbreviation collect := (collectCandidates lockedIds updatedAt).
Local Abbreviation budget := (budget minTabs shouldTabBeClosed).
Local Abbreviation trimmed := (trimmed toCut minTabs shouldTabBeClosed).

Lemma refreshes_resetTabTimes b tabs c :
  refreshes updatedAt c (resetTabTimes updatedAt b tabs c).
Proof.
  apply refreshes_foldl. intros c' tab.
  destruct (tab_id tab), b; first [apply refreshes_setTabTimeSilent | apply refreshes_refl].
Qed.

Lemma resetTabTimes_refreshed tabs : forall c tab tabId,
  tab ∈ tabs -> tab_id tab = Some tabId ->
  cachedTime (resetTabTimes updatedAt true tabs c) tabId = Some updatedAt.
Proof.
  unfold cachedTime.
  induction tabs as [| t tabs IH]; intros c tab tabId Hin Hid; [by inversion Hin |].
  apply elem_of_cons in Hin as [<- | Hin].
  - cbn. rewrite Hid.
    eapply refreshes_keeps; [apply (refreshes_resetTabTimes true) |].
    cbn. apply lookup_insert_eq.
  - cbn. by eapply IH.
Qed.

Lemma collectCandidates_fst tabsToCut : forall c,
  (collect tabsToCut c).1 = List.filter (evictable lockedIds) tabsToCut.
Proof.
  induction tabsToCut as [| tab rest IH]; intros c; [done |].
  cbn. unfold evictable at 1. destruct (tab_id tab) as [tabId |]; [| apply IH].
  destruct (bool_decide (tabId ∈ lockedIds)); cbn; [apply IH |].
  specialize (IH c). destruct (collect rest c) as [cs c']. cbn in *. by f_equal.
Qed.

Lemma refreshes_collectCandidates tabsToCut : forall c,
  refreshes updatedAt c (collect tabsToCut c).2.
Proof.
  induction tabsToCut as [| tab rest IH]; intros c; [apply refreshes_refl |].
  cbn. destruct (tab_id tab) as [tabId |]; [| apply IH].
  destruct (bool_decide (tabId ∈ lockedIds)).
  - eapply refreshes_trans; [apply refreshes_setTabTimeSilent | apply IH].
  - specialize (IH c). by destruct (collect rest c).
Qed.

Lemma collectCandidates_locked_refreshed tabsToCut : forall c tab tabId,
  tab ∈ tabsToCut -> tab_id tab = Some tabId -> tabId ∈ lockedIds ->
  cachedTime (collect tabsToCut c).2 tabId = Some updatedAt.
Proof.
  unfold cachedTime.
  induction tabsToCut as [| t rest IH]; intros c tab tabId Hin Hid Hlocked;
    [by inversion Hin |].
  apply elem_of_cons in Hin as [<- | Hin].
  - cbn. rewrite Hid, bool_decide_eq_true_2 by done.
    eapply refreshes_keeps; [apply refreshes_collectCandidates |].
    cbn. apply lookup_insert_eq.
  - cbn. destruct (tab_id t) as [i |]; [| by eapply IH].
    destruct (bool_decide (i ∈ lockedIds)); [by eapply IH |].
    specialize (IH c tab tabId Hin Hid Hlocked).
    by destruct (collect rest c).
Qed.

Lemma splice_front_take {A} (n : Z) (l : list A) :
  0 <= n -> (JS.splice_front n l).1 = take (Z.to_nat n) l.
Proof.
  intros Hn. unfold JS.splice_front. cbn.
  destruct (Z.le_gt_cases n (Z.of_nat (length l))) as [Hle | Hgt].
  - by rewrite Z.max_l, Z.min_l by lia.
  - rewrite Z.max_l, Z.min_r, Nat2Z.id by lia.
    rewrite !take_ge; [done | lia | lia].
Qed.

Lemma find_floor tabs b c :
  budget tabs <= 0 ->
  find tabs b c = ([], resetTabTimes updatedAt b (List.filter shouldTabBeClosed tabs) c).
Proof.
  unfold budget, findTabsToCloseCandidates. intros H.
  by rewrite (proj2 (Z.leb_le _ _) H).
Qed.

Lemma find_above_floor tabs b c :
  0 < budget tabs ->
  find tabs b c = collect (trimmed tabs) c.
Proof.
  unfold budget, trimmed, findTabsToCloseCandidates. intros H.
  rewrite (proj2 (Z.leb_gt _ _) H), splice_front_take by (unfold budget; lia).
  fold (budget tabs).
  destruct (take _ _) as [| t l] eqn:Hl; done.
Qed.

Lemma find_fst tabs b c :
  (find tabs b c).1
  = if budget tabs <=? 0 then [] else List.filter (evictable lockedIds) (trimmed tabs).
Proof.
  destruct (budget tabs <=? 0) eqn:Hb.
  - apply Z.leb_le in Hb. by rewrite find_floor.
  - apply Z.leb_gt in Hb. by rewrite find_above_floor, collectCandidates_fst.
Qed.

Lemma refreshes_find tabs b c : refreshes updatedAt c (find tabs b c).2.
Proof.
  destruct (Z.le_gt_cases (budget tabs) 0) as [Hb | Hb].
  - rewrite find_floor by done. apply refreshes_resetTabTimes.
  - rewrite find_above_floor by lia. apply refreshes_collectCandidates.
Qed.

Lemma elem_of_trimmed tab tabs :
  tab ∈ trimmed tabs ->
  tab ∈ tabs /\ shouldTabBeClosed tab = true /\ inToCut toCut tab = true.
Proof.
  unfold trimmed. intros Hin.
  apply (subseteq_take _ _) in Hin.
  apply list_elem_of_In, filter_In in Hin as [Hin Hcut].
  apply filter_In in Hin as [Hin Hclose].
  by rewrite list_elem_of_In.
Qed.

Lemma elem_of_find tab tabs b c :
  tab ∈ (find tabs b c).1 ->
  tab ∈ trimmed tabs /\ evictable lockedIds tab = true.
Proof.
  rewrite find_fst. destruct (budget tabs <=? 0); [by inversion 1 |].
  intros Hin. apply list_elem_of_In, filter_In in Hin as [Hin Hev].
  by rewrite list_elem_of_In.
Qed.

End CandidatesFacts.

(** ** The floor, the order of eviction, the locked ids *)

(** C1. A group whose filtered size minus [minTabs] is at most zero
    yields no candidate; when [resetIfNoCandidates] is set every tab of
    the filtered group that has an id is cached at the cycle's
    [updatedAt]; and [updatedAt], the third reading of the clock in a
    cycle started in [w], is not before [startTime], the first. *)
Theorem floor_protects_group (w : World) (toCut : gset (option Z)) (minTabs : Z)
    (lockedIds : gset Z) (shouldTabBeClosed : Tab -> bool) (tabs : list Tab)
    (resetIfNoCandidates : bool) (c : Cache) :
  clock_monotone (w_oracle w) ->
  budget minTabs shouldTabBeClosed tabs <= 0 ->
  let updatedAt := cycle_updatedAt w in
  let r := findTabsToCloseCandidates toCut minTabs lockedIds updatedAt
             shouldTabBeClosed tabs resetIfNoCandidates c in
  r.1 = []
  /\ (resetIfNoCandidates = true ->
      forall tab tabId,
        tab ∈ List.filter shouldTabBeClosed tabs -> tab_id tab = Some tabId ->
        cachedTime r.2 tabId = Some updatedAt)
  /\ cycle_startTime w <= updatedAt.
Proof.
  intros Hclock Hfloor updatedAt r. subst r.
  rewrite find_floor by done. split; [done |]. split.
  - intros -> tab tabId Hin Hid. by eapply resetTabTimes_refreshed.
  - apply Hclock. lia.
Qed.

Lemma floor_protects_group_witness :
  let r := findTabsToCloseCandidates (toCutSet sample_tabTimes 100) 3 ∅
             (cycle_updatedAt sample_world) (fun _ => true) sample_tabs true
             sample_cache in
  r.1 = []
  /\ (true = true ->
      forall tab tabId,
        tab ∈ List.filter (fun _ => true) sample_tabs -> tab_id tab = Some tabId ->
        cachedTime r.2 tabId = Some (cycle_updatedAt sample_world))
  /\ cycle_startTime sample_world <= cycle_updatedAt sample_world.
Proof.
  apply (floor_protects_group sample_world (toCutSet sample_tabTimes 100) 3 ∅
           (fun _ => true) sample_tabs true sample_cache).
  - intros i j Hij. cbn. unfold sample_clock. lia.
  - vm_compute. discriminate.
Defined.

(** C2, as the code has it. When the filtered group is larger than
    [minTabs], the candidates are the tabs with an unlocked id among the
    first [budget] past-cutoff tabs of the filtered group in the order
    of enumeration; no sorting by cached time takes place. When all of
    these have an unlocked id they are exactly the candidates, and at
    least [minTabs] tabs of the group are left. *)
Theorem candidates_first_in_enumeration_order (toCut : gset (option Z))
    (minTabs : Z) (lockedIds : gset Z) (updatedAt : Z)
    (shouldTabBeClosed : Tab -> bool) (tabs : list Tab)
    (resetIfNoCandidates : bool) (c : Cache) :
  0 < budget minTabs shouldTabBeClosed tabs ->
  let candidates := (findTabsToCloseCandidates toCut minTabs lockedIds updatedAt
                       shouldTabBeClosed tabs resetIfNoCandidates c).1 in
  let firstN := trimmed toCut minTabs shouldTabBeClosed tabs in
  candidates = List.filter (evictable lockedIds) firstN
  /\ ((forall tab, tab ∈ firstN -> evictable lockedIds tab = true) ->
      candidates = firstN)
  /\ minTabs <= Z.of_nat (length (List.filter shouldTabBeClosed tabs))
                - Z.of_nat (length candidates).
Proof.
  intros Hbudget candidates firstN. subst candidates firstN.
  rewrite find_fst. rewrite (proj2 (Z.leb_gt _ _) Hbudget).
  split; [done |]. split.
  - intros Hall. apply forallb_filter_id, forallb_forall.
    intros tab Hin. by apply Hall, list_elem_of_In.
  - pose proof (filter_length_le (evictable lockedIds)
                  (trimmed toCut minTabs shouldTabBeClosed tabs)) as Hle.
    unfold trimmed in Hle at 2. rewrite length_take in Hle.
    unfold budget in *. lia.
Qed.

Lemma candidates_first_in_enumeration_order_witness :
  (findTabsToCloseCandidates (toCutSet sample_tabTimes 100) 2 ∅ 5002
     (fun _ => true) sample_tabs true sample_cache).1
  = [sample_tab 1 7 "https://a.example/"].
Proof.
  destruct (candidates_first_in_enumeration_order (toCutSet sample_tabTimes 100) 2 ∅
              5002 (fun _ => true) sample_tabs true sample_cache) as (H & _ & _).
  - vm_compute. reflexivity.
  - rewrite H. vm_compute. reflexivity.
Defined.

(** C2 as the specification words it fails: with three tabs past the
    cutoff, cached at 50, 10 and 30, and [minTabs = 2], the code evicts
    the first tab (cached at 50), the specification the oldest (tab 2,
    cached at 10). *)
Lemma candidates_not_oldest_first :
  let toCut := toCutSet sample_tabTimes 100 in
  let time tab := default 0 (tab_id tab ≫= cachedTime sample_cache) in
  (findTabsToCloseCandidates toCut 2 ∅ 5002 (fun _ => true) sample_tabs true
     sample_cache).1
  = [sample_tab 1 7 "https://a.example/"]
  /\ spec_oldestFirst time toCut 2 (fun _ => true) sample_tabs
     = [sample_tab 2 7 "https://b.example/"]
  /\ (findTabsToCloseCandidates toCut 2 ∅ 5002 (fun _ => true) sample_tabs true
        sample_cache).1
     <> spec_oldestFirst time toCut 2 (fun _ => true) sample_tabs.
Proof. vm_compute. repeat split; discriminate. Qed.

(** The two scenarios of the specification: with [minTabs = 2] a window
    of two tabs past the cutoff loses none, a window of three loses one;
    and with no floor only the tab past the cutoff is selected. *)
Example floor_scenarios :
  let toCut := toCutSet sample_tabTimes 100 in
  (findTabsToCloseCandidates toCut 2 ∅ 5002 (fun _ => true) (take 2 sample_tabs)
     false sample_cache).1 = []
  /\ length (findTabsToCloseCandidates toCut 2 ∅ 5002 (fun _ => true) sample_tabs
               false sample_cache).1 = 1%nat
  /\ (findTabsToCloseCandidates (toCutSet sample_tabTimes 20) 0 ∅ 5002 (fun _ => true)
        sample_tabs false sample_cache).1 = [sample_tab 2 7 "https://b.example/"].
Proof. vm_compute. repeat split. Qed.

(** C3, as the code has it. With canonical keys, a tab id is in [toCut]
    exactly when its cached time is strictly below a non-zero cutoff;
    with a zero (falsy) cutoff the guard [!time] lets every cached id
    in. With a non-zero cutoff every candidate of a group has a cached
    time strictly below the cutoff. *)
Theorem toCut_exactly_past_cutoff (tabTimes : gmap string Z) (cutOff tabId : Z) :
  canonical_keys tabTimes ->
  (cutOff <> 0 ->
   (Some tabId ∈ toCutSet tabTimes cutOff
    <-> exists t, tabTimes !! JS.String_ tabId = Some t /\ t < cutOff))
  /\ (cutOff = 0 ->
      (Some tabId ∈ toCutSet tabTimes cutOff
       <-> is_Some (tabTimes !! JS.String_ tabId)))
  /\ (cutOff <> 0 ->
      forall minTabs lockedIds updatedAt shouldTabBeClosed tabs b c tab,
        tab ∈ (findTabsToCloseCandidates (toCutSet tabTimes cutOff) minTabs lockedIds
                 updatedAt shouldTabBeClosed tabs b c).1 ->
        exists i t, tab_id tab = Some i
                    /\ tabTimes !! JS.String_ i = Some t /\ t < cutOff).
Proof.
  intros Hcan. split; [| split].
  - intros Hne. rewrite elem_of_toCutSet_canonical by done.
    split; intros (t & Ht & Hp); exists t; (split; [done |]); [lia | by right].
  - intros ->. rewrite elem_of_toCutSet_canonical by done.
    split; [intros (t & Ht & _); by exists t | intros [t Ht]; exists t; auto].
  - intros Hne minTabs lockedIds updatedAt shouldTabBeClosed tabs b c tab Hin.
    apply elem_of_find in Hin as [Hin Hev].
    apply elem_of_trimmed in Hin as (_ & _ & Hcut).
    unfold evictable in Hev. unfold inToCut in Hcut.
    destruct (tab_id tab) as [i |]; [| discriminate].
    apply bool_decide_eq_true_1, elem_of_toCutSet_canonical in Hcut as (t & Ht & Hp);
      [| done].
    exists i, t. repeat split; [done |]. lia.
Qed.

Lemma toCut_exactly_past_cutoff_witness :
  Some 2 ∈ toCutSet sample_tabTimes 40
  <-> exists t, sample_tabTimes !! JS.String_ 2 = Some t /\ t < 40.
Proof.
  apply (toCut_exactly_past_cutoff sample_tabTimes 40 2).
  - unfold sample_tabTimes.
    change "1" with (JS.String_ 1). change "2" with (JS.String_ 2).
    change "3" with (JS.String_ 3).
    repeat apply canonical_keys_insert_String. apply canonical_keys_empty.
  - lia.
Defined.

(** C3 as the specification words it fails: with a zero cutoff every
    cached id is in [toCut], and all three sample tabs become
    candidates. *)
Lemma toCut_zero_cutoff_cuts_everything :
  toCutSet sample_tabTimes 0 <> ∅
  /\ (findTabsToCloseCandidates (toCutSet sample_tabTimes 0) 0 ∅ 5002
        (fun _ => true) sample_tabs false sample_cache).1 = sample_tabs.
Proof.
  split.
  - intros Hempty.
    assert (Some 1 ∈ toCutSet sample_tabTimes 0) as Hin.
    { apply elem_of_toCutSet. exists "1", 50. repeat split; auto. }
    rewrite Hempty in Hin. by apply not_elem_of_empty in Hin.
  - vm_compute. reflexivity.
Qed.

(** ** The archiver on no tabs *)

(** C10. [wrangleTabs] on an empty list returns at once: the persisted
    state it was given comes back as it was and nothing else changes
    (no tab removal is requested, no clock reading is taken). *)
Theorem wrangleTabs_empty_noop (storageLocalPersist : StorageLocalPersistState)
    (w : World) :
  wrangleTabs storageLocalPersist [] w = (Ok storageLocalPersist, w)
  /\ wrangleTabsAndPersist [] w = (Ok tt, w).
Proof. split; reflexivity. Qed.

(** ** The scheduler never stops *)

Lemma checkToClose_finally_schedules startTime w :
  exists w1 d,
    checkToClose_finally startTime w = (Ok tt, w1)
    /\ w_alarms w1 !! CHECK_TO_CLOSE_ALARM = Some d
    /\ last (w_log w1) = Some (AlarmCreate CHECK_TO_CLOSE_ALARM d)
    /\ w_startupComplete w1 = w_startupComplete w
    /\ w_cache w1 = w_cache w /\ w_storage w1 = w_storage w
    /\ w_browser w1 = w_browser w.
Proof.
  unfold checkToClose_finally, bind, Date_now.
  destruct (5000 <? _); cbn.
  all: eexists _, _; split; [reflexivity |].
  all: cbn; rewrite lookup_insert_eq, last_snoc; done.
Qed.

(** C8. Whatever the world [checkToClose] starts in (paused or not, and
    whichever platform calls fail) the invocation completes, and the
    last thing it does is to create the alarm for the next check. *)
Theorem checkToClose_always_reschedules (w : World) :
  exists w' d,
    checkToClose w = (Ok tt, w')
    /\ w_alarms w' !! CHECK_TO_CLOSE_ALARM = Some d
    /\ last (w_log w') = Some (AlarmCreate CHECK_TO_CLOSE_ALARM d).
Proof.
  unfold checkToClose, bind at 1. cbn [Date_now].
  set (w0 := set_oracle _ w). set (startTime := clock _ _).
  unfold try_finally, try_catch.
  destruct (checkToClose_try w0) as [[[] | e] w1].
  - destruct (checkToClose_finally_schedules startTime w1)
      as (w2 & d & -> & Ha & Hl & _). by exists w2, d.
  - change (console "error" "[checkToClose]" w1)
      with (Ok tt, emit (Console "error" "[checkToClose]") w1).
    cbn beta iota.
    destruct (checkToClose_finally_schedules startTime
                     (emit (Console "error" "[checkToClose]") w1))
      as (w2 & d & -> & Ha & Hl & _). by exists w2, d.
Qed.

(** ** The startup migration *)

Lemma migrateTabTimes_snoc tabTimes tabTimesByUrl l tab now :
  migrateTabTimes tabTimes tabTimesByUrl (l ++ [tab]) now
  = let '(nextTabTimes, migrated) := migrateTabTimes tabTimes tabTimesByUrl l now in
    match tab_id tab with
    | None => (nextTabTimes, migrated)
    | Some tabId =>
        match tabTimes !! JS.String_ tabId with
        | Some t => (<[JS.String_ tabId := t]> nextTabTimes, migrated)
        | None =>
            match (if truthy_string (tab_url tab)
                   then tabTimesByUrl !! default "" (tab_url tab)
                   else None) with
            | Some t => (<[JS.String_ tabId := t]> nextTabTimes, migrated + 1)
            | None => (<[JS.String_ tabId := now]> nextTabTimes, migrated)
            end
        end
    end.
Proof.
  unfold migrateTabTimes. rewrite foldl_app. cbn [foldl].
  by destruct (foldl _ _ l).
Qed.

Lemma truthy_url_lookup (tabTimesByUrl : gmap string Z) url :
  tabTimesByUrl !! "" = None ->
  (if truthy_string url then tabTimesByUrl !! default "" url else None)
  = url ≫= (fun u => tabTimesByUrl !! u).
Proof.
  intros Hempty. destruct url as [u |]; [| reflexivity]. cbn.
  destruct (String.eqb_spec u "") as [-> | Hne]; cbn; [by rewrite Hempty | done].
Qed.

Lemma migrateTabTimes_lookup tabTimes tabTimesByUrl now tabId url :
  tabTimesByUrl !! "" = None ->
  forall allTabs,
    (forall tab, tab ∈ allTabs -> tab_id tab = Some tabId -> tab_url tab = url) ->
    (exists tab, tab ∈ allTabs /\ tab_id tab = Some tabId) ->
    (migrateTabTimes tabTimes tabTimesByUrl allTabs now).1 !! JS.String_ tabId
    = Some match tabTimes !! JS.String_ tabId with
           | Some t => t
           | None => match url ≫= (fun u => tabTimesByUrl !! u) with
                     | Some t => t
                     | None => now
                     end
           end.
Proof.
  intros Hempty allTabs. induction allTabs as [| tab l IH] using rev_ind.
  - intros _ (tab & Hin & _). by inversion Hin.
  - intros Hurl Hex. rewrite migrateTabTimes_snoc.
    destruct (migrateTabTimes tabTimes tabTimesByUrl l now) as [next migrated] eqn:Hm.
    cbn [fst] in IH.
    destruct (decide (tab_id tab = Some tabId)) as [Hid | Hid].
    + rewrite Hid, truthy_url_lookup by done.
      rewrite (Hurl tab) by (done || apply elem_of_app; right; by apply list_elem_of_singleton).
      destruct (tabTimes !! JS.String_ tabId); cbn; [by rewrite lookup_insert_eq |].
      destruct (url ≫= _); cbn; by rewrite lookup_insert_eq.
    + assert ((exists tab0, tab0 ∈ l /\ tab_id tab0 = Some tabId)) as Hex'.
      { destruct Hex as (tab0 & Hin & Hid0). exists tab0. split; [| done].
        apply elem_of_app in Hin as [Hin | Hin]; [done |].
        apply list_elem_of_singleton in Hin. by subst. }
      assert (next !! JS.String_ tabId
              = Some match tabTimes !! JS.String_ tabId with
                     | Some t => t
                     | None => match url ≫= (fun u => tabTimesByUrl !! u) with
                               | Some t => t
                               | None => now
                               end
                     end) as Hnext.
      { apply IH; [| done]. intros tab0 Hin. apply Hurl, elem_of_app. by left. }
      destruct (tab_id tab) as [i |]; [| done].
      assert (JS.String_ i <> JS.String_ tabId) as Hne.
      { intros Heq. apply String_inj in Heq. congruence. }
      destruct (tabTimes !! JS.String_ i); cbn; [by rewrite lookup_insert_ne |].
      destruct (if truthy_string (tab_url tab) then _ else _); cbn;
        by rewrite lookup_insert_ne.
Qed.

Lemma migrateTabTimes_canonical tabTimes tabTimesByUrl now allTabs :
  canonical_keys (migrateTabTimes tabTimes tabTimesByUrl allTabs now).1.
Proof.
  induction allTabs as [| tab l IH] using rev_ind; [apply canonical_keys_empty |].
  rewrite migrateTabTimes_snoc.
  destruct (migrateTabTimes tabTimes tabTimesByUrl l now) as [next migrated].
  cbn [fst] in IH.
  destruct (tab_id tab) as [i |]; [| done].
  destruct (tabTimes !! JS.String_ i); cbn; [by apply canonical_keys_insert_String |].
  destruct (if truthy_string (tab_url tab) then _ else _); cbn;
    by apply canonical_keys_insert_String.
Qed.

(** *** Running the startup code when no platform call fails *)

#[local] Arguments migrateTabTimes : simpl never.
#[local] Arguments evaluate : simpl never.
#[local] Arguments getTabsOlderThan : simpl never.
#[local] Arguments findTabsToCloseCandidates : simpl never.
#[local] Arguments candidatesPerWindow : simpl never.
#[local] Arguments refreshActiveTabs : simpl never.
#[local] Arguments refreshAudibleTabs : simpl never.
#[local] Arguments cleanUpTabTimes : simpl never.
#[local] Arguments cleanUpTabTimesByUrl : simpl never.
#[local] Arguments recomputeTabTimes : simpl never.
#[local] Arguments createShouldTabBeClosedFilter : simpl never.
#[local] Arguments wrangleLoop : simpl never.

Lemma startup_locked_run (w : World) :
  faults (w_oracle w) = [] ->
  let s := w_storage w in
  let next := (migrateTabTimes (st_tabTimes s) (st_tabTimesByUrl s)
                 (br_tabs (w_browser w)) (reading w 0)).1 in
  exists w1,
    startup_locked w = (Ok tt, w1)
    /\ w_cache w1 = mkCache next (st_tabTimesByUrl s) true
    /\ w_storage w1 = mkStorage next (st_tabTimesByUrl s) (st_persistLocal s) (st_paused s)
    /\ w_startupComplete w1 = w_startupComplete w
    /\ faults (w_oracle w1) = [].
Proof.
  destruct w as [[clk tk fl hn] b st cfg c sc al lg]. cbn. intros ->.
  unfold reading, startup_locked, bind. cbn. rewrite Nat.add_0_r.
  destruct (migrateTabTimes _ _ _ _) as [next migrated]. cbn.
  destruct (0 <? migrated); cbn; eexists; repeat split.
Qed.

(** C5. For every live tab with an id the migration yields the stored
    time of the id if there is one, else the stored time of the tab's
    URL if there is one, else [now], the reading of the clock taken
    during the migration. When no platform call fails, the reconciled map
    is in storage and the cache is initialized with it in the world [w1]
    the critical section leaves, in which [startupComplete] is still
    what it was; [startup] goes on from [w1] by setting the flag. *)
Theorem startup_migration_reconciles (w : World) :
  faults (w_oracle w) = [] ->
  unique_ids (br_tabs (w_browser w)) ->
  st_tabTimesByUrl (w_storage w) !! "" = None ->
  let tabTimes := st_tabTimes (w_storage w) in
  let tabTimesByUrl := st_tabTimesByUrl (w_storage w) in
  let now := reading w 0 in
  exists nextTabTimes w1,
    (forall tab tabId,
       tab ∈ br_tabs (w_browser w) -> tab_id tab = Some tabId ->
       nextTabTimes !! JS.String_ tabId
       = Some (reconciledTime tabTimes tabTimesByUrl now tab tabId))
    /\ ASYNC_LOCK_acquire ["local.tabTimes"] startup_locked w = (Ok tt, w1)
    /\ st_tabTimes (w_storage w1) = nextTabTimes
    /\ memoryTabTimes (w_cache w1) = nextTabTimes
    /\ isInitialized (w_cache w1) = true
    /\ w_startupComplete w1 = w_startupComplete w
    /\ startup_migrate w = (modify (set_startupComplete true) ;;; scheduleCheckToClose) w1
    /\ w_startupComplete (startup_migrate w).2 = true.
Proof.
  intros Hfaults Hunique Hempty tabTimes tabTimesByUrl now.
  destruct (startup_locked_run w Hfaults) as (w1 & Hrun & Hcache & Hstorage & Hflag & _).
  eexists _, w1. split; [| split; [exact Hrun |]].
  - intros tab tabId Hin Hid. unfold reconciledTime.
    apply migrateTabTimes_lookup; [done | | by exists tab].
    intros tab' Hin' Hid'. f_equal. symmetry. apply Hunique; [done | done | | congruence].
    by rewrite Hid.
  - rewrite Hstorage, Hcache. repeat split; [done |..].
    + unfold startup_migrate, ASYNC_LOCK_acquire, bind at 1. by rewrite Hrun.
    + unfold startup_migrate, ASYNC_LOCK_acquire, bind at 1. by rewrite Hrun.
Qed.

(** ** The archiver *)

Lemma wrangleLoop_cons find tab rest p ids w :
  wrangleLoop find (tab :: rest) p ids w
  = match find (savedTabs p) tab with
    | Ok pos =>
        wrangleLoop find rest
          (mkPersist
             (set_closedAt (reading w 0) tab
                :: match pos with
                   | Some q => JS.splice_one q (savedTabs p)
                   | None => savedTabs p
                   end)
             (totalTabsWrangled p + 1) (otherFields p))
          (match tab_id tab with Some tabId => ids ++ [tabId] | None => ids end)
          (tick w)
    | Throw e => (Throw e, w)
    end.
Proof.
  unfold wrangleLoop at 1; fold wrangleLoop. unfold bind at 1, lift.
  destruct (find (savedTabs p) tab) as [pos | e]; [| done].
  unfold bind, Date_now, reading, tick. by rewrite Nat.add_0_r.
Qed.

Lemma StronglySorted_sublist {A} (R : relation A) (l1 l2 : list A) :
  l1 `sublist_of` l2 -> StronglySorted R l2 -> StronglySorted R l1.
Proof.
  induction 1 as [| x l1 l2 Hsub IH | x l1 l2 Hsub IH]; [done | |].
  - rewrite !StronglySorted_cons. intros [Hall Hs]. split; [| auto].
    rewrite Forall_forall in *. intros y Hy. eapply Hall, elem_of_sublist; eauto.
  - rewrite StronglySorted_cons. intros [_ Hs]. auto.
Qed.

Lemma splice_one_sublist {A} (pos : nat) (l : list A) :
  JS.splice_one pos l `sublist_of` l.
Proof.
  unfold JS.splice_one. rewrite <- (take_drop pos l) at 3.
  apply sublist_app; [done |].
  replace (drop (S pos) l) with (drop 1 (drop pos l)) by (rewrite drop_drop; f_equal; lia).
  apply sublist_drop.
Qed.

(** What holds of the archive before each iteration: it is ordered
    newest first and nothing in it is stamped later than the next
    reading of the clock. *)
Lemma wrangleLoop_newestFirst find tabs : forall p ids w p' ids' w',
  clock_monotone (w_oracle w) ->
  wrangleLoop find tabs p ids w = (Ok (p', ids'), w') ->
  newestFirst (savedTabs p) ->
  Forall (fun x => closedTime x <= reading w 0) (savedTabs p) ->
  newestFirst (savedTabs p').
Proof.
  induction tabs as [| tab rest IH]; intros p ids w p' ids' w' Hclock Hrun Hsorted Hbound.
  - cbn in Hrun. by inversion Hrun; subst.
  - rewrite wrangleLoop_cons in Hrun.
    destruct (find (savedTabs p) tab) as [pos | e]; [| discriminate].
    set (saved := match pos with Some q => JS.splice_one q (savedTabs p)
                             | None => savedTabs p end) in *.
    assert (saved `sublist_of` savedTabs p) as Hsub.
    { subst saved. destruct pos; [apply splice_one_sublist | done]. }
    eapply IH in Hrun; [done | done | |].
    + cbn. apply StronglySorted_cons. split.
      * rewrite Forall_forall in *. intros x Hx. unfold newer. cbn.
        eapply Hbound, elem_of_sublist; eauto.
      * by eapply StronglySorted_sublist.
    + cbn. apply Forall_cons. split.
      * unfold closedTime, reading. cbn. apply Hclock. lia.
      * rewrite Forall_forall in *. intros x Hx.
        etrans; [eapply Hbound, elem_of_sublist; eauto |].
        unfold reading. cbn. apply Hclock. lia.
Qed.

Lemma wrangleLoop_settings find tabs : forall p ids w r w',
  wrangleLoop find tabs p ids w = (r, w') ->
  w_settings w' = w_settings w /\ w_log w' = w_log w
  /\ w_browser w' = w_browser w /\ w_storage w' = w_storage w.
Proof.
  induction tabs as [| tab rest IH]; intros p ids w r w' Hrun.
  - cbn in Hrun. by inversion Hrun; subst.
  - rewrite wrangleLoop_cons in Hrun.
    destruct (find (savedTabs p) tab) as [pos | e].
    + by apply IH in Hrun.
    + by inversion Hrun; subst.
Qed.

(** Without the hostname comparison nothing in the loop can throw. *)
Lemma wrangleLoop_completes hostname wrangleOption tabs :
  wrangleOption <> "hostnameAndTitleMatch" ->
  forall p ids w, exists p' ids' w',
    wrangleLoop (getURLPositionFilterByWrangleOption hostname wrangleOption)
      tabs p ids w = (Ok (p', ids'), w').
Proof.
  intros Hopt. unfold getURLPositionFilterByWrangleOption.
  rewrite (proj2 (String.eqb_neq _ _) Hopt).
  induction tabs as [| tab rest IH]; intros p ids w; [by eexists _, _, _ |].
  rewrite wrangleLoop_cons.
  destruct (String.eqb wrangleOption "exactURLMatch"); apply IH.
Qed.

(** C7. When the archive holds more than [maxTabs = N] entries after the
    loop of [wrangleTabs], the resulting archive is its first [N]
    entries: exactly [N] of them, the trimmed (and logged) ones being the
    tail. With a clock that never goes back and an archive that was
    newest first and not stamped in the future, the archive after the
    loop is newest first, so that no trimmed entry was closed after a
    kept one. *)
Theorem archive_trimmed_to_maxTabs (w w1 : World)
    (p pfull : StorageLocalPersistState) (tabs : list Tab) (ids : list Z) :
  let N := maxTabs (w_settings w) in
  tabs <> [] ->
  0 <= N ->
  wrangleLoop
    (getURLPositionFilterByWrangleOption (hostname (w_oracle w))
       (wrangleOption (w_settings w))) tabs p [] w = (Ok (pfull, ids), w1) ->
  N < Z.of_nat (length (savedTabs pfull)) ->
  exists p' w',
    wrangleTabs p tabs w = (Ok p', w')
    /\ savedTabs p' = take (Z.to_nat N) (savedTabs pfull)
    /\ Z.of_nat (length (savedTabs p')) = N
    /\ savedTabs pfull = savedTabs p' ++ drop (Z.to_nat N) (savedTabs pfull)
    /\ ConsoleUrls (tab_url <$> drop (Z.to_nat N) (savedTabs pfull)) ∈ w_log w'
    /\ (clock_monotone (w_oracle w) ->
        newestFirst (savedTabs p) ->
        Forall (fun x => closedTime x <= reading w 0) (savedTabs p) ->
        newestFirst (savedTabs pfull)
        /\ forall kept trimmed,
             kept ∈ savedTabs p' ->
             trimmed ∈ drop (Z.to_nat N) (savedTabs pfull) ->
             closedTime trimmed <= closedTime kept).
Proof.
  intros N Hne HN Hloop Hlen.
  destruct (wrangleLoop_settings _ _ _ _ _ _ _ Hloop) as (Hcfg & Hlog & _ & _).
  assert (N = maxTabs (w_settings w)) as HNeq by done.
  unfold wrangleTabs.
  destruct tabs as [| tab rest]; [done |]. cbn [length Nat.eqb].
  unfold bind at 1, gets. unfold bind at 1. unfold bind at 1. rewrite Hloop.
  set (full := savedTabs pfull) in *.
  assert (JS.splice_from N full = (drop (Z.to_nat N) full, take (Z.to_nat N) full)) as Hsplice.
  { unfold JS.splice_from. rewrite (proj2 (Z.ltb_ge _ _) HN).
    by rewrite Z.min_l by lia. }
  assert ((JS.splice_front N (take (Z.to_nat N) full)).1 = take (Z.to_nat N) full) as Hfront.
  { rewrite splice_front_take by done. rewrite take_take. f_equal. lia. }
  assert (exists w2, (if (0 <? length ids)%nat then tabs_remove ids else ret tt) w1
                     = (Ok tt, w2) /\ w_log w2 = w_log w2) as (w2 & Hrm & _).
  { destruct (0 <? length ids)%nat; eexists; split; reflexivity. }
  unfold bind at 1. rewrite Hrm.
  rewrite <- HNeq, (proj2 (Z.ltb_lt _ _)) by (fold full; lia).
  fold full. rewrite Hsplice.
  eexists _, _. split; [unfold bind, console, modify; reflexivity |].
  cbn [savedTabs]. rewrite Hfront.
  split; [done |]. split; [rewrite length_take; lia |].
  split; [by rewrite take_drop |].
  split; [cbn; apply elem_of_app; right; by apply list_elem_of_singleton |].
  intros Hclock Hsorted Hbound.
  assert (newestFirst full) as Hfull.
  { eapply wrangleLoop_newestFirst; eauto. }
  split; [done |]. intros kept trimmed Hkept Htrim.
  rewrite <- (take_drop (Z.to_nat N) full) in Hfull.
  by apply (StronglySorted_app_1_elem_of _ _ _ kept trimmed) in Hfull.
Qed.

Lemma archive_trimmed_to_maxTabs_witness :
  exists p' w',
    wrangleTabs (mkPersist [] 0 ∅) sample_tabs sample_world = (Ok p', w')
    /\ savedTabs p'
       = [set_closedAt 5002 (sample_tab 3 7 "https://c.example/");
          set_closedAt 5001 (sample_tab 2 7 "https://b.example/")].
Proof.
  destruct (archive_trimmed_to_maxTabs sample_world (tick (tick (tick sample_world)))
              (mkPersist [] 0 ∅)
              (mkPersist [set_closedAt 5002 (sample_tab 3 7 "https://c.example/");
                          set_closedAt 5001 (sample_tab 2 7 "https://b.example/");
                          set_closedAt 5000 (sample_tab 1 7 "https://a.example/")] 3 ∅)
              sample_tabs [1; 2; 3])
    as (p' & w' & Hrun & Hsaved & _).
  - discriminate.
  - cbn. lia.
  - vm_compute. reflexivity.
  - cbn. lia.
  - exists p', w'. split; [exact Hrun |]. rewrite Hsaved. reflexivity.
Defined.

Lemma startup_migration_reconciles_witness :
  exists nextTabTimes w1,
    (forall tab tabId,
       tab ∈ sample_tabs -> tab_id tab = Some tabId ->
       nextTabTimes !! JS.String_ tabId
       = Some (reconciledTime (<["1" := 50]> ∅) (<["https://b.example/" := 10]> ∅)
                 5000 tab tabId))
    /\ ASYNC_LOCK_acquire ["local.tabTimes"] startup_locked sample_restart_world
       = (Ok tt, w1)
    /\ st_tabTimes (w_storage w1) = nextTabTimes
    /\ memoryTabTimes (w_cache w1) = nextTabTimes
    /\ isInitialized (w_cache w1) = true
    /\ w_startupComplete w1 = false
    /\ startup_migrate sample_restart_world
       = (modify (set_startupComplete true) ;;; scheduleCheckToClose) w1
    /\ w_startupComplete (startup_migrate sample_restart_world).2 = true.
Proof.
  apply (startup_migration_reconciles sample_restart_world).
  - reflexivity.
  - intros t t' Ht Ht' _ Heq. cbn in Ht, Ht'. unfold sample_tabs in *.
    repeat (apply elem_of_cons in Ht as [-> | Ht]);
      repeat (apply elem_of_cons in Ht' as [-> | Ht']);
      try reflexivity; try discriminate; by inversion Ht || by inversion Ht'.
  - reflexivity.
Defined.

(** Whatever fails, [startup] only sets the flag once the cache is
    initialized with the reconciled map: a failing read ends [startup]
    before the flag, a failing write of the maps is logged and leaves
    the cache as initialized. *)
Lemma startup_flag_only_after_initialization (w : World) :
  w_startupComplete w = false ->
  w_startupComplete (startup_migrate w).2 = true ->
  let s := w_storage w in
  isInitialized (w_cache (startup_migrate w).2) = true
  /\ memoryTabTimes (w_cache (startup_migrate w).2)
     = (migrateTabTimes (st_tabTimes s) (st_tabTimesByUrl s)
          (br_tabs (w_browser w)) (reading w 0)).1.
Proof.
  destruct w as [[clk tk fl hn] b st cfg c sc al lg]. cbn. intros ->.
  unfold reading, startup_migrate, ASYNC_LOCK_acquire, startup_locked, bind. cbn.
  rewrite Nat.add_0_r.
  destruct fl as [| [] [| [] [| [] rest]]]; cbn; try discriminate.
  all: destruct (migrateTabTimes _ _ _ _) as [next migrated]; cbn.
  all: destruct (0 <? migrated); cbn; done.
Qed.

(** The three cases of the migration on the sample: kept by id, carried
    over by URL, started afresh. *)
Example startup_migration_sample :
  let w' := (startup_migrate sample_restart_world).2 in
  cachedTime (w_cache w') 1 = Some 50
  /\ cachedTime (w_cache w') 2 = Some 10
  /\ cachedTime (w_cache w') 3 = Some 5000
  /\ st_tabTimes (w_storage w') = memoryTabTimes (w_cache w').
Proof. vm_compute. repeat split. Qed.

(** ** Tabs that share a URL *)

Lemma TimerVariant_recomputeTabTimes_snoc l tab updatedAt tabTimes :
  TimerVariant.recomputeTabTimes (l ++ [tab]) updatedAt tabTimes
  = let '(nextTabTimes, nextTabTimesByUrl) :=
      TimerVariant.recomputeTabTimes l updatedAt tabTimes in
    match tab_id tab with
    | Some tabId =>
        let time := JS.or_default (tabTimes !! JS.String_ tabId) updatedAt in
        let nextTabTimes := <[JS.String_ tabId := time]> nextTabTimes in
        if truthy_string (tab_url tab)
        then
          let url := default "" (tab_url tab) in
          match nextTabTimesByUrl !! url with
          | Some existing =>
              if time <? existing
              then (nextTabTimes, <[url := time]> nextTabTimesByUrl)
              else (nextTabTimes, nextTabTimesByUrl)
          | None => (nextTabTimes, <[url := time]> nextTabTimesByUrl)
          end
        else (nextTabTimes, nextTabTimesByUrl)
    | None => (nextTabTimes, nextTabTimesByUrl)
    end.
Proof.
  unfold TimerVariant.recomputeTabTimes. rewrite foldl_app. cbn [foldl].
  by destruct (foldl _ _ l).
Qed.

(** The timer-based variant keeps, for each URL, the oldest of the times
    of the live tabs that have it. *)
Lemma TimerVariant_keeps_oldest updatedAt tabTimes url :
  url <> "" ->
  forall allTabs,
    match (TimerVariant.recomputeTabTimes allTabs updatedAt tabTimes).2 !! url with
    | Some t =>
        (exists tab, tab ∈ allTabs /\ filedUnder url tab
                     /\ recomputedTime tabTimes updatedAt tab = t)
        /\ (forall tab, tab ∈ allTabs -> filedUnder url tab ->
                        t <= recomputedTime tabTimes updatedAt tab)
    | None => forall tab, tab ∈ allTabs -> ~ filedUnder url tab
    end.
Proof.
  intros Hurl allTabs. induction allTabs as [| tab l IH] using rev_ind.
  - cbn. rewrite lookup_empty. intros tab Hin. by inversion Hin.
  - rewrite TimerVariant_recomputeTabTimes_snoc.
    destruct (TimerVariant.recomputeTabTimes l updatedAt tabTimes) as [next byUrl].
    cbn [snd] in IH.
    assert (forall t,
              (exists x, x ∈ l /\ filedUnder url x /\ recomputedTime tabTimes updatedAt x = t) ->
              exists x, x ∈ l ++ [tab] /\ filedUnder url x
                        /\ recomputedTime tabTimes updatedAt x = t) as Hex.
    { intros t (x & Hx & H). exists x. split; [apply elem_of_app; by left | done]. }
    assert (~ filedUnder url tab ->
            match byUrl !! url with
            | Some t =>
                (exists x, x ∈ l ++ [tab] /\ filedUnder url x
                           /\ recomputedTime tabTimes updatedAt x = t)
                /\ (forall x, x ∈ l ++ [tab] -> filedUnder url x ->
                              t <= recomputedTime tabTimes updatedAt x)
            | None => forall x, x ∈ l ++ [tab] -> ~ filedUnder url x
            end) as Hskip.
    { intros Hno. destruct (byUrl !! url) as [t |].
      - destruct IH as [IH1 IH2]. split; [auto |].
        intros x Hx. apply elem_of_app in Hx as [Hx | Hx]; [auto |].
        apply list_elem_of_singleton in Hx. by subst.
      - intros x Hx. apply elem_of_app in Hx as [Hx | Hx]; [auto |].
        apply list_elem_of_singleton in Hx. by subst. }
    destruct (tab_id tab) as [tabId |] eqn:Hid; cbn [snd];
      [| apply Hskip; intros [[? ?] _]; congruence].
    destruct (tab_url tab) as [u |] eqn:Hu; cbn [truthy_string];
      [| cbn [snd]; apply Hskip; intros [_ ?]; congruence].
    destruct (String.eqb_spec u "") as [-> | Hne]; cbn [negb snd];
      [apply Hskip; intros [_ ?]; congruence |].
    change (default "" (Some u)) with u.
    assert (recomputedTime tabTimes updatedAt tab
            = JS.or_default (tabTimes !! JS.String_ tabId) updatedAt) as Htime.
    { unfold recomputedTime. by rewrite Hid. }
    set (time := JS.or_default (tabTimes !! JS.String_ tabId) updatedAt) in *.
    destruct (decide (u = url)) as [-> | Hneq].
    + assert (filedUnder url tab) as Hfiled by (split; [by rewrite Hid | done]).
      assert (exists x, x ∈ l ++ [tab] /\ filedUnder url x
                        /\ recomputedTime tabTimes updatedAt x = time) as Hnew.
      { exists tab. split; [apply elem_of_app; right; by apply list_elem_of_singleton | done]. }
      destruct (byUrl !! url) as [existing |] eqn:Hex0.
      * destruct IH as [IH1 IH2]. destruct (time <? existing) eqn:Hlt; cbn [snd].
        -- rewrite lookup_insert_eq. split; [done |].
           intros x Hx Hf. apply elem_of_app in Hx as [Hx | Hx].
           ++ specialize (IH2 x Hx Hf). lia.
           ++ apply list_elem_of_singleton in Hx. subst x. rewrite Htime. lia.
        -- rewrite Hex0. split; [auto |].
           intros x Hx Hf. apply elem_of_app in Hx as [Hx | Hx]; [auto |].
           apply list_elem_of_singleton in Hx. subst x. rewrite Htime. lia.
      * cbn [snd]. rewrite lookup_insert_eq. split; [done |].
        intros x Hx Hf. apply elem_of_app in Hx as [Hx | Hx].
        -- by destruct (IH x Hx).
        -- apply list_elem_of_singleton in Hx. subst x. rewrite Htime. lia.
    + assert (~ filedUnder url tab) as Hno by (intros [_ ?]; congruence).
      destruct (byUrl !! u) as [existing |]; [destruct (time <? existing) |];
        cbn [snd]; rewrite ?lookup_insert_ne by done; by apply Hskip.
Qed.

(** C6 on the alarm-based variant: two live tabs share a URL and are
    cached at 4500 and 4800; after the cycle the persisted URL map holds
    4800, the time of the tab enumerated last, where the timer-based
    variant of the same loop keeps 4500. *)
Theorem alarm_variant_duplicate_url_keeps_last :
  let w' := (checkToClose duplicate_url_world).2 in
  cachedTime (w_cache w') 1 = Some 4500
  /\ cachedTime (w_cache w') 2 = Some 4800
  /\ st_tabTimesByUrl (w_storage w') !! duplicate_url = Some 4800
  /\ (TimerVariant.recomputeTabTimes duplicate_url_tabs 5002
        (memoryTabTimes (w_cache duplicate_url_world))).2 !! duplicate_url
     = Some 4500.
Proof. vm_compute. repeat split. Qed.

(** ** Running the evaluation twice *)

Lemma filter_filter_andb {A} (f g : A -> bool) (l : list A) :
  List.filter f (List.filter g l) = List.filter (fun x => f x && g x) l.
Proof.
  induction l as [| x l IH]; [done |]. cbn.
  destruct (g x) eqn:Hg; cbn; rewrite ?andb_true_r, ?andb_false_r.
  - destruct (f x); by rewrite IH.
  - done.
Qed.

Lemma filter_length_mono {A} (f g : A -> bool) (l : list A) :
  (forall x, In x l -> f x = true -> g x = true) ->
  (length (List.filter f l) <= length (List.filter g l))%nat.
Proof.
  induction l as [| x l IH]; intros Himp; [done |]. cbn.
  assert (length (List.filter f l) <= length (List.filter g l))%nat as Hle.
  { apply IH. intros y Hy. apply Himp. by right. }
  destruct (f x) eqn:Hf.
  - rewrite (Himp x (or_introl eq_refl) Hf). cbn. lia.
  - destruct (g x); cbn; lia.
Qed.

Lemma filter_length_split {A} (f : A -> bool) (l : list A) :
  (length (List.filter f l) + length (List.filter (fun x => negb (f x)) l)
   = length l)%nat.
Proof.
  induction l as [| x l IH]; [done |]. cbn. destruct (f x); cbn; lia.
Qed.

Lemma filter_take_length_le {A} (f : A -> bool) (n : nat) (l : list A) :
  (length (List.filter f (take n l)) <= length (List.filter f l))%nat.
Proof.
  rewrite <- (take_drop n l) at 2. rewrite List.filter_app, List.length_app. lia.
Qed.

(** The counting argument behind idempotence, on one group. [F] is the
    filtered group of the first run, [P1] and [P2] say which tabs are
    past the cutoff in the first and in the second run, [keep] which
    tabs are still alive in the second run. When every tab with an id
    among the first [B] past-cutoff tabs was closed, the first budget of
    the second run only holds tabs without an id. *)
Lemma second_pass_only_idless {A} (F : list A) (P1 P2 keep hasId : A -> bool)
    (minTabs : Z) :
  (forall x, hasId x = false -> keep x = true /\ P2 x = true) ->
  (forall x, P2 x = true -> P1 x = true) ->
  let B := Z.of_nat (length F) - minTabs in
  (forall x, In x (take (Z.to_nat B) (List.filter P1 F)) ->
             hasId x = true -> keep x = false) ->
  let F2 := List.filter keep F in
  let B2 := Z.of_nat (length F2) - minTabs in
  forall x, In x (take (Z.to_nat B2) (List.filter P2 F2)) -> hasId x = false.
Proof.
  intros Hidless HP B Hclosed F2 B2.
  set (Q := fun x => P2 x && keep x).
  set (C := List.filter P1 F). set (T := take (Z.to_nat B) C) in *.
  assert (List.filter P2 F2 = List.filter Q T ++ List.filter Q (drop (Z.to_nat B) C))
    as HC2.
  { subst F2 T. rewrite <- List.filter_app, take_drop. subst C.
    rewrite !filter_filter_andb. apply filter_ext_in. intros x _. subst Q. cbn.
    destruct (P2 x) eqn:H2; [| done]. by rewrite (HP x H2), andb_true_r. }
  assert (forall x, In x (List.filter Q T) -> hasId x = false) as HQT.
  { intros x Hx. apply filter_In in Hx as [Hx HQ]. subst Q. cbn in HQ.
    apply andb_prop in HQ as [_ Hkeep].
    destruct (hasId x) eqn:Hid; [| done].
    rewrite (Hclosed x Hx Hid) in Hkeep. discriminate. }
  intros x Hx. rewrite HC2 in Hx.
  destruct (Nat.le_gt_cases (length C) (Z.to_nat B)) as [Hshort | Hlong].
  - rewrite (drop_ge C) in Hx by done. cbn in Hx. rewrite app_nil_r in Hx.
    apply HQT. apply list_elem_of_In. eapply subseteq_take.
    by apply list_elem_of_In.
  - assert (length T = Z.to_nat B) as HT.
    { subst T. rewrite length_take. lia. }
    assert (Z.to_nat B2 <= length (List.filter Q T))%nat as Hfits.
    { pose proof (filter_length_split hasId T) as Hsplit.
      pose proof (filter_length_split keep F) as HsplitF.
      assert (length (List.filter (fun x => negb (hasId x)) T)
              <= length (List.filter Q T))%nat as H1.
      { apply filter_length_mono. intros y _ Hy. apply negb_true_iff in Hy.
        destruct (Hidless y Hy) as [Hk H2]. subst Q. cbn. by rewrite Hk, H2. }
      assert (length (List.filter hasId T)
              <= length (List.filter (fun x => negb (keep x)) T))%nat as H2.
      { apply filter_length_mono. intros y Hy Hid. by rewrite (Hclosed y Hy Hid). }
      assert (length (List.filter (fun x => negb (keep x)) T)
              <= length (List.filter (fun x => negb (keep x)) F))%nat as H3.
      { subst T C. etrans; [apply filter_take_length_le |].
        rewrite filter_filter_andb. apply filter_length_mono.
        intros y _ Hy. by apply andb_prop in Hy as [Hy _]. }
      subst B2 F2 B. lia. }
    rewrite take_app_le in Hx by done.
    apply HQT. apply list_elem_of_In. eapply subseteq_take.
    by apply list_elem_of_In.
Qed.

Lemma filter_all_false {A} (f : A -> bool) (l : list A) :
  (forall x, In x l -> f x = false) -> List.filter f l = [].
Proof.
  induction l as [| x l IH]; intros Hall; [done |]. cbn.
  rewrite (Hall x (or_introl eq_refl)). apply IH. intros y Hy. apply Hall. by right.
Qed.

Lemma find_fst_groupCandidates toCut minTabs lockedIds updatedAt shouldTabBeClosed
    tabs b c :
  (findTabsToCloseCandidates toCut minTabs lockedIds updatedAt shouldTabBeClosed
     tabs b c).1
  = groupCandidates toCut minTabs lockedIds shouldTabBeClosed tabs.
Proof. apply find_fst. Qed.

Lemma closeTabs_filter (f : Tab -> bool) (ids : list Z) (tabs : list Tab) :
  List.filter f (closeTabs ids tabs) = closeTabs ids (List.filter f tabs).
Proof.
  unfold closeTabs. rewrite !filter_filter_andb.
  apply filter_ext_in. intros x _. apply andb_comm.
Qed.

(** One group, second run: the tabs the first run selected are gone,
    nothing new is past the cutoff, and the filter excludes the locked
    ids; then no candidate is left. *)
Lemma groupCandidates_second_pass (toCut1 toCut2 : gset (option Z)) (minTabs : Z)
    (lockedIds : gset Z) (shouldTabBeClosed : Tab -> bool) (tabs : list Tab)
    (closed : list Z) :
  (forall tab i, shouldTabBeClosed tab = true -> tab_id tab = Some i -> i ∉ lockedIds) ->
  (forall i, Some i ∈ toCut2 -> Some i ∈ toCut1) ->
  (forall tab i,
     tab ∈ groupCandidates toCut1 minTabs lockedIds shouldTabBeClosed tabs ->
     tab_id tab = Some i -> i ∈ closed) ->
  groupCandidates toCut2 minTabs lockedIds shouldTabBeClosed (closeTabs closed tabs) = [].
Proof.
  intros Hfilter Hsub Hclosed. unfold groupCandidates at 1.
  destruct (budget _ _ _ <=? 0); [done |].
  apply filter_all_false. intros x Hx.
  set (keep := fun t : Tab => match tab_id t with
                              | Some i => negb (bool_decide (i ∈ closed))
                              | None => true
                              end).
  set (hasId := fun t : Tab => bool_decide (is_Some (tab_id t))).
  assert (hasId x = false) as Hno.
  { unfold trimmed, budget in Hx. rewrite closeTabs_filter in Hx.
    revert Hx.
    apply (second_pass_only_idless (List.filter shouldTabBeClosed tabs)
             (inToCut toCut1) (inToCut toCut2) keep hasId minTabs).
    - intros t Ht. subst hasId keep. cbn in *. unfold inToCut.
      destruct (tab_id t); [| done].
      apply bool_decide_eq_false in Ht. destruct Ht. by eexists.
    - intros t. unfold inToCut. destruct (tab_id t) as [i |]; [| done].
      intros Hin. apply bool_decide_eq_true. apply Hsub.
      by apply bool_decide_eq_true in Hin.
    - intros t Ht Hid. subst hasId keep. cbn in *.
      apply bool_decide_eq_true in Hid as [i Hi]. rewrite Hi.
      apply negb_false_iff, bool_decide_eq_true.
      apply (Hclosed t i); [| done].
      unfold groupCandidates.
      destruct (budget minTabs shouldTabBeClosed tabs <=? 0) eqn:Hb.
      + apply Z.leb_le in Hb. unfold budget in Hb.
        replace (Z.to_nat _) with 0%nat in Ht by lia. by destruct Ht.
      + apply list_elem_of_In, filter_In. split; [exact Ht |].
        unfold evictable. rewrite Hi. apply negb_true_iff, bool_decide_eq_false.
        apply (Hfilter t i); [| done].
        apply list_elem_of_In in Ht.
        apply (subseteq_take _ _) in Ht.
        apply list_elem_of_In, filter_In in Ht as [Ht _].
        by apply filter_In in Ht as [_ Ht]. }
  unfold evictable. subst hasId. cbn in Hno.
  apply bool_decide_eq_false in Hno.
  destruct (tab_id x); [destruct Hno; by eexists | done].
Qed.

(** The filter built from the settings excludes the locked ids. *)
Lemma createShouldTabBeClosedFilter_unlocked settings tab i :
  createShouldTabBeClosedFilter settings tab = true ->
  tab_id tab = Some i ->
  i ∉ (list_to_set (lockedIds settings) : gset Z).
Proof.
  unfold createShouldTabBeClosedFilter, isTabLocked. intros Hf Hid Hin.
  rewrite Hid in Hf. cbn in Hf.
  rewrite (bool_decide_eq_true_2 _ Hin) in Hf.
  cbn in Hf. by rewrite !orb_true_r in Hf.
Qed.

(** *** The groups of the windows *)

Lemma tabsByWindowId_lookup allTabs wid :
  default [] (tabsByWindowId allTabs !! wid) = windowTabs wid allTabs.
Proof.
  unfold tabsByWindowId, windowTabs.
  induction allTabs as [| tab l IH] using rev_ind; [done |].
  rewrite foldl_app, List.filter_app. cbn [foldl List.filter].
  destruct (tab_windowId tab) as [w |] eqn:Hw.
  - destruct (decide (w = wid)) as [-> | Hne].
    + rewrite lookup_insert_eq, bool_decide_eq_true_2 by done. cbn. by rewrite IH.
    + rewrite lookup_insert_ne, bool_decide_eq_false_2 by congruence.
      by rewrite app_nil_r.
  - rewrite bool_decide_eq_false_2 by congruence. by rewrite app_nil_r.
Qed.

Lemma windowTabs_closeTabs wid ids allTabs :
  windowTabs wid (closeTabs ids allTabs) = closeTabs ids (windowTabs wid allTabs).
Proof. apply closeTabs_filter. Qed.

Section PerWindowFacts.

Variable toCut : gset (option Z).
Variable minTabs : Z.
Variable lockedIds : gset Z.
Variable updatedAt : Z.
Variable shouldTabBeClosed : Tab -> bool.

Local Abbreviation perWindow :=
  (candidatesPerWindow toCut minTabs lockedIds updatedAt shouldTabBeClosed).
Local Abbreviation group :=
  (groupCandidates toCut minTabs lockedIds shouldTabBeClosed).

Lemma candidatesPerWindow_spec allTabs windows : forall acc c,
  let r := foldl (fun '(acc, c) win =>
                    match win_id win with
                    | None => (acc, c)
                    | Some wid =>
                        let '(candidates, c') :=
                          findTabsToCloseCandidates toCut minTabs lockedIds updatedAt
                            shouldTabBeClosed
                            (default [] (tabsByWindowId allTabs !! wid))
                            (win_focused win) c in
                        (acc ++ candidates, c')
                    end) (acc, c) windows in
  r.1 = acc ++ flat_map (fun win => match win_id win with
                                    | Some wid => group (windowTabs wid allTabs)
                                    | None => []
                                    end) windows
  /\ refreshes updatedAt c r.2.
Proof.
  induction windows as [| win windows IH]; intros acc c.
  - cbn. rewrite app_nil_r. split; [done | apply refreshes_refl].
  - cbn [foldl flat_map]. destruct (win_id win) as [wid |].
    + pose proof (find_fst_groupCandidates toCut minTabs lockedIds updatedAt
                    shouldTabBeClosed (default [] (tabsByWindowId allTabs !! wid))
                    (win_focused win) c) as Hfst.
      pose proof (refreshes_find toCut minTabs lockedIds updatedAt shouldTabBeClosed
                    (default [] (tabsByWindowId allTabs !! wid))
                    (win_focused win) c) as Href.
      destruct (findTabsToCloseCandidates _ _ _ _ _ _ _ c) as [cands c'].
      cbn [fst snd] in Hfst, Href.
      destruct (IH (acc ++ cands) c') as [H1 H2].
      split.
      * rewrite H1, Hfst, tabsByWindowId_lookup. by rewrite <- app_assoc.
      * eapply refreshes_trans; eauto.
    + apply IH.
Qed.

Lemma candidatesPerWindow_fst allTabs windows c :
  (perWindow allTabs windows c).1
  = flat_map (fun win => match win_id win with
                         | Some wid => group (windowTabs wid allTabs)
                         | None => []
                         end) windows.
Proof. unfold candidatesPerWindow. by destruct (candidatesPerWindow_spec allTabs windows [] c). Qed.

Lemma refreshes_candidatesPerWindow allTabs windows c :
  refreshes updatedAt c (perWindow allTabs windows c).2.
Proof. unfold candidatesPerWindow. by destruct (candidatesPerWindow_spec allTabs windows [] c). Qed.

End PerWindowFacts.

(** *** The cache after a cycle *)

Lemma keeps_or_refreshes_refl u c : keeps_or_refreshes u c c.
Proof. split; auto. Qed.

Lemma keeps_or_refreshes_trans u c1 c2 c3 :
  keeps_or_refreshes u c1 c2 -> keeps_or_refreshes u c2 c3 ->
  keeps_or_refreshes u c1 c3.
Proof.
  intros [Hi1 H1] [Hi2 H2]. split; [congruence |].
  intros k v Hk. destruct (H2 k v Hk) as [Hk2 | ->]; auto.
Qed.

Lemma refreshes_keeps_or_refreshes u c c' :
  refreshes u c c' -> keeps_or_refreshes u c c'.
Proof.
  intros (_ & Hi & H). split; [done |]. intros k v Hk.
  destruct (H k) as [Heq | Heq]; rewrite Heq in Hk; [by left | right; congruence].
Qed.

(** Deleting the keys a predicate rejects, one key at a time. *)
Lemma prune_lookup_gen {V} (alive : string -> bool) (keys : list string) :
  forall (m : gmap string V) k,
    foldl (fun m k => if alive k then m else delete k m) m keys !! k
    = if alive k then m !! k
      else if bool_decide (k ∈ keys) then None else m !! k.
Proof.
  induction keys as [| k0 keys IH]; intros m k; cbn [foldl].
  - rewrite bool_decide_eq_false_2 by apply not_elem_of_nil. by destruct (alive k).
  - rewrite IH. destruct (alive k) eqn:Hk.
    + destruct (alive k0) eqn:Hk0; [done |].
      rewrite lookup_delete_ne; [done | congruence].
    + destruct (decide (k = k0)) as [-> | Hne].
      * rewrite Hk, lookup_delete_eq.
        rewrite (bool_decide_eq_true_2 (k0 ∈ k0 :: keys)) by apply list_elem_of_here.
        by destruct (bool_decide (k0 ∈ keys)).
      * assert (bool_decide (k ∈ k0 :: keys) = bool_decide (k ∈ keys)) as ->.
        { apply bool_decide_ext. rewrite elem_of_cons.
          split; [intros [? | ?]; [congruence | done] | by right]. }
        destruct (alive k0); [done |]. by rewrite lookup_delete_ne.
Qed.

Lemma prune_lookup {V} (alive : string -> bool) (m : gmap string V) k :
  foldl (fun m k => if alive k then m else delete k m) m (map_to_list m).*1 !! k
  = if alive k then m !! k else None.
Proof.
  rewrite prune_lookup_gen. destruct (alive k); [done |].
  destruct (m !! k) as [v |] eqn:Hk; [| by destruct (bool_decide _)].
  rewrite bool_decide_eq_true_2; [done |].
  apply list_elem_of_fmap. exists (k, v). split; [done |].
  by apply elem_of_map_to_list.
Qed.

Lemma cleanUpTabTimes_lookup allTabs c k :
  memoryTabTimes (cleanUpTabTimes allTabs c) !! k
  = if bool_decide (k ∈ (fun t => JS.String_opt (tab_id t)) <$> allTabs)
    then memoryTabTimes c !! k else None.
Proof.
  unfold cleanUpTabTimes. cbn [memoryTabTimes].
  rewrite (prune_lookup (fun k => bool_decide (k ∈ (list_to_set _ : gset string)))).
  apply (f_equal (fun b : bool => if b then _ else _)).
  apply bool_decide_ext. by rewrite elem_of_list_to_set.
Qed.

Lemma cleanUpTabTimesByUrl_lookup aliveUrls c url :
  memoryTabTimesByUrl (cleanUpTabTimesByUrl aliveUrls c) !! url
  = if bool_decide (url ∈ aliveUrls) then memoryTabTimesByUrl c !! url else None.
Proof.
  unfold cleanUpTabTimesByUrl. cbn [memoryTabTimesByUrl].
  rewrite (prune_lookup (fun k => bool_decide (k ∈ (list_to_set _ : gset string)))).
  apply (f_equal (fun b : bool => if b then _ else _)).
  apply bool_decide_ext. by rewrite elem_of_list_to_set.
Qed.

Lemma keeps_or_refreshes_cleanUpTabTimes u allTabs c :
  keeps_or_refreshes u c (cleanUpTabTimes allTabs c).
Proof.
  split; [done |]. intros k v. rewrite cleanUpTabTimes_lookup.
  destruct (bool_decide _); [by left | done].
Qed.

Lemma or_default_cases (x : option Z) (u : Z) :
  Some (JS.or_default x u) = x \/ JS.or_default x u = u.
Proof.
  destruct x as [v |]; cbn; [| by right].
  destruct (v =? 0); [by right | by left].
Qed.

Lemma keeps_or_refreshes_recompute_loop u allTabs :
  forall (c : Cache) (aliveUrls : gset string),
  keeps_or_refreshes u c
    (foldl (fun '(c, aliveUrls) tab =>
              match tab_id tab with
              | Some tabId =>
                  let time :=
                    JS.or_default (memoryTabTimes c !! JS.String_ tabId) u in
                  let c := setTabTimeSilent (JS.String_ tabId) time c in
                  if truthy_string (tab_url tab)
                  then
                    let url := default "" (tab_url tab) in
                    (setTabTimeByUrlSilent url time c, {[url]} ∪ aliveUrls)
                  else (c, aliveUrls)
              | None => (c, aliveUrls)
              end) (c, aliveUrls) allTabs).1.
Proof.
  induction allTabs as [| tab l IH]; intros c aliveUrls; [apply keeps_or_refreshes_refl |].
  cbn [foldl]. destruct (tab_id tab) as [tabId |]; [| apply IH].
  set (time := JS.or_default (memoryTabTimes c !! JS.String_ tabId) u).
  assert (keeps_or_refreshes u c (setTabTimeSilent (JS.String_ tabId) time c)) as Hstep.
  { split; [done |]. intros k v. cbn.
    destruct (decide (JS.String_ tabId = k)) as [<- | Hne].
    - rewrite lookup_insert_eq. intros [= <-].
      destruct (or_default_cases (memoryTabTimes c !! JS.String_ tabId) u); auto.
    - rewrite lookup_insert_ne by done. auto. }
  cbn zeta. destruct (truthy_string (tab_url tab)).
  - eapply keeps_or_refreshes_trans; [| apply IH].
    eapply keeps_or_refreshes_trans; [exact Hstep |]. split; [done |]. cbn. auto.
  - eapply keeps_or_refreshes_trans; [exact Hstep | apply IH].
Qed.

Lemma keeps_or_refreshes_recomputeTabTimes u allTabs c :
  keeps_or_refreshes u c (recomputeTabTimes allTabs u c).1.
Proof. exact (keeps_or_refreshes_recompute_loop u allTabs c ∅). Qed.

Lemma evaluate_fst settings cutOff env c :
  (evaluate settings cutOff env c).1
  = cycleCandidates settings (toCutSet (memoryTabTimes c) cutOff)
      (snap_allTabs env) (snap_windows env).
Proof.
  unfold evaluate, cycleCandidates. fold (toCutSet (memoryTabTimes c) cutOff).
  destruct (String.eqb (minTabsStrategy settings) "allWindows").
  - rewrite <- (find_fst_groupCandidates _ _ _ (snap_updatedAt env) _ _ false
                  (refreshAudibleTabs (filterAudio settings) (snap_allTabs env)
                     (snap_updatedAt env)
                     (refreshActiveTabs (snap_activeTabs env) (snap_updatedAt env) c))).
    destruct (findTabsToCloseCandidates _ _ _ _ _ _ _ _) as [cands c1].
    by destruct (recomputeTabTimes _ _ _).
  - rewrite <- (candidatesPerWindow_fst _ _ _ (snap_updatedAt env) _ _ _
                  (refreshAudibleTabs (filterAudio settings) (snap_allTabs env)
                     (snap_updatedAt env)
                     (refreshActiveTabs (snap_activeTabs env) (snap_updatedAt env) c))).
    destruct (candidatesPerWindow _ _ _ _ _ _ _ _) as [cands c1].
    by destruct (recomputeTabTimes _ _ _).
Qed.

Lemma evaluate_keeps_or_refreshes settings cutOff env c :
  keeps_or_refreshes (snap_updatedAt env) c (evaluate settings cutOff env c).2.
Proof.
  unfold evaluate.
  set (u := snap_updatedAt env).
  set (c0 := refreshAudibleTabs _ _ _ _).
  assert (refreshes u c c0) as H0.
  { eapply refreshes_trans;
      [apply refreshes_refreshActiveTabs | apply refreshes_refreshAudibleTabs]. }
  assert (forall r : list Tab * Cache,
            refreshes u c0 r.2 ->
            keeps_or_refreshes u c
              (let '(candidateTabs, c1) := r in
               let c2 := cleanUpTabTimes (snap_allTabs env) c1 in
               let '(c3, aliveUrls) := recomputeTabTimes (snap_allTabs env) u c2 in
               (candidateTabs, cleanUpTabTimesByUrl (elements aliveUrls) c3)).2) as Hrest.
  { intros [cands c1] H1. cbn [snd] in H1. cbn zeta.
    pose proof (keeps_or_refreshes_recomputeTabTimes u (snap_allTabs env)
                  (cleanUpTabTimes (snap_allTabs env) c1)) as H3.
    destruct (recomputeTabTimes _ _ _) as [c3 aliveUrls]. cbn [fst snd] in *.
    eapply keeps_or_refreshes_trans;
      [apply refreshes_keeps_or_refreshes; eapply refreshes_trans; eauto |].
    eapply keeps_or_refreshes_trans; [apply keeps_or_refreshes_cleanUpTabTimes |].
    eapply keeps_or_refreshes_trans; [exact H3 |]. split; [done |]. cbn. auto. }
  destruct (String.eqb (minTabsStrategy settings) "allWindows").
  - apply Hrest, refreshes_find.
  - apply Hrest, refreshes_candidatesPerWindow.
Qed.

Lemma flat_map_all_nil {A B} (f : A -> list B) (l : list A) :
  (forall x, x ∈ l -> f x = []) -> flat_map f l = [].
Proof.
  induction l as [| x l IH]; intros Hall; [done |]. cbn.
  rewrite (Hall x) by apply list_elem_of_here. apply IH.
  intros y Hy. apply Hall. by apply list_elem_of_further.
Qed.

(** Nothing becomes past the cutoff by a cycle, when a time refreshed to
    [updatedAt] is not past the cutoff itself. *)
Lemma toCut_after_cycle settings cutOff env c i :
  cutOff <> 0 -> cutOff <= snap_updatedAt env ->
  Some i ∈ toCutSet (memoryTabTimes (evaluate settings cutOff env c).2) cutOff ->
  Some i ∈ toCutSet (memoryTabTimes c) cutOff.
Proof.
  intros Hne Hle. rewrite !elem_of_toCutSet.
  intros (k & v & Hk & Hparse & Hp). exists k, v.
  destruct (evaluate_keeps_or_refreshes settings cutOff env c) as [_ Hold].
  destruct (Hold k v Hk) as [Hk0 | ->]; [done | lia].
Qed.

(** C9, as the code has it. When a time refreshed to now is not past
    the cutoff itself (the inactivity window is not negative and the
    cutoff is not zero), a second evaluation at the same clock time and
    with the same settings, on the live tabs that the first one left
    and on windows the first one saw, selects no candidate. *)
Theorem second_run_evicts_nothing (settings : Settings) (t : Z)
    (env1 env2 : Snapshot) (c : Cache) :
  0 <= stayOpen settings ->
  t - stayOpen settings <> 0 ->
  snap_updatedAt env1 = t ->
  let cutOff := t - stayOpen settings in
  let r1 := evaluate settings cutOff env1 c in
  snap_allTabs env2 = closeTabs (idsOf r1.1) (snap_allTabs env1) ->
  (forall win wid,
     win ∈ snap_windows env2 -> win_id win = Some wid ->
     exists win1, win1 ∈ snap_windows env1 /\ win_id win1 = Some wid) ->
  (evaluate settings cutOff env2 r1.2).1 = [].
Proof.
  intros Hstay Hne Ht cutOff r1 Htabs Hwindows.
  rewrite evaluate_fst, Htabs. subst r1. rewrite evaluate_fst.
  set (toCut1 := toCutSet (memoryTabTimes c) cutOff).
  set (toCut2 := toCutSet _ cutOff).
  assert (forall i, Some i ∈ toCut2 -> Some i ∈ toCut1) as Hsub.
  { intros i. apply toCut_after_cycle; [done |]. rewrite Ht. subst cutOff. lia. }
  set (cands1 := cycleCandidates settings toCut1 (snap_allTabs env1) (snap_windows env1)).
  assert (forall tab i, tab ∈ cands1 -> tab_id tab = Some i -> i ∈ idsOf cands1) as Hids.
  { intros tab i Hin Hid. apply list_elem_of_omap. by exists tab. }
  unfold cycleCandidates at 1. subst cands1. unfold cycleCandidates in Hids |- *.
  destruct (String.eqb (minTabsStrategy settings) "allWindows").
  - apply groupCandidates_second_pass with (toCut1 := toCut1); [| done | done].
    intros tab i. apply createShouldTabBeClosedFilter_unlocked.
  - apply flat_map_all_nil. intros win Hwin.
    destruct (win_id win) as [wid |] eqn:Hwid; [| done].
    rewrite windowTabs_closeTabs.
    apply groupCandidates_second_pass with (toCut1 := toCut1); [| done |].
    + intros tab i. apply createShouldTabBeClosedFilter_unlocked.
    + intros tab i Hin. apply Hids.
      destruct (Hwindows win wid Hwin Hwid) as (win1 & Hwin1 & Hwid1).
      apply list_elem_of_In, in_flat_map. exists win1.
      split; [by apply list_elem_of_In |]. rewrite Hwid1. by apply list_elem_of_In.
Qed.

Lemma second_run_evicts_nothing_witness :
  let cutOff := 5002 - stayOpen sample_settings in
  let env := mkSnapshot sample_tabs [] [mkWindow (Some 7) true] 5002 in
  let r1 := evaluate (mkSettings 1000 2 "givenWindow" 2 "exactURLMatch" [] [] false
                        false false false) cutOff env sample_cache in
  r1.1 = [sample_tab 1 7 "https://a.example/"]
  /\ (evaluate sample_settings cutOff
        (mkSnapshot (closeTabs (idsOf r1.1) sample_tabs) [] [mkWindow (Some 7) true] 5002)
        r1.2).1 = [].
Proof.
  split; [vm_compute; reflexivity |].
  apply (second_run_evicts_nothing sample_settings 5002
           (mkSnapshot sample_tabs [] [mkWindow (Some 7) true] 5002)
           (mkSnapshot _ [] [mkWindow (Some 7) true] 5002) sample_cache).
  - cbn. lia.
  - cbn. lia.
  - reflexivity.
  - reflexivity.
  - intros win wid Hwin Hid. exists win. split; [exact Hwin | exact Hid].
Defined.

(** C9 as the specification words it fails when the cutoff is zero:
    the clock stands at [stayOpen], the cache is empty, one tab is open
    and no floor is set. The first evaluation selects nothing and caches
    the tab at now; the second, at the same clock time, selects it,
    because the guard [!time] of [getTabsOlderThan] lets every cached id
    in. The same shows when [checkToClose] itself runs twice. *)
Lemma second_run_evicts_at_zero_cutoff :
  let cutOff := 1000 - stayOpen zero_cutoff_settings in
  let r1 := evaluate zero_cutoff_settings cutOff zero_cutoff_snapshot (mkCache ∅ ∅ true) in
  cutOff = 0
  /\ r1.1 = []
  /\ closeTabs (idsOf r1.1) (snap_allTabs zero_cutoff_snapshot)
     = snap_allTabs zero_cutoff_snapshot
  /\ (evaluate zero_cutoff_settings cutOff zero_cutoff_snapshot r1.2).1
     = [sample_tab 1 7 "https://a.example/"]
  /\ br_tabs (w_browser (checkToClose zero_cutoff_world).2)
     = [sample_tab 1 7 "https://a.example/"]
  /\ br_tabs (w_browser (checkToClose (checkToClose zero_cutoff_world).2).2) = [].
Proof. vm_compute. repeat split. Qed.

(** ** What a cycle computes when no platform call fails *)

Lemma checkToClose_locked_run (w : World) (cutOff : Z) :
  faults (w_oracle w) = [] ->
  let env := mkSnapshot (br_tabs (w_browser w)) (activeTabsOf (w_browser w))
               (br_windows (w_browser w)) (reading w 0) in
  let r := evaluate (w_settings w) cutOff env (w_cache w) in
  exists w1,
    checkToClose_locked cutOff (minTabs (w_settings w)) w = (Ok r.1, w1)
    /\ w_cache w1 = r.2
    /\ w_browser w1 = w_browser w
    /\ w_settings w1 = w_settings w
    /\ w_oracle w1 = w_oracle (tick w)
    /\ st_persistLocal (w_storage w1) = st_persistLocal (w_storage w)
    /\ st_paused (w_storage w1) = st_paused (w_storage w)
    /\ (isInitialized (w_cache w) = true ->
        st_tabTimes (w_storage w1) = memoryTabTimes r.2
        /\ st_tabTimesByUrl (w_storage w1) = memoryTabTimesByUrl r.2).
Proof.
  destruct w as [[clk tk fl hn] b st cfg c sc al lg]. cbn. intros ->.
  pose proof (evaluate_keeps_or_refreshes cfg cutOff
                (mkSnapshot (br_tabs b) (activeTabsOf b) (br_windows b) (clk (tk + 0)%nat)) c)
    as [Hinit _].
  unfold reading, evaluate in *. cbn [w_oracle clock ticks snap_allTabs snap_activeTabs
    snap_windows snap_updatedAt] in *.
  rewrite Nat.add_0_r in *.
  unfold checkToClose_locked, bind, getTabTimes, bind, forceSyncTabTimes, bind,
    try_catch.
  destruct (isInitialized c) eqn:Hi;
    destruct (String.eqb (minTabsStrategy cfg) "allWindows") eqn:Hs; cbn;
    rewrite ?Hi, ?Hs; cbn; rewrite ?Hi, ?Hs; cbn;
    unfold onCache, set_cache, set_oracle; cbn.
  all: match goal with
       | |- context [findTabsToCloseCandidates ?a ?b ?c ?d ?e ?f ?g ?h] =>
           destruct (findTabsToCloseCandidates a b c d e f g h) as [cands c1]
       | |- context [candidatesPerWindow ?a ?b ?c ?d ?e ?f ?g ?h] =>
           destruct (candidatesPerWindow a b c d e f g h) as [cands c1]
       end; cbn.
  all: destruct (recomputeTabTimes _ _ _) as [c3 aliveUrls]; cbn in *.
  all: rewrite ?Hinit; cbn.
  all: eexists; repeat split; try discriminate.
Qed.

(** *** Computations that leave the time maps alone *)

Lemma same_times_refl w : same_times w w.
Proof. by repeat split. Qed.

Lemma same_times_trans w1 w2 w3 :
  same_times w1 w2 -> same_times w2 w3 -> same_times w1 w3.
Proof. intros (?&?&?&?) (?&?&?&?). repeat split; congruence. Qed.

Lemma keeps_times_ret {A} (a : A) : keeps_times (ret a).
Proof. intros w. apply same_times_refl. Qed.

Lemma keeps_times_bind {A B} (m : M A) (k : A -> M B) :
  keeps_times m -> (forall a, keeps_times (k a)) -> keeps_times (bind m k).
Proof.
  intros Hm Hk w. unfold bind. specialize (Hm w).
  destruct (m w) as [[a | e] w1]; [| done].
  eapply same_times_trans; [exact Hm | apply Hk].
Qed.

Lemma keeps_times_gets {A} (f : World -> A) : keeps_times (gets f).
Proof. intros w. apply same_times_refl. Qed.

Lemma keeps_times_lift {A} (r : Result A) : keeps_times (lift r).
Proof. intros w. apply same_times_refl. Qed.

Lemma keeps_times_await what : keeps_times (await what).
Proof.
  intros w. unfold await. destruct (faults (w_oracle w)) as [| [] rest];
    by repeat split.
Qed.

Lemma keeps_times_Date_now : keeps_times Date_now.
Proof. intros w. by repeat split. Qed.

Lemma keeps_times_emit e : keeps_times (modify (emit e)).
Proof. intros w. by repeat split. Qed.

Lemma keeps_times_console level message : keeps_times (console level message).
Proof. apply keeps_times_emit. Qed.

Lemma keeps_times_tabs_remove ids : keeps_times (tabs_remove ids).
Proof. intros w. by repeat split. Qed.

Lemma keeps_times_alarms_create name d : keeps_times (alarms_create name d).
Proof. intros w. by repeat split. Qed.

Lemma keeps_times_storage_set_persist p : keeps_times (storage_set_persist p).
Proof.
  apply keeps_times_bind; [apply keeps_times_await |].
  intros _ w. by repeat split.
Qed.

Lemma keeps_times_getStorageLocalPersist : keeps_times getStorageLocalPersist.
Proof.
  apply keeps_times_bind; [apply keeps_times_await | intros; apply keeps_times_gets].
Qed.

Lemma keeps_times_try_catch {A} (body : M A) (handler : string -> M A) :
  keeps_times body -> (forall e, keeps_times (handler e)) ->
  keeps_times (try_catch body handler).
Proof.
  intros Hb Hh w. unfold try_catch. specialize (Hb w).
  destruct (body w) as [[a | e] w1]; [done |].
  eapply same_times_trans; [exact Hb | apply Hh].
Qed.

Lemma keeps_times_wrangleLoop find tabs : forall p ids,
  keeps_times (wrangleLoop find tabs p ids).
Proof.
  induction tabs as [| tab rest IH]; intros p ids w; [apply same_times_refl |].
  rewrite wrangleLoop_cons. destruct (find (savedTabs p) tab); [| apply same_times_refl].
  eapply same_times_trans; [| apply IH]. by repeat split.
Qed.

Lemma keeps_times_wrangleTabs p tabs : keeps_times (wrangleTabs p tabs).
Proof.
  unfold wrangleTabs. destruct (length tabs =? 0)%nat; [apply keeps_times_ret |].
  apply keeps_times_bind; [apply keeps_times_gets | intros settings].
  apply keeps_times_bind; [apply keeps_times_gets | intros hn].
  apply keeps_times_bind; [apply keeps_times_wrangleLoop | intros [p' ids]].
  apply keeps_times_bind.
  { destruct (0 <? length ids)%nat; [apply keeps_times_tabs_remove | apply keeps_times_ret]. }
  intros _. destruct (0 <? _); [| apply keeps_times_ret].
  destruct (JS.splice_from _ _) as [tabsToTrim kept].
  apply keeps_times_bind; [apply keeps_times_console | intros _].
  apply keeps_times_bind; [apply keeps_times_emit | intros _; apply keeps_times_ret].
Qed.

Lemma keeps_times_scheduleCheckToClose : keeps_times scheduleCheckToClose.
Proof.
  apply keeps_times_bind; [apply keeps_times_gets | intros settings].
  apply keeps_times_bind; [apply keeps_times_console | intros _].
  apply keeps_times_alarms_create.
Qed.

Lemma keeps_times_checkToClose_finally startTime :
  keeps_times (checkToClose_finally startTime).
Proof.
  apply keeps_times_bind; [apply keeps_times_Date_now | intros now].
  apply keeps_times_bind; [| intros _; apply keeps_times_scheduleCheckToClose].
  destruct (5000 <? _); [apply keeps_times_console | apply keeps_times_ret].
Qed.

(** The catch handler and the [finally] block leave the time maps as
    the [try] block left them. *)
Lemma checkToClose_after_try (w : World) :
  same_times (checkToClose_try (tick w)).2 (checkToClose w).2.
Proof.
  unfold checkToClose, bind at 1. cbn [Date_now]. fold (tick w).
  set (startTime := clock _ _).
  unfold try_finally, try_catch.
  destruct (checkToClose_try (tick w)) as [[[] | e] w2]; cbn [snd].
  - pose proof (keeps_times_checkToClose_finally startTime w2) as Hfin.
    by destruct (checkToClose_finally startTime w2) as [[[] | e] w3].
  - pose proof (keeps_times_console "error" "[checkToClose]" w2) as Hcatch.
    destruct (console "error" "[checkToClose]" w2) as [rc w3]. cbn [snd] in Hcatch.
    pose proof (keeps_times_checkToClose_finally startTime w3) as Hfin.
    eapply same_times_trans; [exact Hcatch |].
    by destruct (checkToClose_finally startTime w3) as [[[] | e'] w4].
Qed.

Lemma keeps_times_archiveCandidates tabsToClose :
  keeps_times (archiveCandidates tabsToClose).
Proof.
  unfold archiveCandidates, ASYNC_LOCK_acquire.
  destruct (0 <? length tabsToClose)%nat; [| apply keeps_times_ret].
  apply keeps_times_bind; [apply keeps_times_getStorageLocalPersist | intros p0].
  apply keeps_times_bind; [apply keeps_times_wrangleTabs | intros p1].
  apply keeps_times_storage_set_persist.
Qed.

#[local] Arguments checkToClose_locked : simpl never.
#[local] Arguments archiveCandidates : simpl never.

(** A cycle that starts in [w], is not paused and meets no failing
    platform call runs its critical section after two readings of the
    clock, with the cutoff [cycle_cutOff w]; the section returns the
    candidates of [evaluate] on [cycle_snapshot w], whose [updatedAt] is
    [cycle_updatedAt w], and leaves the cache [evaluate] computes. *)
Lemma checkToClose_try_run (w : World) :
  faults (w_oracle w) = [] ->
  st_paused (w_storage w) = false ->
  let r := evaluate (w_settings w) (cycle_cutOff w) (cycle_snapshot w) (w_cache w) in
  exists w1,
    checkToClose_locked (cycle_cutOff w) (minTabs (w_settings w)) (tick (tick w))
    = (Ok r.1, w1)
    /\ w_cache w1 = r.2
    /\ (isInitialized (w_cache w) = true ->
        st_tabTimes (w_storage w1) = memoryTabTimes r.2
        /\ st_tabTimesByUrl (w_storage w1) = memoryTabTimesByUrl r.2)
    /\ checkToClose_try (tick w) = archiveCandidates r.1 w1.
Proof.
  intros Hfaults Hpaused r.
  destruct (checkToClose_locked_run (tick (tick w)) (cycle_cutOff w) Hfaults)
    as (w1 & Hrun & Hcache & _ & _ & _ & _ & _ & Hstore).
  assert (evaluate (w_settings (tick (tick w))) (cycle_cutOff w)
            (mkSnapshot (br_tabs (w_browser (tick (tick w))))
               (activeTabsOf (w_browser (tick (tick w))))
               (br_windows (w_browser (tick (tick w)))) (reading (tick (tick w)) 0))
            (w_cache (tick (tick w))) = r) as Hr.
  { subst r. unfold cycle_snapshot, cycle_updatedAt, reading. cbn.
    do 3 f_equal. lia. }
  rewrite Hr in Hrun, Hcache, Hstore. cbn [minTabs w_settings tick set_oracle] in Hrun.
  exists w1. split; [exact Hrun |]. split; [exact Hcache |]. split; [exact Hstore |].
  clear Hr Hcache Hstore. subst r.
  destruct w as [[clk tk fl hn] b st cfg c sc al lg]. cbn in Hfaults, Hpaused.
  subst fl. unfold cycle_cutOff, cycle_snapshot, cycle_updatedAt, reading, tick in *.
  cbn in Hrun |- *.
  unfold checkToClose_try, bind, getStorageSyncPersist, bind, await, gets.
  cbn. rewrite Hpaused. cbn.
  replace (tk + 1)%nat with (S tk) in * by lia.
  unfold ASYNC_LOCK_acquire at 1. unfold set_oracle in *. cbn in Hrun |- *.
  rewrite Hrun. reflexivity.
Qed.

(** The cache and the stored maps after the whole cycle. *)
Lemma checkToClose_run (w : World) :
  faults (w_oracle w) = [] ->
  st_paused (w_storage w) = false ->
  let r := evaluate (w_settings w) (cycle_cutOff w) (cycle_snapshot w) (w_cache w) in
  let w' := (checkToClose w).2 in
  w_cache w' = r.2
  /\ (isInitialized (w_cache w) = true ->
      st_tabTimes (w_storage w') = memoryTabTimes r.2
      /\ st_tabTimesByUrl (w_storage w') = memoryTabTimesByUrl r.2).
Proof.
  intros Hfaults Hpaused r w'.
  destruct (checkToClose_try_run w Hfaults Hpaused) as (w1 & _ & Hcache & Hstore & Htry).
  pose proof (checkToClose_after_try w) as Hafter. rewrite Htry in Hafter.
  pose proof (keeps_times_archiveCandidates r.1 w1) as Harch.
  destruct (same_times_trans _ _ _ Harch Hafter) as (Hc & Ht & Hu & _).
  subst w'. split; [by rewrite Hc |].
  intros Hinit. destruct (Hstore Hinit) as [H1 H2]. by rewrite Ht, Hu.
Qed.

(** ** The keys of the cache stay canonical *)

Lemma canonical_setTabTimeSilent_String_opt o t c :
  canonical_keys (memoryTabTimes c) ->
  canonical_keys (memoryTabTimes (setTabTimeSilent (JS.String_opt o) t c)).
Proof. apply canonical_keys_insert_String_opt. Qed.

Lemma canonical_setTabTimeSilent_String i t c :
  canonical_keys (memoryTabTimes c) ->
  canonical_keys (memoryTabTimes (setTabTimeSilent (JS.String_ i) t c)).
Proof. apply canonical_keys_insert_String. Qed.

Lemma canonical_foldl {A} (f : Cache -> A -> Cache) (l : list A) :
  (forall c a, canonical_keys (memoryTabTimes c) ->
               canonical_keys (memoryTabTimes (f c a))) ->
  forall c, canonical_keys (memoryTabTimes c) ->
            canonical_keys (memoryTabTimes (foldl f c l)).
Proof.
  intros Hf. induction l as [| a l IH]; intros c Hc; [done |].
  cbn. apply IH, Hf, Hc.
Qed.

Lemma canonical_refreshActiveTabs activeTabs u c :
  canonical_keys (memoryTabTimes c) ->
  canonical_keys (memoryTabTimes (refreshActiveTabs activeTabs u c)).
Proof.
  apply canonical_foldl. intros c' tab. apply canonical_setTabTimeSilent_String_opt.
Qed.

Lemma canonical_refreshAudibleTabs b allTabs u c :
  canonical_keys (memoryTabTimes c) ->
  canonical_keys (memoryTabTimes (refreshAudibleTabs b allTabs u c)).
Proof.
  unfold refreshAudibleTabs. destruct b; [| done].
  apply canonical_foldl. intros c' tab.
  destruct (tab_audible tab); [apply canonical_setTabTimeSilent_String_opt | done].
Qed.

Lemma canonical_resetTabTimes u b tabs c :
  canonical_keys (memoryTabTimes c) ->
  canonical_keys (memoryTabTimes (resetTabTimes u b tabs c)).
Proof.
  apply canonical_foldl. intros c' tab.
  destruct (tab_id tab), b; first [apply canonical_setTabTimeSilent_String | done].
Qed.

Lemma canonical_collectCandidates lockedIds u tabsToCut : forall c,
  canonical_keys (memoryTabTimes c) ->
  canonical_keys (memoryTabTimes (collectCandidates lockedIds u tabsToCut c).2).
Proof.
  induction tabsToCut as [| tab rest IH]; intros c Hc; [done |].
  cbn. destruct (tab_id tab) as [i |]; [| by apply IH].
  destruct (bool_decide (i ∈ lockedIds)).
  - by apply IH, canonical_setTabTimeSilent_String.
  - specialize (IH c Hc). by destruct (collectCandidates lockedIds u rest c).
Qed.

Lemma canonical_find toCut minTabs lockedIds u shouldTabBeClosed tabs b c :
  canonical_keys (memoryTabTimes c) ->
  canonical_keys
    (memoryTabTimes
       (findTabsToCloseCandidates toCut minTabs lockedIds u shouldTabBeClosed tabs b c).2).
Proof.
  intros Hc.
  destruct (Z.le_gt_cases (budget minTabs shouldTabBeClosed tabs) 0) as [Hb | Hb].
  - rewrite find_floor by done. by apply canonical_resetTabTimes.
  - rewrite find_above_floor by lia. by apply canonical_collectCandidates.
Qed.

Lemma canonical_candidatesPerWindow toCut minTabs lockedIds u shouldTabBeClosed
    allTabs windows c :
  canonical_keys (memoryTabTimes c) ->
  canonical_keys
    (memoryTabTimes
       (candidatesPerWindow toCut minTabs lockedIds u shouldTabBeClosed allTabs
          windows c).2).
Proof.
  unfold candidatesPerWindow.
  match goal with
  | |- context [foldl ?f (?a, c) windows] => set (step := f); generalize a as acc
  end.
  revert c.
  induction windows as [| win windows IH]; intros c acc Hc; [done |].
  cbn [foldl]. unfold step at 2. destruct (win_id win) as [wid |]; [| by apply IH].
  pose proof (canonical_find toCut minTabs lockedIds u shouldTabBeClosed
                (default [] (tabsByWindowId allTabs !! wid)) (win_focused win) c Hc)
    as Hfind.
  destruct (findTabsToCloseCandidates _ _ _ _ _ _ _ c) as [cands c'].
  by apply IH.
Qed.

Lemma canonical_recomputeTabTimes allTabs u c :
  canonical_keys (memoryTabTimes c) ->
  canonical_keys (memoryTabTimes (recomputeTabTimes allTabs u c).1).
Proof.
  unfold recomputeTabTimes.
  match goal with
  | |- context [foldl ?f (c, ?a) allTabs] => set (step := f); generalize a as aliveUrls
  end.
  revert c.
  induction allTabs as [| tab l IH]; intros c aliveUrls Hc; [done |].
  cbn [foldl]. unfold step at 2. destruct (tab_id tab) as [i |]; [| by apply IH].
  cbn zeta. destruct (truthy_string (tab_url tab)); apply IH;
    by apply canonical_setTabTimeSilent_String.
Qed.

(** The keys are canonical after the startup migration and stay so
    through every evaluation. *)
Lemma evaluate_canonical settings cutOff env c :
  canonical_keys (memoryTabTimes c) ->
  canonical_keys (memoryTabTimes (evaluate settings cutOff env c).2).
Proof.
  intros Hc. unfold evaluate.
  set (c0 := refreshAudibleTabs _ _ _ _).
  assert (canonical_keys (memoryTabTimes c0)) as H0.
  { by apply canonical_refreshAudibleTabs, canonical_refreshActiveTabs. }
  assert (forall r : list Tab * Cache,
            canonical_keys (memoryTabTimes r.2) ->
            canonical_keys
              (memoryTabTimes
                 (let '(candidateTabs, c1) := r in
                  let c2 := cleanUpTabTimes (snap_allTabs env) c1 in
                  let '(c3, aliveUrls) :=
                    recomputeTabTimes (snap_allTabs env) (snap_updatedAt env) c2 in
                  (candidateTabs, cleanUpTabTimesByUrl (elements aliveUrls) c3)).2))
    as Hrest.
  { intros [cands c1] H1. cbn [snd] in H1. cbn zeta.
    assert (canonical_keys (memoryTabTimes (cleanUpTabTimes (snap_allTabs env) c1))) as H2.
    { eapply canonical_keys_subseteq; [| exact H1].
      intros k v. rewrite cleanUpTabTimes_lookup.
      destruct (bool_decide _); [by eexists | done]. }
    pose proof (canonical_recomputeTabTimes (snap_allTabs env) (snap_updatedAt env) _ H2)
      as H3.
    by destruct (recomputeTabTimes _ _ _) as [c3 aliveUrls]. }
  destruct (String.eqb (minTabsStrategy settings) "allWindows").
  - by apply Hrest, canonical_find.
  - by apply Hrest, canonical_candidatesPerWindow.
Qed.

(** * Further properties of the code *)

(** ** tabUtil: the whitelist and the lock predicates *)

Lemma includes_spec (sub s : string) :
  JS.includes sub s = true <-> occurs_in sub s.
Proof.
  unfold JS.includes, occurs_in.
  destruct (String.index 0 sub s) as [m |] eqn:Hidx.
  - split; [intros _ | done]. exists m. by eapply String.index_correct1.
  - split; [done |]. intros [m Hm]. exfalso.
    destruct (String.string_dec sub "") as [-> | Hne].
    + apply String.index_correct4 in Hidx. lia.
    + eapply (String.index_correct3 0 m); eauto. lia.
Qed.

Lemma includes_empty (s : string) : JS.includes "" s = true.
Proof. apply includes_spec. exists 0%nat. by destruct s. Qed.

Lemma find_first {A} (p : A -> bool) (l : list A) (x : A) :
  List.find p l = Some x
  <-> exists before after,
        l = before ++ x :: after /\ p x = true
        /\ forall y, y ∈ before -> p y = false.
Proof.
  induction l as [| a l IH]; cbn.
  - split; [done |]. intros (before & after & Heq & _). by destruct before.
  - destruct (p a) eqn:Hpa.
    + split.
      * intros [= ->]. exists [], l. repeat split; [done |]. intros y Hy. by inversion Hy.
      * intros (before & after & Heq & Hpx & Hbefore).
        destruct before as [| b before]; cbn in Heq; inversion Heq; subst; [done |].
        rewrite Hbefore in Hpa by apply list_elem_of_here. discriminate.
    + rewrite IH. split.
      * intros (before & after & -> & Hpx & Hbefore). exists (a :: before), after.
        repeat split; [done |]. intros y Hy.
        apply elem_of_cons in Hy as [-> | Hy]; auto.
      * intros (before & after & Heq & Hpx & Hbefore).
        destruct before as [| b before]; cbn in Heq; inversion Heq; subst;
          [congruence |].
        exists before, after. repeat split; [done |]. intros y Hy.
        apply Hbefore. by apply list_elem_of_further.
Qed.

Lemma find_none_iff {A} (p : A -> bool) (l : list A) :
  List.find p l = None <-> forall y, y ∈ l -> p y = false.
Proof.
  induction l as [| a l IH]; cbn.
  - split; [intros _ y Hy; by inversion Hy | done].
  - destruct (p a) eqn:Hpa.
    + split; [done |]. intros Hall.
      rewrite Hall in Hpa by apply list_elem_of_here. discriminate.
    + rewrite IH. split.
      * intros Hall y Hy. apply elem_of_cons in Hy as [-> | Hy]; auto.
      * intros Hall y Hy. apply Hall. by apply list_elem_of_further.
Qed.

(** X1. [getWhitelistMatch] returns the first entry of the whitelist
    that occurs in the URL as a substring: an entry is returned exactly
    when it occurs in the URL and no entry before it does; [null] is
    returned exactly when no entry occurs in the URL, and always for a
    tab without URL. *)
Theorem getWhitelistMatch_first_match (url : string) (whitelist : list string)
    (w : string) :
  (getWhitelistMatch (Some url) whitelist = Some w
   <-> exists before after,
         whitelist = before ++ w :: after /\ occurs_in w url
         /\ forall x, x ∈ before -> ~ occurs_in x url)
  /\ (getWhitelistMatch (Some url) whitelist = None
      <-> forall x, x ∈ whitelist -> ~ occurs_in x url)
  /\ getWhitelistMatch None whitelist = None.
Proof.
  split; [| split; [| done]]; cbn.
  - rewrite find_first. split.
    + intros (before & after & Heq & Hw & Hbefore). exists before, after.
      split; [done |]. split; [by apply includes_spec |].
      intros x Hx Hocc. apply includes_spec in Hocc.
      rewrite Hbefore in Hocc by done. discriminate.
    + intros (before & after & Heq & Hw & Hbefore). exists before, after.
      split; [done |]. split; [by apply includes_spec |].
      intros x Hx. destruct (JS.includes x url) eqn:Hinc; [| done].
      destruct (Hbefore x Hx). by apply includes_spec.
  - rewrite find_none_iff. split.
    + intros Hall x Hx Hocc. apply includes_spec in Hocc.
      rewrite Hall in Hocc by done. discriminate.
    + intros Hall x Hx. destruct (JS.includes x url) eqn:Hinc; [| done].
      destruct (Hall x Hx). by apply includes_spec.
Qed.

Lemma find_app_first {A} (p : A -> bool) (l1 l2 : list A) :
  List.find p (l1 ++ l2)
  = match List.find p l1 with Some x => Some x | None => List.find p l2 end.
Proof.
  induction l1 as [| a l1 IH]; [done |]. cbn. by destruct (p a).
Qed.

(** X2. An empty string in the whitelist occurs in every URL, is
    returned as the match and is falsy: it locks nothing, and the
    entries after it are never consulted. The lock status of a tab under
    a whitelist that holds an empty entry is the one under the entries
    before it. *)
Theorem empty_whitelist_entry_cuts_the_whitelist (tab : Tab)
    (filterAudio filterGroupedTabs : bool) (lockedIds : list Z + gset Z)
    (before after : list string) :
  isTabLocked tab filterAudio filterGroupedTabs lockedIds (before ++ "" :: after)
  = isTabLocked tab filterAudio filterGroupedTabs lockedIds before.
Proof.
  unfold isTabLocked.
  assert (truthy_string (getWhitelistMatch (tab_url tab) (before ++ "" :: after))
          = truthy_string (getWhitelistMatch (tab_url tab) before)) as ->; [| done].
  unfold getWhitelistMatch. destruct (tab_url tab) as [url |]; [| done].
  rewrite find_app_first. destruct (List.find _ before); [done |].
  cbn. by rewrite includes_empty.
Qed.

Lemma hasLockedId_set_list (l : list Z) (id : option Z) :
  hasLockedId (inr (list_to_set l)) id = hasLockedId (inl l) id.
Proof.
  destruct id as [i |]; [| done]. cbn.
  apply bool_decide_ext. apply elem_of_list_to_set.
Qed.

(** X3. The filter built once by [createShouldTabBeClosedFilter], which
    looks ids up in a [Set], decides every tab as [shouldTabBeClosed]
    does with the array of locked ids. *)
Theorem createShouldTabBeClosedFilter_agrees (settings : Settings) (tab : Tab) :
  createShouldTabBeClosedFilter settings tab = shouldTabBeClosed settings tab.
Proof.
  unfold createShouldTabBeClosedFilter, shouldTabBeClosed, isTabLocked.
  by rewrite hasLockedId_set_list.
Qed.

(** ** tabTimesCache: pruning, bulk writes, the forced sync *)

(** X4. [cleanUpTabTimesByUrl] keeps exactly the entries of the URL map
    whose URL is in [aliveUrls], with their times; it leaves the id map
    and the initialization flag alone, and running it a second time with
    the same list changes nothing. *)
Theorem cleanUpTabTimesByUrl_keeps_alive_only (aliveUrls : list string) (c : Cache) :
  (forall url,
     memoryTabTimesByUrl (cleanUpTabTimesByUrl aliveUrls c) !! url
     = if bool_decide (url ∈ aliveUrls) then memoryTabTimesByUrl c !! url else None)
  /\ memoryTabTimes (cleanUpTabTimesByUrl aliveUrls c) = memoryTabTimes c
  /\ isInitialized (cleanUpTabTimesByUrl aliveUrls c) = isInitialized c
  /\ cleanUpTabTimesByUrl aliveUrls (cleanUpTabTimesByUrl aliveUrls c)
     = cleanUpTabTimesByUrl aliveUrls c.
Proof.
  split; [intros url; apply cleanUpTabTimesByUrl_lookup |].
  split; [done |]. split; [done |].
  pose proof (cleanUpTabTimesByUrl_lookup aliveUrls c) as Hc.
  destruct (cleanUpTabTimesByUrl aliveUrls c) as [m1 m2 i] eqn:E.
  cbn [memoryTabTimesByUrl] in Hc.
  pose proof (cleanUpTabTimesByUrl_lookup aliveUrls (mkCache m1 m2 i)) as Hc'.
  unfold cleanUpTabTimesByUrl in Hc' |- *. cbn [memoryTabTimesByUrl memoryTabTimes isInitialized] in Hc' |- *.
  f_equal. apply map_eq. intros url. rewrite Hc', Hc.
  by destruct (bool_decide (url ∈ aliveUrls)).
Qed.

Lemma setTabTimes_snoc tabIds tabId time c :
  setTabTimes (tabIds ++ [tabId]) time c = setTabTime tabId time (setTabTimes tabIds time c).
Proof. unfold setTabTimes. by rewrite foldl_app. Qed.

(** X5. After [setTabTimes ids time] every listed id is cached at
    [time] and every other entry of the id map is as before; the URL map
    and the initialization flag are not touched. *)
Theorem setTabTimes_lookup (tabIds : list string) (time : Z) (c : Cache) :
  (forall k,
     memoryTabTimes (setTabTimes tabIds time c) !! k
     = if bool_decide (k ∈ tabIds) then Some time else memoryTabTimes c !! k)
  /\ memoryTabTimesByUrl (setTabTimes tabIds time c) = memoryTabTimesByUrl c
  /\ isInitialized (setTabTimes tabIds time c) = isInitialized c.
Proof.
  induction tabIds as [| tabId l IH] using rev_ind.
  - split; [| done]. intros k. cbn.
    by rewrite bool_decide_eq_false_2 by apply not_elem_of_nil.
  - destruct IH as (IH & Hurl & Hinit). rewrite setTabTimes_snoc.
    split; [| by cbn]. intros k. cbn [setTabTime memoryTabTimes].
    destruct (decide (tabId = k)) as [-> | Hne].
    + rewrite lookup_insert_eq. rewrite bool_decide_eq_true_2; [done |].
      apply elem_of_app. right. apply list_elem_of_here.
    + rewrite lookup_insert_ne, IH by done.
      apply (f_equal (fun b : bool => if b then _ else _)).
      apply bool_decide_ext. rewrite elem_of_app, list_elem_of_singleton.
      split; [by left | intros [? | ?]; [done | congruence]].
Qed.

(** X6. [forceSyncTabTimes] never throws and never changes the cache.
    Before the cache is initialized it does nothing at all. Once it is,
    a write that the platform accepts leaves both stored maps equal to
    the maps in memory; a write that the platform rejects leaves the
    storage as it was and is only reported on the console. *)
Theorem forceSyncTabTimes_never_throws (w : World) :
  exists w',
    forceSyncTabTimes w = (Ok tt, w')
    /\ w_cache w' = w_cache w
    /\ w_browser w' = w_browser w
    /\ if isInitialized (w_cache w)
       then match faults (w_oracle w) with
            | true :: _ =>
                w_storage w' = w_storage w
                /\ w_log w'
                   = w_log w
                     ++ [Console "error" "[tabTimesCache] Failed to force-sync tabTimes to disk:"]
            | _ =>
                st_tabTimes (w_storage w') = memoryTabTimes (w_cache w)
                /\ st_tabTimesByUrl (w_storage w') = memoryTabTimesByUrl (w_cache w)
                /\ st_persistLocal (w_storage w') = st_persistLocal (w_storage w)
            end
       else w' = w.
Proof.
  destruct w as [[clk tk fl hn] b st cfg [m1 m2 i] sc al lg].
  unfold forceSyncTabTimes, bind, gets, try_catch. cbn.
  destruct i; [| by eexists].
  destruct fl as [| [] rest]; cbn; by eexists.
Qed.

(** ** One evaluation cycle: the candidates and the cache it leaves *)

Lemma elem_of_groupCandidates toCut minTabs lockedIds shouldTabBeClosed tabs tab :
  tab ∈ groupCandidates toCut minTabs lockedIds shouldTabBeClosed tabs ->
  tab ∈ tabs /\ shouldTabBeClosed tab = true /\ inToCut toCut tab = true
  /\ evictable lockedIds tab = true.
Proof.
  unfold groupCandidates. destruct (budget _ _ _ <=? 0); [by inversion 1 |].
  intros Hin. apply list_elem_of_In, filter_In in Hin as [Hin Hev].
  apply list_elem_of_In, elem_of_trimmed in Hin. tauto.
Qed.

Lemma elem_of_cycleCandidates settings toCut allTabs windows tab :
  tab ∈ cycleCandidates settings toCut allTabs windows ->
  tab ∈ allTabs /\ createShouldTabBeClosedFilter settings tab = true
  /\ inToCut toCut tab = true
  /\ evictable (list_to_set (lockedIds settings)) tab = true.
Proof.
  unfold cycleCandidates.
  destruct (String.eqb (minTabsStrategy settings) "allWindows");
    [apply elem_of_groupCandidates |].
  intros Hin. apply list_elem_of_In, in_flat_map in Hin as (win & _ & Hin).
  destruct (win_id win) as [wid |]; [| by destruct Hin].
  apply list_elem_of_In, elem_of_groupCandidates in Hin as (Hin & H).
  split; [| exact H]. unfold windowTabs in Hin.
  apply list_elem_of_In, filter_In in Hin as [Hin _]. by apply list_elem_of_In.
Qed.



(** X8. The candidates of a cycle do not depend on which tabs are
    active, on which window has the focus, or on the time the cycle
    stamps: two snapshots with the same live tabs and the same window ids
    give the same candidates from the same cache. In particular the
    refresh of the active tab, which the cycle performs after it has
    fixed the past-cutoff set, does not protect that tab in the same
    cycle. *)
Theorem candidates_ignore_active_tabs_and_focus (settings : Settings) (cutOff : Z)
    (env env' : Snapshot) (c : Cache) :
  snap_allTabs env' = snap_allTabs env ->
  (win_id <$> snap_windows env') = (win_id <$> snap_windows env) ->
  (evaluate settings cutOff env' c).1 = (evaluate settings cutOff env c).1.
Proof.
  intros Htabs Hwins. rewrite !evaluate_fst, Htabs. unfold cycleCandidates.
  destruct (String.eqb (minTabsStrategy settings) "allWindows"); [done |].
  set (f := fun wid : option Z =>
              match wid with
              | Some wid =>
                  groupCandidates (toCutSet (memoryTabTimes c) cutOff) (minTabs settings)
                    (list_to_set (lockedIds settings))
                    (createShouldTabBeClosedFilter settings)
                    (windowTabs wid (snap_allTabs env))
              | None => []
              end).
  assert (forall ws : list Window,
            flat_map (fun win => f (win_id win)) ws = flat_map f (win_id <$> ws))
    as Hmap.
  { induction ws as [| win ws IH]; [done |]. cbn. by rewrite IH. }
  change (flat_map (fun win => f (win_id win)) (snap_windows env')
          = flat_map (fun win => f (win_id win)) (snap_windows env)).
  by rewrite !Hmap, Hwins.
Qed.

Lemma candidates_ignore_active_tabs_and_focus_witness :
  (evaluate sample_settings 4001
     (mkSnapshot sample_tabs [sample_tab 1 7 "https://a.example/"]
        [mkWindow (Some 7) false] 9999) sample_cache).1
  = (evaluate sample_settings 4001 (cycle_snapshot sample_world) sample_cache).1.
Proof.
  apply (candidates_ignore_active_tabs_and_focus sample_settings 4001
           (cycle_snapshot sample_world)
           (mkSnapshot sample_tabs [sample_tab 1 7 "https://a.example/"]
              [mkWindow (Some 7) false] 9999) sample_cache).
  - reflexivity.
  - reflexivity.
Defined.

Lemma or_default_idem (x : option Z) (u : Z) :
  JS.or_default (Some (JS.or_default x u)) u = JS.or_default x u.
Proof.
  destruct x as [v |]; cbn.
  - destruct (v =? 0) eqn:Hv; [by destruct (u =? 0) | by rewrite Hv].
  - by destruct (u =? 0).
Qed.

Lemma recomputeTabTimes_snoc l tab u c :
  recomputeTabTimes (l ++ [tab]) u c
  = let '(c1, aliveUrls) := recomputeTabTimes l u c in
    match tab_id tab with
    | Some tabId =>
        let time := JS.or_default (memoryTabTimes c1 !! JS.String_ tabId) u in
        let c2 := setTabTimeSilent (JS.String_ tabId) time c1 in
        if truthy_string (tab_url tab)
        then
          let url := default "" (tab_url tab) in
          (setTabTimeByUrlSilent url time c2, {[url]} ∪ aliveUrls)
        else (c2, aliveUrls)
    | None => (c1, aliveUrls)
    end.
Proof.
  unfold recomputeTabTimes. rewrite foldl_app. cbn [foldl].
  by destruct (foldl _ _ l).
Qed.

Lemma idsOf_snoc l tab :
  idsOf (l ++ [tab])
  = idsOf l ++ match tab_id tab with Some i => [i] | None => [] end.
Proof. unfold idsOf. rewrite omap_app. cbn. by destruct (tab_id tab). Qed.

(** The id map after the recompute loop: every live tab with an id has
    its cached time, or [updatedAt] when it had none. *)
Lemma recomputeTabTimes_lookup l u c k :
  memoryTabTimes (recomputeTabTimes l u c).1 !! k
  = if bool_decide (k ∈ JS.String_ <$> idsOf l)
    then Some (JS.or_default (memoryTabTimes c !! k) u)
    else memoryTabTimes c !! k.
Proof.
  induction l as [| tab l IH] using rev_ind.
  - cbn. by rewrite bool_decide_eq_false_2 by apply not_elem_of_nil.
  - rewrite recomputeTabTimes_snoc, idsOf_snoc.
    destruct (recomputeTabTimes l u c) as [c1 aliveUrls]. cbn [fst] in IH.
    destruct (tab_id tab) as [tabId |].
    + cbn zeta.
      assert (forall c2 : Cache,
                memoryTabTimes c2
                = <[JS.String_ tabId :=
                      JS.or_default (memoryTabTimes c1 !! JS.String_ tabId) u]>
                    (memoryTabTimes c1) ->
                memoryTabTimes c2 !! k
                = if bool_decide (k ∈ (JS.String_ <$> idsOf l ++ [tabId]))
                  then Some (JS.or_default (memoryTabTimes c !! k) u)
                  else memoryTabTimes c !! k) as Hstep.
      { intros c2 ->. rewrite fmap_app. cbn [fmap list_fmap].
        destruct (decide (JS.String_ tabId = k)) as [<- | Hne].
        * rewrite lookup_insert_eq.
          rewrite (bool_decide_eq_true_2 (_ ∈ _ ++ _));
            [| apply elem_of_app; right; apply list_elem_of_here].
          rewrite IH. destruct (bool_decide _); [by rewrite or_default_idem | done].
        * rewrite lookup_insert_ne, IH by done.
          apply (f_equal (fun b : bool => if b then _ else _)).
          apply bool_decide_ext. rewrite elem_of_app, list_elem_of_singleton.
          split; [by left | intros [? | ?]; [done | congruence]]. }
      destruct (truthy_string (tab_url tab)); by apply Hstep.
    + by rewrite app_nil_r.
Qed.

(** The URLs the recompute loop collects are the truthy URLs of the
    live tabs that have an id. *)
Lemma recomputeTabTimes_aliveUrls l u c url :
  url ∈ (recomputeTabTimes l u c).2
  <-> url <> "" /\ exists tab, tab ∈ l /\ filedUnder url tab.
Proof.
  induction l as [| tab l IH] using rev_ind.
  - cbn. split; [set_solver |]. intros (_ & tab & Hin & _). by inversion Hin.
  - rewrite recomputeTabTimes_snoc.
    destruct (recomputeTabTimes l u c) as [c1 aliveUrls]. cbn [snd] in IH.
    assert ((url <> "" /\ exists x, x ∈ l ++ [tab] /\ filedUnder url x)
            <-> (url ∈ aliveUrls \/ (url <> "" /\ filedUnder url tab))) as ->.
    { rewrite IH. split.
      - intros (Hne & x & Hx & Hf). apply elem_of_app in Hx as [Hx | Hx].
        + left. eauto.
        + apply list_elem_of_singleton in Hx as ->. by right.
      - intros [(Hne & x & Hx & Hf) | (Hne & Hf)]; (split; [done |]).
        + exists x. split; [apply elem_of_app; by left | done].
        + exists tab. split; [apply elem_of_app; right; apply list_elem_of_here | done]. }
    unfold filedUnder.
    destruct (tab_id tab) as [tabId |];
      [| cbn [snd]; split; [by left | intros [? | (_ & [? ?] & _)]; done]].
    cbn zeta. destruct (tab_url tab) as [turl |]; cbn [truthy_string].
    + destruct (String.eqb_spec turl "") as [-> | Hne]; cbn [negb snd default].
      * split; [by left | intros [? | (? & _ & ?)]; [done | congruence]].
      * change (default "" (Some turl)) with turl.
        rewrite elem_of_union, elem_of_singleton. split.
        -- intros [-> | ?]; [right | by left]. by repeat split; eauto.
        -- intros [? | (_ & _ & [= ->])]; [by right | by left].
    + cbn [snd]. split; [by left | intros [? | (_ & _ & ?)]; done].
Qed.

(** The URL map after the recompute loop: the entry of a URL is the time
    given to the last live tab filed under it. *)
Lemma recomputeTabTimes_url_last u c url before tab after :
  url <> "" ->
  filedUnder url tab ->
  (forall x, x ∈ after -> ~ filedUnder url x) ->
  memoryTabTimesByUrl (recomputeTabTimes (before ++ tab :: after) u c).1 !! url
  = Some (recomputedTime (memoryTabTimes c) u tab).
Proof.
  intros Hurl [[tabId Hid] Htab]. induction after as [| x after IH] using rev_ind;
    intros Hafter.
  - change (before ++ [tab]) with (before ++ [tab]).
    rewrite recomputeTabTimes_snoc.
    pose proof (recomputeTabTimes_lookup before u c (JS.String_ tabId)) as Hlk.
    destruct (recomputeTabTimes before u c) as [c1 aliveUrls]. cbn [fst] in Hlk.
    rewrite Hid, Htab. cbn [truthy_string].
    rewrite (proj2 (String.eqb_neq _ _) Hurl). cbn [negb fst].
    change (default "" (Some url)) with url.
    cbn [setTabTimeByUrlSilent memoryTabTimesByUrl]. rewrite lookup_insert_eq.
    unfold recomputedTime. rewrite Hid, Hlk.
    destruct (bool_decide _); [by rewrite or_default_idem | done].
  - replace (before ++ tab :: after ++ [x]) with ((before ++ tab :: after) ++ [x])
      by by rewrite <- app_assoc.
    rewrite recomputeTabTimes_snoc.
    assert (forall y, y ∈ after -> ~ filedUnder url y) as Hafter'.
    { intros y Hy. apply Hafter, elem_of_app. by left. }
    specialize (IH Hafter').
    assert (~ filedUnder url x) as Hx.
    { apply Hafter, elem_of_app. right. apply list_elem_of_here. }
    destruct (recomputeTabTimes (before ++ tab :: after) u c) as [c1 aliveUrls].
    cbn [fst] in IH. unfold filedUnder in Hx.
    destruct (tab_id x) as [xid |]; [| done]. cbn zeta.
    destruct (tab_url x) as [xurl |]; cbn [truthy_string]; [| done].
    destruct (String.eqb xurl ""); cbn [negb fst]; [done |].
    change (default "" (Some xurl)) with xurl.
    cbn [setTabTimeByUrlSilent memoryTabTimesByUrl].
    rewrite lookup_insert_ne; [done |]. intros ->. apply Hx. eauto.
Qed.

(** The cache a cycle leaves, in two steps: the refreshes (active tabs,
    audible tabs, floor resets and locked candidates), then the pruning
    and the recompute loop. *)
Lemma evaluate_snd settings cutOff env c :
  exists c1,
    refreshes (snap_updatedAt env)
      (refreshAudibleTabs (filterAudio settings) (snap_allTabs env) (snap_updatedAt env)
         (refreshActiveTabs (snap_activeTabs env) (snap_updatedAt env) c)) c1
    /\ (evaluate settings cutOff env c).2
       = cleanUpTabTimesByUrl
           (elements (recomputeTabTimes (snap_allTabs env) (snap_updatedAt env)
                        (cleanUpTabTimes (snap_allTabs env) c1)).2)
           (recomputeTabTimes (snap_allTabs env) (snap_updatedAt env)
              (cleanUpTabTimes (snap_allTabs env) c1)).1.
Proof.
  unfold evaluate.
  set (u := snap_updatedAt env).
  set (c0 := refreshAudibleTabs _ _ _ _).
  destruct (String.eqb (minTabsStrategy settings) "allWindows").
  - pose proof (refreshes_find (list_to_set (getTabsOlderThan (memoryTabTimes c) cutOff))
                  (minTabs settings) (list_to_set (lockedIds settings)) u
                  (createShouldTabBeClosedFilter settings) (snap_allTabs env) false c0)
      as Hr.
    destruct (findTabsToCloseCandidates _ _ _ _ _ _ _ _) as [cands c1].
    exists c1. split; [exact Hr |]. by destruct (recomputeTabTimes _ _ _).
  - pose proof (refreshes_candidatesPerWindow
                  (list_to_set (getTabsOlderThan (memoryTabTimes c) cutOff))
                  (minTabs settings) (list_to_set (lockedIds settings)) u
                  (createShouldTabBeClosedFilter settings) (snap_allTabs env)
                  (snap_windows env) c0) as Hr.
    destruct (candidatesPerWindow _ _ _ _ _ _ _ _) as [cands c1].
    exists c1. split; [exact Hr |]. by destruct (recomputeTabTimes _ _ _).
Qed.

Lemma elem_of_live_keys (allTabs : list Tab) (tab : Tab) (tabId : Z) :
  tab ∈ allTabs -> tab_id tab = Some tabId ->
  JS.String_ tabId ∈ (fun t => JS.String_opt (tab_id t)) <$> allTabs.
Proof.
  intros Hin Hid. apply list_elem_of_fmap. exists tab. by rewrite Hid.
Qed.

Lemma elem_of_String_idsOf (allTabs : list Tab) (tab : Tab) (tabId : Z) :
  tab ∈ allTabs -> tab_id tab = Some tabId ->
  JS.String_ tabId ∈ JS.String_ <$> idsOf allTabs.
Proof.
  intros Hin Hid. apply list_elem_of_fmap. exists tabId. split; [done |].
  apply list_elem_of_omap. eauto.
Qed.



Lemma refreshActiveTabs_refreshed activeTabs u tab : forall c,
  tab ∈ activeTabs ->
  memoryTabTimes (refreshActiveTabs activeTabs u c) !! JS.String_opt (tab_id tab)
  = Some u.
Proof.
  unfold refreshActiveTabs.
  induction activeTabs as [| x l IH]; intros c Hin; [by inversion Hin |].
  cbn [foldl]. apply elem_of_cons in Hin as [<- | Hin]; [| by apply IH].
  eapply refreshes_keeps.
  - apply (refreshes_foldl u
             (fun c t => setTabTimeSilent (JS.String_opt (tab_id t)) u c)).
    intros c' t. apply refreshes_setTabTimeSilent.
  - cbn. apply lookup_insert_eq.
Qed.

Lemma refreshAudibleTabs_refreshed allTabs u tab : forall c,
  tab ∈ allTabs -> tab_audible tab = true ->
  memoryTabTimes (refreshAudibleTabs true allTabs u c) !! JS.String_opt (tab_id tab)
  = Some u.
Proof.
  unfold refreshAudibleTabs.
  induction allTabs as [| x l IH]; intros c Hin Haud; [by inversion Hin |].
  cbn [foldl]. apply elem_of_cons in Hin as [<- | Hin]; [| by apply IH].
  rewrite Haud. eapply refreshes_keeps.
  - apply (refreshes_foldl u
             (fun c t => if tab_audible t
                         then setTabTimeSilent (JS.String_opt (tab_id t)) u c else c)).
    intros c' t.
    destruct (tab_audible t); [apply refreshes_setTabTimeSilent | apply refreshes_refl].
  - cbn. apply lookup_insert_eq.
Qed.

(** X10. A live tab with an id that the cycle refreshes at its start,
    because it is an active tab of the last focused window or because it
    is audible while [filterAudio] is on, ends the cycle cached at the
    time the cycle stamps, whatever the cache held for it. *)
Theorem refreshed_tabs_end_cycle_at_updatedAt (settings : Settings) (cutOff : Z)
    (env : Snapshot) (c : Cache) (tab : Tab) (tabId : Z) :
  tab ∈ snap_allTabs env ->
  tab_id tab = Some tabId ->
  tab ∈ snap_activeTabs env
  \/ (filterAudio settings = true /\ tab_audible tab = true) ->
  cachedTime (evaluate settings cutOff env c).2 tabId = Some (snap_updatedAt env).
Proof.
  intros Hin Hid Hrefreshed.
  destruct (evaluate_snd settings cutOff env c) as (c1 & Hr & ->).
  unfold cachedTime. cbn [cleanUpTabTimesByUrl memoryTabTimes].
  change (memoryTabTimes (cleanUpTabTimesByUrl ?l ?c)) with (memoryTabTimes c).
  rewrite recomputeTabTimes_lookup.
  rewrite bool_decide_eq_true_2 by by eapply elem_of_String_idsOf.
  rewrite cleanUpTabTimes_lookup.
  rewrite bool_decide_eq_true_2 by by eapply elem_of_live_keys.
  assert (memoryTabTimes c1 !! JS.String_ tabId = Some (snap_updatedAt env)) as ->.
  { eapply refreshes_keeps; [exact Hr |].
    change (JS.String_ tabId) with (JS.String_opt (Some tabId)). rewrite <- Hid.
    destruct Hrefreshed as [Hactive | [-> Haudible]].
    - eapply refreshes_keeps; [apply refreshes_refreshAudibleTabs |].
      by apply refreshActiveTabs_refreshed.
    - by apply refreshAudibleTabs_refreshed. }
  cbn. by destruct (snap_updatedAt env =? 0).
Qed.

Lemma refreshed_tabs_end_cycle_at_updatedAt_witness :
  cachedTime
    (evaluate sample_settings 4001
       (mkSnapshot sample_tabs [sample_tab 2 7 "https://b.example/"]
          [mkWindow (Some 7) true] 5002) sample_cache).2 2
  = Some 5002.
Proof.
  apply (refreshed_tabs_end_cycle_at_updatedAt sample_settings 4001
           (mkSnapshot sample_tabs [sample_tab 2 7 "https://b.example/"]
              [mkWindow (Some 7) true] 5002) sample_cache
           (sample_tab 2 7 "https://b.example/") 2).
  - apply list_elem_of_further, list_elem_of_here.
  - reflexivity.
  - left. apply list_elem_of_here.
Defined.

Lemma recomputeTabTimes_alive_is_Some l u c url :
  url ∈ (recomputeTabTimes l u c).2 ->
  is_Some (memoryTabTimesByUrl (recomputeTabTimes l u c).1 !! url).
Proof.
  induction l as [| tab l IH] using rev_ind; [cbn; set_solver |].
  rewrite recomputeTabTimes_snoc.
  destruct (recomputeTabTimes l u c) as [c1 aliveUrls]. cbn [fst snd] in IH.
  destruct (tab_id tab) as [tabId |]; [| exact IH]. cbn zeta.
  destruct (truthy_string (tab_url tab)); cbn [fst snd]; [| exact IH].
  cbn [setTabTimeByUrlSilent memoryTabTimesByUrl].
  rewrite elem_of_union, elem_of_singleton.
  destruct (decide (default "" (tab_url tab) = url)) as [-> | Hne].
  - intros _. rewrite lookup_insert_eq. by eexists.
  - rewrite lookup_insert_ne by done. intros [-> | Hin]; [done | by apply IH].
Qed.

(** X11. After a cycle of the alarm-based variant the URL map holds,
    for the URL of a live tab, the time of the last live tab (in the
    order of enumeration) that has an id and that URL: the entry equals
    that tab's entry in the id map, whatever the times of the earlier
    tabs with the same URL. *)
Theorem url_entry_follows_last_tab (settings : Settings) (cutOff : Z)
    (env : Snapshot) (c : Cache) (url : string) (before after : list Tab)
    (tab : Tab) (tabId : Z) :
  snap_allTabs env = before ++ tab :: after ->
  tab_id tab = Some tabId ->
  tab_url tab = Some url ->
  url <> "" ->
  (forall x, x ∈ after -> ~ filedUnder url x) ->
  let c' := (evaluate settings cutOff env c).2 in
  memoryTabTimesByUrl c' !! url = cachedTime c' tabId
  /\ is_Some (cachedTime c' tabId).
Proof.
  intros Htabs Hid Hturl Hurl Hafter c'.
  destruct (evaluate_snd settings cutOff env c) as (c1 & _ & Hc'). fold c' in Hc'.
  assert (filedUnder url tab) as Hfiled by (split; [by eexists | done]).
  assert (tab ∈ snap_allTabs env) as Hin.
  { rewrite Htabs. apply elem_of_app. right. apply list_elem_of_here. }
  set (c2 := cleanUpTabTimes (snap_allTabs env) c1) in *.
  assert (cachedTime c' tabId
          = Some (recomputedTime (memoryTabTimes c2) (snap_updatedAt env) tab)) as Hid'.
  { unfold cachedTime. rewrite Hc'.
    change (memoryTabTimes (cleanUpTabTimesByUrl ?l ?c)) with (memoryTabTimes c).
    rewrite recomputeTabTimes_lookup.
    rewrite bool_decide_eq_true_2 by by eapply elem_of_String_idsOf.
    unfold recomputedTime. by rewrite Hid. }
  split; [| rewrite Hid'; by eexists].
  rewrite Hid', Hc', cleanUpTabTimesByUrl_lookup.
  rewrite bool_decide_eq_true_2.
  - rewrite Htabs. by apply recomputeTabTimes_url_last.
  - apply elem_of_elements, recomputeTabTimes_aliveUrls. eauto.
Qed.

Lemma url_entry_follows_last_tab_witness :
  let c' := (evaluate sample_settings 4001 (cycle_snapshot duplicate_url_world)
               (w_cache duplicate_url_world)).2 in
  memoryTabTimesByUrl c' !! duplicate_url = cachedTime c' 2
  /\ is_Some (cachedTime c' 2).
Proof.
  apply (url_entry_follows_last_tab sample_settings 4001
           (cycle_snapshot duplicate_url_world) (w_cache duplicate_url_world)
           duplicate_url [sample_tab 1 7 duplicate_url] []
           (sample_tab 2 7 duplicate_url) 2).
  - reflexivity.
  - reflexivity.
  - reflexivity.
  - discriminate.
  - intros x Hx. by inversion Hx.
Defined.

(** X12. After the evaluation of a cycle the URL map is pruned to the
    tabs the cycle enumerated at its start: a URL has an entry exactly
    when it is not the empty string and some enumerated tab with an id
    has it as its URL. The candidates are among the enumerated tabs, so
    that the URL of a tab the cycle evicts still has its entry until the
    next cycle prunes it. *)
Theorem url_map_pruned_to_enumerated_urls (settings : Settings) (cutOff : Z)
    (env : Snapshot) (c : Cache) (url : string) :
  let r := evaluate settings cutOff env c in
  (is_Some (memoryTabTimesByUrl r.2 !! url)
   <-> url <> "" /\ exists tab, tab ∈ snap_allTabs env /\ filedUnder url tab)
  /\ (forall tab,
        tab ∈ r.1 -> tab_url tab = Some url -> url <> "" ->
        is_Some (memoryTabTimesByUrl r.2 !! url)).
Proof.
  intros r.
  assert (is_Some (memoryTabTimesByUrl r.2 !! url)
          <-> url <> "" /\ exists tab, tab ∈ snap_allTabs env /\ filedUnder url tab)
    as Hiff.
  { subst r. destruct (evaluate_snd settings cutOff env c) as (c1 & _ & ->).
    rewrite cleanUpTabTimesByUrl_lookup, <- recomputeTabTimes_aliveUrls.
    destruct (bool_decide (url ∈ elements _)) eqn:Halive.
    - apply bool_decide_eq_true, elem_of_elements in Halive.
      split; [done |]. intros _. by apply recomputeTabTimes_alive_is_Some.
    - apply bool_decide_eq_false in Halive. rewrite elem_of_elements in Halive.
      split; [by intros [? ?] | done]. }
  split; [exact Hiff |].
  intros tab Hin Hurl Hne. apply Hiff. split; [done |]. exists tab.
  subst r. rewrite evaluate_fst in Hin.
  apply elem_of_cycleCandidates in Hin as (Hin & _ & _ & Hev).
  split; [done |]. split; [| done].
  unfold evictable in Hev. destruct (tab_id tab); [by eexists | done].
Qed.

(** ** A cycle while paused, and before the cache is initialized *)

(** X13. While the extension is paused a cycle closes no tab and writes
    nothing: the cache, the storage and the set of live tabs are as
    before, whether or not the read of the paused flag succeeds, and the
    cycle completes without an exception. *)
Theorem paused_cycle_changes_nothing (w : World) :
  st_paused (w_storage w) = true ->
  (checkToClose w).1 = Ok tt
  /\ w_cache (checkToClose w).2 = w_cache w
  /\ w_storage (checkToClose w).2 = w_storage w
  /\ w_browser (checkToClose w).2 = w_browser w.
Proof.
  destruct w as [[clk tk fl hn] b [tt tu pl pa] cfg c sc al lg]. cbn. intros ->.
  unfold checkToClose, bind, try_finally, try_catch, checkToClose_try,
    getStorageSyncPersist, checkToClose_finally, scheduleCheckToClose, bind.
  destruct fl as [| [] rest]; cbn; destruct (5000 <? _); cbn; done.
Qed.

Lemma paused_cycle_changes_nothing_witness :
  let w := mkWorld (mkOracle sample_clock 0 [] (fun _ => None))
             (mkBrowser sample_tabs [mkWindow (Some 7) true] (Some 7))
             (mkStorage ∅ ∅ (mkPersist [] 0 ∅) true)
             sample_settings sample_cache true ∅ [] in
  (checkToClose w).1 = Ok tt
  /\ w_cache (checkToClose w).2 = w_cache w
  /\ w_storage (checkToClose w).2 = w_storage w
  /\ w_browser (checkToClose w).2 = w_browser w.
Proof.
  apply (paused_cycle_changes_nothing
           (mkWorld (mkOracle sample_clock 0 [] (fun _ => None))
              (mkBrowser sample_tabs [mkWindow (Some 7) true] (Some 7))
              (mkStorage ∅ ∅ (mkPersist [] 0 ∅) true)
              sample_settings sample_cache true ∅ [])).
  reflexivity.
Defined.

Lemma uninit_keeps_times {A} (m : M A) :
  keeps_times m -> keeps_stored_while_uninitialized m.
Proof. intros Hm w Hw. destruct (Hm w) as (-> & -> & -> & _). done. Qed.

Lemma uninit_bind {A B} (m : M A) (k : A -> M B) :
  keeps_stored_while_uninitialized m ->
  (forall a, keeps_stored_while_uninitialized (k a)) ->
  keeps_stored_while_uninitialized (bind m k).
Proof.
  intros Hm Hk w Hw. unfold bind. destruct (Hm w Hw) as (Hi & Ht & Hu).
  destruct (m w) as [[a | e] w1]; cbn [snd] in *; [| done].
  destruct (Hk a w1 Hi) as (Hi' & Ht' & Hu'). by rewrite Ht', Hu'.
Qed.

Lemma uninit_try_catch {A} (body : M A) (handler : string -> M A) :
  keeps_stored_while_uninitialized body ->
  (forall e, keeps_stored_while_uninitialized (handler e)) ->
  keeps_stored_while_uninitialized (try_catch body handler).
Proof.
  intros Hm Hk w Hw. unfold try_catch. destruct (Hm w Hw) as (Hi & Ht & Hu).
  destruct (body w) as [[a | e] w1]; cbn [snd] in *; [done |].
  destruct (Hk e w1 Hi) as (Hi' & Ht' & Hu'). by rewrite Ht', Hu'.
Qed.

Lemma uninit_try_finally (body fin : M unit) :
  keeps_stored_while_uninitialized body ->
  keeps_stored_while_uninitialized fin ->
  keeps_stored_while_uninitialized (try_finally body fin).
Proof.
  intros Hm Hk w Hw. unfold try_finally. destruct (Hm w Hw) as (Hi & Ht & Hu).
  destruct (body w) as [r w1]; cbn [snd] in *.
  destruct (Hk w1 Hi) as (Hi' & Ht' & Hu').
  destruct (fin w1) as [[[] | e] w2]; cbn [snd] in *; by rewrite Ht', Hu'.
Qed.

Lemma uninit_modifyCache (f : Cache -> Cache) :
  (forall c, isInitialized (f c) = isInitialized c) ->
  keeps_stored_while_uninitialized (modifyCache f).
Proof. intros Hf w Hw. cbn. by rewrite Hf. Qed.

Lemma uninit_onCache {A} (f : Cache -> A * Cache) :
  (forall c, isInitialized (f c).2 = isInitialized c) ->
  keeps_stored_while_uninitialized (onCache f).
Proof.
  intros Hf w Hw. unfold onCache. specialize (Hf (w_cache w)).
  destruct (f (w_cache w)) as [a c']. cbn in *. by rewrite Hf.
Qed.

Lemma uninit_forceSyncTabTimes : keeps_stored_while_uninitialized forceSyncTabTimes.
Proof. intros w Hw. unfold forceSyncTabTimes, bind, gets. cbn. by rewrite Hw. Qed.

Lemma uninit_checkToClose_locked cutOff minTabs :
  keeps_stored_while_uninitialized (checkToClose_locked cutOff minTabs).
Proof.
  unfold checkToClose_locked.
  apply uninit_bind; [apply uninit_keeps_times, keeps_times_bind;
                        [apply keeps_times_await | intros; apply keeps_times_gets] |].
  intros allTabs. apply uninit_bind.
  { apply uninit_keeps_times. unfold getTabTimes.
    apply keeps_times_bind; [apply keeps_times_gets |]. intros c.
    apply keeps_times_bind; [| intros; apply keeps_times_ret].
    destruct (isInitialized c); [apply keeps_times_ret | apply keeps_times_console]. }
  intros tabTimes. apply uninit_bind; [apply uninit_keeps_times, keeps_times_gets |].
  intros settings. apply uninit_bind; [apply uninit_keeps_times, keeps_times_Date_now |].
  intros updatedAt. apply uninit_bind.
  { apply uninit_keeps_times, keeps_times_bind;
      [apply keeps_times_await | intros; apply keeps_times_gets]. }
  intros activeTabs. apply uninit_bind.
  { apply uninit_modifyCache. intros c. apply refreshes_refreshActiveTabs. }
  intros _. apply uninit_bind; [apply uninit_keeps_times, keeps_times_gets |].
  intros settings'. apply uninit_bind.
  { apply uninit_modifyCache. intros c. apply refreshes_refreshAudibleTabs. }
  intros _. apply uninit_bind.
  { destruct (String.eqb (minTabsStrategy settings') "allWindows").
    - apply uninit_onCache. intros c. apply refreshes_find.
    - apply uninit_bind.
      + apply uninit_keeps_times, keeps_times_bind;
          [apply keeps_times_await | intros; apply keeps_times_gets].
      + intros windows. apply uninit_onCache. intros c.
        apply refreshes_candidatesPerWindow. }
  intros candidateTabs. apply uninit_bind; [by apply uninit_modifyCache |].
  intros _. apply uninit_bind.
  { apply uninit_onCache. intros c.
    pose proof (keeps_or_refreshes_recomputeTabTimes updatedAt allTabs c) as [Hi _].
    by destruct (recomputeTabTimes allTabs updatedAt c). }
  intros aliveUrls. apply uninit_bind; [by apply uninit_modifyCache |].
  intros _. apply uninit_bind; [apply uninit_forceSyncTabTimes |].
  intros _. apply uninit_keeps_times, keeps_times_ret.
Qed.

(** X14. A cycle that runs before the cache has been initialized from
    storage never writes the stored time maps: whatever the platform
    answers and whichever call fails, [tabTimes] and [tabTimesByUrl] in
    storage are after the cycle what they were before it, and the cache
    is still uninitialized. The maps a previous session stored cannot be
    overwritten by a cycle that has not loaded them. *)
Theorem uninitialized_cycle_keeps_stored_times (w : World) :
  isInitialized (w_cache w) = false ->
  isInitialized (w_cache (checkToClose w).2) = false
  /\ st_tabTimes (w_storage (checkToClose w).2) = st_tabTimes (w_storage w)
  /\ st_tabTimesByUrl (w_storage (checkToClose w).2) = st_tabTimesByUrl (w_storage w).
Proof.
  revert w. change (keeps_stored_while_uninitialized checkToClose).
  unfold checkToClose.
  apply uninit_bind; [apply uninit_keeps_times, keeps_times_Date_now |].
  intros startTime. apply uninit_try_finally;
    [| apply uninit_keeps_times, keeps_times_checkToClose_finally].
  apply uninit_try_catch; [| intros; apply uninit_keeps_times, keeps_times_console].
  unfold checkToClose_try.
  apply uninit_bind.
  { apply uninit_keeps_times, keeps_times_bind;
      [apply keeps_times_await | intros; apply keeps_times_gets]. }
  intros [|]; [apply uninit_keeps_times, keeps_times_ret |].
  apply uninit_bind; [apply uninit_keeps_times, keeps_times_Date_now |].
  intros now. apply uninit_bind; [apply uninit_keeps_times, keeps_times_gets |].
  intros settings. apply uninit_bind; [apply uninit_checkToClose_locked |].
  intros tabsToClose.
  apply uninit_keeps_times, (keeps_times_archiveCandidates tabsToClose).
Qed.

Lemma uninitialized_cycle_keeps_stored_times_witness :
  isInitialized (w_cache (checkToClose sample_restart_world).2) = false
  /\ st_tabTimes (w_storage (checkToClose sample_restart_world).2)
     = st_tabTimes (w_storage sample_restart_world)
  /\ st_tabTimesByUrl (w_storage (checkToClose sample_restart_world).2)
     = st_tabTimesByUrl (w_storage sample_restart_world).
Proof.
  apply (uninitialized_cycle_keeps_stored_times sample_restart_world). reflexivity.
Defined.

(** ** The scheduler *)

(** X15. [scheduleCheckToClose] never throws and replaces the alarm
    ["checkToClose"] by one whose delay lies between half a minute and
    180 minutes, whatever [stayOpen] is; the delay is half a minute
    when [stayOpen] is at most 10 minutes and 180 minutes when it is at
    least 60 hours. (Between the two the code's delay is a rounded
    quotient, about which nothing is stated here.) *)
Theorem scheduleCheckToClose_delay_range (w : World) :
  exists d : Q,
    scheduleCheckToClose w
    = (Ok tt,
       emit (AlarmCreate CHECK_TO_CLOSE_ALARM d)
         (set_alarms (<[CHECK_TO_CLOSE_ALARM := d]> (w_alarms w))
            (emit (Console "debug" "[scheduleCheckToClose] Scheduling next check") w)))
    /\ (1 # 2 <= d)%Q
    /\ (d <= inject_Z 180)%Q
    /\ (stayOpen (w_settings w) <= 600000 -> (d == 1 # 2)%Q)
    /\ (216000000 <= stayOpen (w_settings w) -> (d == inject_Z 180)%Q).
Proof.
  set (x := (inject_Z (stayOpen (w_settings w)) / inject_Z 20)%Q).
  exists (Qmax (inject_Z 30000) (Qmin (inject_Z 10800000) x) / inject_Z 60000)%Q.
  split; [reflexivity |].
  split; [| split; [| split]].
  - apply Qle_shift_div_l; [reflexivity |].
    eapply Qle_trans; [| apply Q.le_max_l]. by vm_compute.
  - apply Qle_shift_div_r; [reflexivity |].
    apply Q.max_lub; [by vm_compute |].
    eapply Qle_trans; [apply Q.le_min_l | by vm_compute].
  - intros Hlo.
    assert (Qmin (inject_Z 10800000) x <= inject_Z 30000)%Q as H1.
    { eapply Qle_trans; [apply Q.le_min_r |].
      subst x. apply Qle_shift_div_r; [reflexivity |].
      rewrite <- inject_Z_mult, <- Zle_Qle. lia. }
    rewrite (Q.max_l _ _ H1). by vm_compute.
  - intros Hhi.
    assert (inject_Z 10800000 <= x)%Q as H1.
    { subst x. apply Qle_shift_div_l; [reflexivity |].
      rewrite <- inject_Z_mult, <- Zle_Qle. lia. }
    rewrite (Q.min_l _ _ H1), Q.max_r by by vm_compute. by vm_compute.
Qed.

(** ** Startup *)

Lemma keeps_startupComplete_bind {A B} (m : M A) (k : A -> M B) :
  keeps_startupComplete m -> (forall a, keeps_startupComplete (k a)) ->
  keeps_startupComplete (bind m k).
Proof.
  intros Hm Hk w. unfold bind. specialize (Hm w).
  destruct (m w) as [[a | e] w1]; cbn [snd] in *; [| done]. by rewrite Hk.
Qed.

Lemma keeps_startupComplete_await what : keeps_startupComplete (await what).
Proof.
  intros w. unfold await. destruct (faults (w_oracle w)) as [| [] rest]; done.
Qed.

Lemma keeps_startupComplete_gets {A} (f : World -> A) : keeps_startupComplete (gets f).
Proof. done. Qed.

Lemma keeps_startupComplete_ret {A} (a : A) : keeps_startupComplete (ret a).
Proof. done. Qed.

Lemma keeps_startupComplete_detached (m : M unit) :
  keeps_startupComplete m -> keeps_startupComplete (detached m).
Proof. intros Hm w. apply Hm. Qed.

Lemma keeps_startupComplete_getStorageLocalPersist :
  keeps_startupComplete getStorageLocalPersist.
Proof.
  apply keeps_startupComplete_bind; [apply keeps_startupComplete_await | done].
Qed.

Lemma keeps_startupComplete_storage_set_persist p :
  keeps_startupComplete (storage_set_persist p).
Proof.
  apply keeps_startupComplete_bind; [apply keeps_startupComplete_await | done].
Qed.

Lemma keeps_startupComplete_updateClosedCount b :
  keeps_startupComplete (updateClosedCount b).
Proof.
  apply keeps_startupComplete_bind; [| done].
  destruct b; [| done].
  apply keeps_startupComplete_bind;
    [apply keeps_startupComplete_getStorageLocalPersist | done].
Qed.

Lemma startupComplete_bind {A} (m : M A) (k : A -> M unit) :
  keeps_startupComplete m ->
  (forall a, startupComplete_implies_initialized (k a)) ->
  startupComplete_implies_initialized (bind m k).
Proof.
  intros Hm Hk w Hw. unfold bind. specialize (Hm w).
  destruct (m w) as [[a | e] w1]; cbn [snd] in *; [| congruence].
  apply Hk. congruence.
Qed.

Lemma startupComplete_startup_migrate :
  startupComplete_implies_initialized startup_migrate.
Proof.
  intros w. destruct w as [[clk tk fl hn] b st cfg c sc al lg]. cbn. intros ->.
  unfold startup_migrate, ASYNC_LOCK_acquire, startup_locked, scheduleCheckToClose, bind.
  cbn.
  destruct fl as [| [] [| [] [| [] rest]]]; cbn; try discriminate.
  all: destruct (migrateTabTimes _ _ _ _) as [next migrated]; cbn.
  all: destruct (0 <? migrated); cbn; intros _.
  all: by rewrite lookup_insert_eq.
Qed.

(** X16. [startup] raises the [startupComplete] flag, which lets
    [onCreated] track new tabs, only after the cache has been initialized
    from storage: whichever platform calls fail, if the flag is up after
    [startup] then [startup] completed without an exception, the cache is
    initialized and the first check is scheduled. *)
Theorem startupComplete_only_with_initialized_cache (w : World) :
  w_startupComplete w = false ->
  w_startupComplete (startup w).2 = true ->
  (startup w).1 = Ok tt
  /\ isInitialized (w_cache (startup w).2) = true
  /\ is_Some (w_alarms (startup w).2 !! CHECK_TO_CLOSE_ALARM).
Proof.
  revert w. change (startupComplete_implies_initialized startup). unfold startup.
  apply startupComplete_bind; [apply keeps_startupComplete_await |]. intros _.
  apply startupComplete_bind.
  { apply keeps_startupComplete_bind; [apply keeps_startupComplete_await | done]. }
  intros paused. apply startupComplete_bind; [by apply keeps_startupComplete_detached |].
  intros _. apply startupComplete_bind; [done |]. intros settings.
  apply startupComplete_bind.
  { apply keeps_startupComplete_detached, keeps_startupComplete_updateClosedCount. }
  intros _. apply startupComplete_bind; [| intros _; apply startupComplete_startup_migrate].
  destruct (purgeClosedTabs settings); [| done].
  apply keeps_startupComplete_bind; [apply keeps_startupComplete_getStorageLocalPersist |].
  intros p. apply keeps_startupComplete_storage_set_persist.
Qed.

Lemma startupComplete_only_with_initialized_cache_witness :
  (startup sample_restart_world).1 = Ok tt
  /\ isInitialized (w_cache (startup sample_restart_world).2) = true
  /\ is_Some (w_alarms (startup sample_restart_world).2 !! CHECK_TO_CLOSE_ALARM).
Proof.
  apply (startupComplete_only_with_initialized_cache sample_restart_world).
  - reflexivity.
  - vm_compute. reflexivity.
Defined.

(** X17. The migration of [startup] builds the id map afresh from the
    live tabs: it has an entry for exactly the ids of the live tabs, so
    the stored ids of tabs that are gone are dropped; every time in it
    comes from the stored id map, from the stored URL map, or is now;
    and the counter of migrated tabs is at most the number of live
    tabs. *)
Theorem migration_covers_exactly_live_ids (tabTimes tabTimesByUrl : gmap string Z)
    (allTabs : list Tab) (now : Z) :
  let r := migrateTabTimes tabTimes tabTimesByUrl allTabs now in
  (forall k, is_Some (r.1 !! k) <-> k ∈ JS.String_ <$> idsOf allTabs)
  /\ 0 <= r.2 <= Z.of_nat (length allTabs)
  /\ (forall k v,
        r.1 !! k = Some v ->
        tabTimes !! k = Some v \/ (exists url, tabTimesByUrl !! url = Some v) \/ v = now).
Proof.
  induction allTabs as [| tab l IH] using rev_ind.
  - unfold migrateTabTimes. cbn. split; [| split; [lia |]].
    + intros k. rewrite lookup_empty. split; [by intros [? ?] | by inversion 1].
    + intros k v. by rewrite lookup_empty.
  - cbn zeta in *. rewrite migrateTabTimes_snoc, idsOf_snoc, length_app. cbn [length].
    destruct (migrateTabTimes tabTimes tabTimesByUrl l now) as [next migrated].
    cbn [fst snd] in IH. destruct IH as (Hkeys & Hcount & Hvals).
    destruct (tab_id tab) as [tabId |];
      [| rewrite app_nil_r; cbn [fst snd]; split; [done | split; [lia | done]]].
    assert (forall (t : Z) (n : Z),
              0 <= n <= migrated + 1 ->
              (tabTimes !! JS.String_ tabId = Some t
               \/ (exists url, tabTimesByUrl !! url = Some t) \/ t = now) ->
              let r := (<[JS.String_ tabId := t]> next, n) in
              (forall k, is_Some (r.1 !! k) <-> k ∈ JS.String_ <$> idsOf l ++ [tabId])
              /\ 0 <= r.2 <= Z.of_nat (length l + 1)
              /\ (forall k v,
                    r.1 !! k = Some v ->
                    tabTimes !! k = Some v
                    \/ (exists url, tabTimesByUrl !! url = Some v) \/ v = now)) as Hstep.
    { intros t n Hn Ht. cbn [fst snd]. split; [| split; [lia |]].
      - intros k. rewrite fmap_app, elem_of_app. cbn [fmap list_fmap].
        rewrite list_elem_of_singleton, <- Hkeys.
        destruct (decide (JS.String_ tabId = k)) as [<- | Hne].
        + rewrite lookup_insert_eq. split; [by right | by eexists].
        + rewrite lookup_insert_ne by done. split; [by left | intros [? | ?]; [done | congruence]].
      - intros k v. destruct (decide (JS.String_ tabId = k)) as [<- | Hne].
        + rewrite lookup_insert_eq. by intros [= <-].
        + rewrite lookup_insert_ne by done. apply Hvals. }
    destruct (tabTimes !! JS.String_ tabId) as [t |] eqn:Hid.
    { apply Hstep; [lia | by left]. }
    destruct (if truthy_string (tab_url tab)
              then tabTimesByUrl !! default "" (tab_url tab) else None) as [t |] eqn:Hurl.
    + apply Hstep; [lia |]. right. left.
      destruct (truthy_string (tab_url tab)); [by eexists | done].
    + apply Hstep; [lia | by right; right].
Qed.

(** ** The archiver *)

Lemma closeTabs_nil (tabs : list Tab) : closeTabs [] tabs = tabs.
Proof.
  unfold closeTabs. induction tabs as [| tab l IH]; [done |]. cbn.
  rewrite IH. destruct (tab_id tab); [| done].
  by rewrite bool_decide_eq_false_2 by apply not_elem_of_nil.
Qed.

(** What the loop of [wrangleTabs] has done when it completes. *)
Lemma wrangleLoop_result find tabs : forall p ids w p' ids' w',
  wrangleLoop find tabs p ids w = (Ok (p', ids'), w') ->
  ids' = ids ++ idsOf tabs
  /\ totalTabsWrangled p' = totalTabsWrangled p + Z.of_nat (length tabs)
  /\ otherFields p' = otherFields p
  /\ (forall x, x ∈ savedTabs p' ->
        x ∈ savedTabs p \/ exists tab t, tab ∈ tabs /\ x = set_closedAt t tab).
Proof.
  induction tabs as [| tab rest IH]; intros p ids w p' ids' w' Hrun.
  - cbn in Hrun. inversion Hrun; subst. rewrite app_nil_r.
    split; [done |]. split; [cbn; lia |]. split; [done | by left].
  - rewrite wrangleLoop_cons in Hrun.
    destruct (find (savedTabs p) tab) as [pos | e]; [| discriminate].
    apply IH in Hrun as (-> & -> & -> & Hsaved). cbn [totalTabsWrangled otherFields savedTabs] in *.
    split.
    { unfold idsOf. cbn. destruct (tab_id tab); [by rewrite <- app_assoc | done]. }
    split; [cbn [length]; lia |]. split; [done |].
    intros x Hx. destruct (Hsaved x Hx) as [Hin | (tab' & t & Hin & ->)].
    + apply elem_of_cons in Hin as [-> | Hin].
      * right. exists tab, (reading w 0). split; [apply list_elem_of_here | done].
      * left. destruct pos as [q |]; [| done].
        eapply elem_of_sublist; [exact Hin | apply splice_one_sublist].
    + right. exists tab', t. split; [by apply list_elem_of_further | done].
Qed.

Lemma wrangleLoop_faults find tabs : forall p ids w r w',
  wrangleLoop find tabs p ids w = (r, w') ->
  faults (w_oracle w') = faults (w_oracle w).
Proof.
  induction tabs as [| tab rest IH]; intros p ids w r w' Hrun.
  - cbn in Hrun. by inversion Hrun; subst.
  - rewrite wrangleLoop_cons in Hrun.
    destruct (find (savedTabs p) tab) as [pos | e].
    + by apply IH in Hrun.
    + by inversion Hrun; subst.
Qed.

(** What [wrangleTabs] does when its loop cannot throw. *)
Lemma wrangleTabs_run (p : StorageLocalPersistState)
    (tabs : list Tab) (w : World) :
  wrangleOption (w_settings w) <> "hostnameAndTitleMatch" ->
  exists p' w',
    wrangleTabs p tabs w = (Ok p', w')
    /\ totalTabsWrangled p' = totalTabsWrangled p + Z.of_nat (length tabs)
    /\ otherFields p' = otherFields p
    /\ br_tabs (w_browser w') = closeTabs (idsOf tabs) (br_tabs (w_browser w))
    /\ w_storage w' = w_storage w
    /\ w_cache w' = w_cache w
    /\ faults (w_oracle w') = faults (w_oracle w)
    /\ (forall x, x ∈ savedTabs p' ->
          x ∈ savedTabs p \/ exists tab t, tab ∈ tabs /\ x = set_closedAt t tab).
Proof.
  intros Hopt. unfold wrangleTabs.
  destruct tabs as [| tab0 rest]; cbn [length Nat.eqb].
  { exists p, w. rewrite closeTabs_nil. repeat split; try done; [cbn; lia | by left]. }
  set (tabs := tab0 :: rest).
  unfold bind at 1 2 3. cbn [gets].
  destruct (wrangleLoop_completes (hostname (w_oracle w)) (wrangleOption (w_settings w))
              tabs Hopt p [] w) as (p1 & ids1 & w1 & Hrun).
  rewrite Hrun.
  pose proof (wrangleLoop_faults _ _ _ _ _ _ _ Hrun) as Hfaults.
  destruct (wrangleLoop_settings _ _ _ _ _ _ _ Hrun) as (Hcfg & Hlog & Hbr & Hst).
  assert (w_cache w1 = w_cache w) as Hcache.
  { pose proof (keeps_times_wrangleLoop
                  (getURLPositionFilterByWrangleOption (hostname (w_oracle w))
                     (wrangleOption (w_settings w))) tabs p [] w) as Hk.
    rewrite Hrun in Hk. apply Hk. }
  apply wrangleLoop_result in Hrun as (Hids & Htotal & Hother & Hsaved).
  cbn [app] in Hids. subst ids1.
  set (w2 := if (0 <? length (idsOf tabs))%nat
             then (tabs_remove (idsOf tabs) w1).2 else w1).
  assert (br_tabs (w_browser w2) = closeTabs (idsOf tabs) (br_tabs (w_browser w))
          /\ w_storage w2 = w_storage w /\ w_cache w2 = w_cache w
          /\ faults (w_oracle w2) = faults (w_oracle w)) as (Hbr2 & Hst2 & Hc2 & Hf2).
  { subst w2. destruct (idsOf tabs) as [| i ids] eqn:Hids; cbn [length Nat.ltb Nat.leb].
    - by rewrite closeTabs_nil, Hbr.
    - cbn. by rewrite Hbr. }
  assert ((let* _ := if (0 <? length (idsOf tabs))%nat
                     then tabs_remove (idsOf tabs) else ret tt in
           if 0 <? Z.of_nat (length (savedTabs p1)) - maxTabs (w_settings w)
           then
             let '(tabsToTrim, kept) := JS.splice_from (maxTabs (w_settings w)) (savedTabs p1) in
             console "log" "Exceeded maxTabs (%d), trimming older tabs:" ;;;
             modify (emit (ConsoleUrls (tab_url <$> tabsToTrim))) ;;;
             ret (mkPersist (JS.splice_front (maxTabs (w_settings w)) kept).1
                    (totalTabsWrangled p1) (otherFields p1))
           else ret p1) w1
          = (if 0 <? Z.of_nat (length (savedTabs p1)) - maxTabs (w_settings w)
             then
               let '(tabsToTrim, kept) := JS.splice_from (maxTabs (w_settings w)) (savedTabs p1) in
               (console "log" "Exceeded maxTabs (%d), trimming older tabs:" ;;;
                modify (emit (ConsoleUrls (tab_url <$> tabsToTrim))) ;;;
                ret (mkPersist (JS.splice_front (maxTabs (w_settings w)) kept).1
                       (totalTabsWrangled p1) (otherFields p1)))
             else ret p1) w2) as ->.
  { subst w2. unfold bind at 1. by destruct (0 <? length (idsOf tabs))%nat. }
  destruct (0 <? Z.of_nat (length (savedTabs p1)) - maxTabs (w_settings w)).
  - unfold JS.splice_from, JS.splice_front. cbn [fst snd]. cbn zeta.
    eexists _, _. split; [reflexivity |]. cbn.
    repeat split; try done.
    intros x Hx. apply Hsaved.
    eapply elem_of_sublist; [exact Hx |].
    etrans; apply sublist_take.
  - eexists _, _. split; [reflexivity |]. by repeat split.
Qed.

(** X18. Outside the [hostnameAndTitleMatch] mode [wrangleTabs] always
    completes: the running total grows by the number of tabs handed in,
    the other persisted fields are kept, the tabs with the ids handed in
    are closed and no others, neither the storage nor the cache is
    written, and every entry of the resulting archive is an old entry or
    one of the tabs handed in with a closing stamp. *)
Theorem wrangleTabs_counts_and_closes (p : StorageLocalPersistState)
    (tabs : list Tab) (w : World) :
  wrangleOption (w_settings w) <> "hostnameAndTitleMatch" ->
  exists p' w',
    wrangleTabs p tabs w = (Ok p', w')
    /\ totalTabsWrangled p' = totalTabsWrangled p + Z.of_nat (length tabs)
    /\ otherFields p' = otherFields p
    /\ br_tabs (w_browser w') = closeTabs (idsOf tabs) (br_tabs (w_browser w))
    /\ w_storage w' = w_storage w
    /\ w_cache w' = w_cache w
    /\ (forall x, x ∈ savedTabs p' ->
          x ∈ savedTabs p \/ exists tab t, tab ∈ tabs /\ x = set_closedAt t tab).
Proof.
  intros Hopt.
  destruct (wrangleTabs_run p tabs w Hopt)
    as (p' & w' & Hrun & Htotal & Hother & Hbr & Hst & Hcache & _ & Hsaved).
  by exists p', w'.
Qed.

Lemma wrangleTabs_counts_and_closes_witness :
  exists p' w',
    wrangleTabs (mkPersist [] 0 ∅) sample_tabs sample_world = (Ok p', w')
    /\ totalTabsWrangled p' = 0 + Z.of_nat (length sample_tabs)
    /\ otherFields p' = ∅
    /\ br_tabs (w_browser w') = closeTabs (idsOf sample_tabs) (br_tabs (w_browser sample_world))
    /\ w_storage w' = w_storage sample_world
    /\ w_cache w' = w_cache sample_world
    /\ (forall x, x ∈ savedTabs p' ->
          x ∈ [] \/ exists tab t, tab ∈ sample_tabs /\ x = set_closedAt t tab).
Proof.
  apply (wrangleTabs_counts_and_closes (mkPersist [] 0 ∅) sample_tabs sample_world).
  cbn. discriminate.
Defined.

Lemma omap_sublist {A B} (f : A -> option B) (l1 l2 : list A) :
  l1 `sublist_of` l2 -> omap f l1 `sublist_of` omap f l2.
Proof.
  induction 1 as [| x l1 l2 _ IH | x l1 l2 _ IH]; cbn.
  - constructor.
  - destruct (f x); [by constructor | done].
  - destruct (f x); [by apply sublist_cons | done].
Qed.

Lemma findIndex_None {A} (p : A -> bool) (l : list A) :
  JS.findIndex p l = None -> forall x, x ∈ l -> p x = false.
Proof.
  induction l as [| a l IH]; cbn; [intros _ x Hx; by inversion Hx |].
  destruct (p a) eqn:Hpa; [done |].
  destruct (JS.findIndex p l); [done |]. intros _ x Hx.
  apply elem_of_cons in Hx as [-> | Hx]; auto.
Qed.

Lemma findIndex_Some {A} (p : A -> bool) (l : list A) (pos : nat) :
  JS.findIndex p l = Some pos ->
  exists l1 x l2, l = l1 ++ x :: l2 /\ JS.splice_one pos l = l1 ++ l2 /\ p x = true.
Proof.
  revert pos. induction l as [| a l IH]; intros pos; cbn; [done |].
  destruct (p a) eqn:Hpa.
  - intros [= <-]. exists [], a, l. split; [done |]. split; [| done].
    unfold JS.splice_one. cbn. by rewrite drop_0.
  - destruct (JS.findIndex p l) as [q |]; [| done]. intros [= <-].
    destruct (IH q eq_refl) as (l1 & x & l2 & -> & Hsp & Hx).
    exists (a :: l1), x, l2. split; [done |]. split; [| done].
    unfold JS.splice_one in *. cbn. by rewrite Hsp.
Qed.

(** One step of the loop under [exactURLMatch]: the archive without the
    entry found has no entry with the URL of the tab. *)
Lemma findPositionByURL_removes (savedTabs : list Tab) (tab : Tab) :
  NoDup (omap tab_url savedTabs) ->
  let saved := match findPositionByURL savedTabs (tab_url tab) with
               | Some pos => JS.splice_one pos savedTabs
               | None => savedTabs
               end in
  NoDup (omap tab_url (tab :: saved)).
Proof.
  intros Hnd saved.
  assert (NoDup (omap tab_url saved)
          /\ forall u, tab_url tab = Some u -> u ∉ omap tab_url saved) as [Hnd' Hfresh].
  { subst saved. unfold findPositionByURL.
    destruct (JS.findIndex _ savedTabs) as [pos |] eqn:Hfind.
    - apply findIndex_Some in Hfind as (l1 & x & l2 & -> & -> & Hx).
      apply bool_decide_eq_true in Hx.
      rewrite omap_app in Hnd. cbn in Hnd. rewrite Hx in Hnd.
      apply NoDup_app in Hnd as (H1 & H12 & H2). apply NoDup_cons in H2 as [Hx2 H2].
      split.
      + rewrite omap_app. apply NoDup_app. split; [done |]. split; [| done].
        intros u Hu Hu2. apply (H12 u Hu). by apply list_elem_of_further.
      + intros u Hu. rewrite Hu in *. cbn in *. rewrite omap_app, elem_of_app.
        intros [Hin | Hin]; [| done]. apply (H12 u Hin), list_elem_of_here.
    - split; [done |]. intros u Hu Hin.
      apply list_elem_of_omap in Hin as (x & Hx & Hxu).
      pose proof (findIndex_None _ _ Hfind x Hx) as Hp. cbn in Hp.
      apply bool_decide_eq_false in Hp. rewrite Hu in Hp. cbn in Hp. congruence. }
  cbn. destruct (tab_url tab) as [u |]; [| done].
  apply NoDup_cons. split; [by apply Hfresh | done].
Qed.

Lemma wrangleLoop_exactURLMatch_NoDup hostname tabs : forall p ids w p' ids' w',
  wrangleLoop (getURLPositionFilterByWrangleOption hostname "exactURLMatch")
    tabs p ids w = (Ok (p', ids'), w') ->
  NoDup (omap tab_url (savedTabs p)) ->
  NoDup (omap tab_url (savedTabs p')).
Proof.
  induction tabs as [| tab rest IH]; intros p ids w p' ids' w' Hrun Hnd.
  - cbn in Hrun. by inversion Hrun; subst.
  - rewrite wrangleLoop_cons in Hrun. cbn in Hrun.
    eapply IH; [exact Hrun |]. cbn [savedTabs].
    apply (findPositionByURL_removes (savedTabs p) (set_closedAt (reading w 0) tab)), Hnd.
Qed.

(** X19. Under [exactURLMatch] the archive stays free of duplicate
    URLs: when no two entries of the archive have the same (defined)
    URL before [wrangleTabs], none have after it, also when the batch
    itself holds several tabs with one URL. *)
Theorem exactURLMatch_keeps_archive_urls_distinct (p p' : StorageLocalPersistState)
    (tabs : list Tab) (w w' : World) :
  wrangleOption (w_settings w) = "exactURLMatch" ->
  NoDup (omap tab_url (savedTabs p)) ->
  wrangleTabs p tabs w = (Ok p', w') ->
  NoDup (omap tab_url (savedTabs p')).
Proof.
  intros Hopt Hnd. unfold wrangleTabs.
  destruct (length tabs =? 0)%nat; [by intros [= <- <-] |].
  unfold bind at 1 2 3. cbn [gets]. rewrite Hopt.
  destruct (wrangleLoop _ tabs p [] w) as [[[p1 ids1] | e] w1] eqn:Hrun; [| done].
  apply wrangleLoop_exactURLMatch_NoDup in Hrun; [| done].
  unfold bind at 1.
  destruct ((if (0 <? length ids1)%nat then tabs_remove ids1 else ret tt) w1)
    as [[[] | e] w2]; [| done].
  destruct (0 <? Z.of_nat (length (savedTabs p1)) - maxTabs (w_settings w)).
  - unfold JS.splice_from, JS.splice_front. cbn. intros [= <- <-]. cbn.
    eapply sublist_NoDup; [exact Hrun |]. apply omap_sublist.
    etrans; apply sublist_take.
  - by intros [= <- <-].
Qed.

Lemma exactURLMatch_keeps_archive_urls_distinct_witness :
  let r := wrangleTabs (mkPersist [] 0 ∅) duplicate_url_tabs duplicate_url_world in
  NoDup (omap tab_url
           (savedTabs match r.1 with Ok p' => p' | Throw _ => mkPersist [] 0 ∅ end)).
Proof.
  apply (exactURLMatch_keeps_archive_urls_distinct (mkPersist [] 0 ∅) _
           duplicate_url_tabs duplicate_url_world
           (wrangleTabs (mkPersist [] 0 ∅) duplicate_url_tabs duplicate_url_world).2).
  - reflexivity.
  - apply NoDup_nil_2.
  - vm_compute. reflexivity.
Defined.

(** X20. After [wrangleTabs] has archived at least one tab, the archive
    holds at most [maxTabs] entries, whatever it held before; with
    [maxTabs] zero or negative it is empty, the tabs just closed
    included. *)
Theorem archive_never_exceeds_maxTabs (p p' : StorageLocalPersistState)
    (tabs : list Tab) (w w' : World) :
  tabs <> [] ->
  wrangleTabs p tabs w = (Ok p', w') ->
  Z.of_nat (length (savedTabs p')) <= Z.max 0 (maxTabs (w_settings w))
  /\ (maxTabs (w_settings w) <= 0 -> savedTabs p' = []).
Proof.
  intros Htabs. unfold wrangleTabs.
  destruct tabs as [| tab0 rest]; [done |]. cbn [length Nat.eqb].
  unfold bind at 1 2 3. cbn [gets].
  destruct (wrangleLoop _ _ p [] w) as [[[p1 ids1] | e] w1] eqn:Hrun; [| done].
  assert (0 < Z.of_nat (length (savedTabs p1))) as Hpos.
  { rewrite wrangleLoop_cons in Hrun.
    destruct (getURLPositionFilterByWrangleOption _ _ _ _) as [pos | e]; [| done].
    assert (forall tabs q ids w0 q' ids' w0',
              wrangleLoop (getURLPositionFilterByWrangleOption (hostname (w_oracle w))
                             (wrangleOption (w_settings w))) tabs q ids w0
              = (Ok (q', ids'), w0') ->
              savedTabs q <> [] -> savedTabs q' <> []) as Hne.
    { induction tabs as [| t l IH]; intros q ids w0 q' ids' w0' Hr Hq.
      - cbn in Hr. by inversion Hr; subst.
      - rewrite wrangleLoop_cons in Hr.
        destruct (getURLPositionFilterByWrangleOption _ _ _ _) as [pos' | e]; [| done].
        by eapply IH in Hr. }
    eapply Hne in Hrun; [| done]. destruct (savedTabs p1); [done | cbn; lia]. }
  unfold bind at 1.
  destruct ((if (0 <? length ids1)%nat then tabs_remove ids1 else ret tt) w1)
    as [[[] | e] w2]; [| done].
  destruct (0 <? Z.of_nat (length (savedTabs p1)) - maxTabs (w_settings w)) eqn:Htrim.
  - unfold JS.splice_from, JS.splice_front. cbn. intros [= <- <-]. cbn.
    rewrite !length_take. split; [lia |]. intros Hneg.
    replace (Z.to_nat _) with 0%nat; [done |].
    destruct (maxTabs (w_settings w) <? 0) eqn:Hlt; lia.
  - intros [= <- <-]. split; lia.
Qed.

Lemma archive_never_exceeds_maxTabs_witness :
  let r := wrangleTabs (mkPersist [] 0 ∅) sample_tabs sample_world in
  let p' := match r.1 with Ok p' => p' | Throw _ => mkPersist [] 0 ∅ end in
  Z.of_nat (length (savedTabs p')) <= Z.max 0 (maxTabs (w_settings sample_world))
  /\ (maxTabs (w_settings sample_world) <= 0 -> savedTabs p' = []).
Proof.
  apply (archive_never_exceeds_maxTabs (mkPersist [] 0 ∅) _ sample_tabs sample_world
           (wrangleTabs (mkPersist [] 0 ∅) sample_tabs sample_world).2).
  - discriminate.
  - vm_compute. reflexivity.
Defined.

Lemma wrangleLoop_unparsable_url hn tabs tab :
  tab ∈ tabs ->
  hn (default "" (tab_url tab)) = None ->
  forall p ids w, exists e w',
    wrangleLoop (getURLPositionFilterByWrangleOption hn "hostnameAndTitleMatch")
      tabs p ids w = (Throw e, w').
Proof.
  intros Hin Hurl. induction tabs as [| x rest IH]; [by inversion Hin |].
  intros p ids w. rewrite wrangleLoop_cons.
  destruct (getURLPositionFilterByWrangleOption hn "hostnameAndTitleMatch"
              (savedTabs p) x) as [pos | e] eqn:Hfind; [| by eexists _, _].
  apply elem_of_cons in Hin as [<- | Hin]; [| by apply IH].
  cbn in Hfind. unfold findPositionByHostnameAndTitle in Hfind.
  by rewrite Hurl in Hfind.
Qed.

(** X21. Under [hostnameAndTitleMatch] a single tab whose URL the URL
    parser rejects (a tab without URL is looked up as the empty string)
    aborts the whole batch: [wrangleTabs] throws before
    [chrome.tabs.remove] is reached, so no tab is closed, nothing is
    logged and nothing is stored. *)
Theorem hostnameAndTitleMatch_unparsable_url_aborts (p : StorageLocalPersistState)
    (tabs : list Tab) (tab : Tab) (w : World) :
  wrangleOption (w_settings w) = "hostnameAndTitleMatch" ->
  tab ∈ tabs ->
  hostname (w_oracle w) (default "" (tab_url tab)) = None ->
  exists e w',
    wrangleTabs p tabs w = (Throw e, w')
    /\ w_browser w' = w_browser w
    /\ w_storage w' = w_storage w
    /\ w_log w' = w_log w.
Proof.
  intros Hopt Hin Hurl. unfold wrangleTabs.
  destruct tabs as [| tab0 rest]; [by inversion Hin |]. cbn [length Nat.eqb].
  unfold bind at 1 2 3. cbn [gets]. rewrite Hopt.
  destruct (wrangleLoop_unparsable_url (hostname (w_oracle w)) (tab0 :: rest) tab Hin Hurl
              p [] w) as (e & w' & Hrun).
  rewrite Hrun. exists e, w'. split; [done |].
  apply wrangleLoop_settings in Hrun. tauto.
Qed.

Lemma hostnameAndTitleMatch_unparsable_url_aborts_witness :
  let w := mkWorld (mkOracle sample_clock 0 [] (fun _ => None))
             (mkBrowser sample_tabs [mkWindow (Some 7) true] (Some 7))
             (mkStorage ∅ ∅ (mkPersist [] 0 ∅) false)
             (mkSettings 1000 2 "givenWindow" 2 "hostnameAndTitleMatch" [] [] false
                false false false)
             sample_cache true ∅ [] in
  exists e w',
    wrangleTabs (mkPersist [] 0 ∅) sample_tabs w = (Throw e, w')
    /\ w_browser w' = w_browser w
    /\ w_storage w' = w_storage w
    /\ w_log w' = w_log w.
Proof.
  apply (hostnameAndTitleMatch_unparsable_url_aborts (mkPersist [] 0 ∅) sample_tabs
           (sample_tab 1 7 "https://a.example/")).
  - reflexivity.
  - apply list_elem_of_here.
  - reflexivity.
Defined.

(** ** The remaining listeners of the background script *)

Lemma replaceLockedId_spec (addedTabId removedTabId : Z) (lockedIds : list Z) :
  match replaceLockedId addedTabId removedTabId lockedIds with
  | Some lockedIds' =>
      exists l1 l2,
        lockedIds = l1 ++ removedTabId :: l2 /\ (removedTabId ∉ l1)
        /\ lockedIds' = l1 ++ addedTabId :: l2
  | None => removedTabId ∉ lockedIds
  end.
Proof.
  unfold replaceLockedId.
  induction lockedIds as [| i l IH]; cbn; [apply not_elem_of_nil |].
  destruct (bool_decide (i = removedTabId)) eqn:Hi.
  - apply bool_decide_eq_true in Hi as ->. exists [], l.
    split; [done |]. split; [apply not_elem_of_nil |]. cbn. by rewrite drop_0.
  - apply bool_decide_eq_false in Hi.
    destruct (JS.findIndex _ l) as [pos |]; cbn.
    + destruct IH as (l1 & l2 & -> & Hl1 & Heq). exists (i :: l1), l2.
      split; [done |]. split; [| cbn; by rewrite Heq].
      rewrite elem_of_cons. intros [? | ?]; [congruence | done].
    + rewrite elem_of_cons. intros [? | ?]; [congruence | done].
Qed.

(** X22. When a tab is replaced and no platform call fails, the
    listener completes; the array of locked ids it leaves in storage is
    the stored one with the first occurrence of the removed id replaced,
    in place, by the added id, and the stored one itself when the
    removed id was not locked. *)
Theorem replaceTab_relocks_in_place (addedTabId removedTabId : Z)
    (syncLockedIds : list Z) (w : World) :
  faults (w_oracle w) = [] ->
  exists lockedIds' w',
    replaceTab addedTabId removedTabId syncLockedIds w = (Ok lockedIds', w')
    /\ (((removedTabId ∉ syncLockedIds) /\ lockedIds' = syncLockedIds)
        \/ exists l1 l2,
             syncLockedIds = l1 ++ removedTabId :: l2 /\ (removedTabId ∉ l1)
             /\ lockedIds' = l1 ++ addedTabId :: l2).
Proof.
  destruct w as [[clk tk fl hn] b st cfg [m1 m2 i] sc al lg]. cbn. intros ->.
  pose proof (replaceLockedId_spec addedTabId removedTabId syncLockedIds) as Hspec.
  unfold replaceTab, ASYNC_LOCK_acquire, getTabTimes, forceSyncTabTimes, bind, gets,
    try_catch. cbn.
  destruct (replaceLockedId addedTabId removedTabId syncLockedIds) as [l' |]; cbn.
  - destruct i; cbn; destruct (m1 !! JS.String_ removedTabId) as [t |]; cbn.
    all: try destruct (t =? 0); cbn; eexists _, _; (split; [reflexivity |]).
    all: by right.
  - destruct i; cbn; destruct (m1 !! JS.String_ removedTabId) as [t |]; cbn.
    all: try destruct (t =? 0); cbn; eexists _, _; (split; [reflexivity |]).
    all: by left.
Qed.

Lemma replaceTab_relocks_in_place_witness :
  exists lockedIds' w',
    replaceTab 9 1 [2; 1; 3] sample_world = (Ok lockedIds', w')
    /\ (((1 ∉ [2; 1; 3]) /\ lockedIds' = [2; 1; 3])
        \/ exists l1 l2,
             [2; 1; 3] = l1 ++ 1 :: l2 /\ (1 ∉ l1) /\ lockedIds' = l1 ++ 9 :: l2).
Proof.
  apply (replaceTab_relocks_in_place 9 1 [2; 1; 3] sample_world). reflexivity.
Defined.

(** X23. When a tab is replaced and no platform call fails, a non-zero
    cached time of the removed id is carried over: afterwards the added
    id is cached at that time, the removed id has no entry, the other
    entries of the id map and the URL map are as before, and once the
    cache is initialized the stored maps equal the maps in memory. *)
Theorem replaceTab_carries_time_over (addedTabId removedTabId time : Z)
    (syncLockedIds : list Z) (w : World) :
  faults (w_oracle w) = [] ->
  cachedTime (w_cache w) removedTabId = Some time ->
  time <> 0 ->
  addedTabId <> removedTabId ->
  let w' := (replaceTab addedTabId removedTabId syncLockedIds w).2 in
  cachedTime (w_cache w') addedTabId = Some time
  /\ cachedTime (w_cache w') removedTabId = None
  /\ (forall k, k <> JS.String_ addedTabId -> k <> JS.String_ removedTabId ->
        memoryTabTimes (w_cache w') !! k = memoryTabTimes (w_cache w) !! k)
  /\ memoryTabTimesByUrl (w_cache w') = memoryTabTimesByUrl (w_cache w)
  /\ (isInitialized (w_cache w) = true ->
      st_tabTimes (w_storage w') = memoryTabTimes (w_cache w')
      /\ st_tabTimesByUrl (w_storage w') = memoryTabTimesByUrl (w_cache w')).
Proof.
  destruct w as [[clk tk fl hn] b st cfg [m1 m2 i] sc al lg]. unfold cachedTime. cbn.
  intros -> Htime Hne Hids.
  assert (JS.String_ addedTabId <> JS.String_ removedTabId) as Hkeys.
  { intros Heq. by apply String_inj in Heq. }
  unfold replaceTab, ASYNC_LOCK_acquire, getTabTimes, forceSyncTabTimes, bind, gets,
    try_catch. cbn.
  assert (forall m : gmap string Z,
            delete (JS.String_ removedTabId) (<[JS.String_ addedTabId := time]> m)
              !! JS.String_ addedTabId = Some time
            /\ delete (JS.String_ removedTabId) (<[JS.String_ addedTabId := time]> m)
                 !! JS.String_ removedTabId = None
            /\ forall k, k <> JS.String_ addedTabId -> k <> JS.String_ removedTabId ->
                 delete (JS.String_ removedTabId) (<[JS.String_ addedTabId := time]> m) !! k
                 = m !! k) as Hmap.
  { intros m. split; [| split].
    - by rewrite lookup_delete_ne, lookup_insert_eq.
    - by rewrite lookup_delete_eq.
    - intros k Ha Hr. by rewrite lookup_delete_ne, lookup_insert_ne. }
  destruct (Hmap m1) as (Ha & Hr & Hk).
  destruct (replaceLockedId addedTabId removedTabId syncLockedIds) as [l' |]; cbn.
  all: destruct i; cbn; rewrite Htime; cbn.
  all: rewrite (proj2 (Z.eqb_neq _ _) Hne); cbn.
  all: repeat split; try done.
Qed.

Lemma replaceTab_carries_time_over_witness :
  let w' := (replaceTab 9 1 [] sample_world).2 in
  cachedTime (w_cache w') 9 = Some 50
  /\ cachedTime (w_cache w') 1 = None
  /\ (forall k, k <> JS.String_ 9 -> k <> JS.String_ 1 ->
        memoryTabTimes (w_cache w') !! k = memoryTabTimes (w_cache sample_world) !! k)
  /\ memoryTabTimesByUrl (w_cache w') = memoryTabTimesByUrl (w_cache sample_world)
  /\ (isInitialized (w_cache sample_world) = true ->
      st_tabTimes (w_storage w') = memoryTabTimes (w_cache w')
      /\ st_tabTimesByUrl (w_storage w') = memoryTabTimesByUrl (w_cache w')).
Proof.
  apply (replaceTab_carries_time_over 9 1 50 [] sample_world).
  - reflexivity.
  - reflexivity.
  - discriminate.
  - discriminate.
Defined.

(** X24. When the removed tab was locked and the write of the locked
    ids is rejected, the listener throws before it reaches the time
    maps: the cached time of the removed tab is not carried over to the
    added tab, and cache and storage stay as they were. *)
Theorem replaceTab_failed_relock_drops_time (addedTabId removedTabId : Z)
    (syncLockedIds : list Z) (rest : list bool) (w : World) :
  removedTabId ∈ syncLockedIds ->
  faults (w_oracle w) = false :: true :: rest ->
  exists e w',
    replaceTab addedTabId removedTabId syncLockedIds w = (Throw e, w')
    /\ w_cache w' = w_cache w
    /\ w_storage w' = w_storage w.
Proof.
  destruct w as [[clk tk fl hn] b st cfg c sc al lg]. cbn. intros Hin ->.
  pose proof (replaceLockedId_spec addedTabId removedTabId syncLockedIds) as Hspec.
  unfold replaceTab, ASYNC_LOCK_acquire, bind. cbn.
  destruct (replaceLockedId addedTabId removedTabId syncLockedIds) as [l' |]; [| done].
  cbn. by eexists _, _.
Qed.

Lemma replaceTab_failed_relock_drops_time_witness :
  let w := mkWorld (mkOracle sample_clock 0 [false; true] (fun _ => None))
             (mkBrowser sample_tabs [mkWindow (Some 7) true] (Some 7))
             (mkStorage ∅ ∅ (mkPersist [] 0 ∅) false)
             sample_settings sample_cache true ∅ [] in
  exists e w',
    replaceTab 9 1 [1] w = (Throw e, w')
    /\ w_cache w' = w_cache w
    /\ w_storage w' = w_storage w.
Proof.
  apply (replaceTab_failed_relock_drops_time 9 1 [1] []).
  - apply list_elem_of_here.
  - reflexivity.
Defined.

(** X25. The [windows.onRemoved] listener never changes the cache or
    the live tabs; it leaves the storage alone while a window is left,
    and when the last window is gone (and the cache is initialized and
    no call fails) it leaves both stored maps equal to the maps in
    memory. *)
Theorem windows_onRemoved_syncs_on_last_window (w : World) :
  let w' := (windows_onRemoved w).2 in
  w_cache w' = w_cache w
  /\ w_browser w' = w_browser w
  /\ (br_windows (w_browser w) <> [] -> w_storage w' = w_storage w)
  /\ (br_windows (w_browser w) = [] -> faults (w_oracle w) = [] ->
      isInitialized (w_cache w) = true ->
      st_tabTimes (w_storage w') = memoryTabTimes (w_cache w)
      /\ st_tabTimesByUrl (w_storage w') = memoryTabTimesByUrl (w_cache w)).
Proof.
  destruct w as [[clk tk fl hn] [tabs wins lf] st cfg [m1 m2 i] sc al lg]. cbn.
  unfold windows_onRemoved, windows_getAll, forceSyncTabTimes, bind, gets, try_catch. cbn.
  destruct fl as [| [] [| [] rest]]; cbn.
  all: destruct wins as [| win wins]; cbn; try done.
  all: destruct i; cbn; done.
Qed.

(** ** debounce *)

Lemma burst_lastCall {A} (ms : Z) (calls : list (Z * A)) : forall now args,
  burst ms now calls -> now <= (lastCall (now, args) calls).1.
Proof.
  induction calls as [| [t a] rest IH]; intros now args; cbn; [lia |].
  intros [Hnow Hrest]. specialize (IH t a Hrest). lia.
Qed.

Lemma debounce_run_burst {A} (ms : Z) (calls : list (Z * A)) : forall now args,
  0 < ms ->
  burst ms now calls ->
  debounce_run ms None calls (mkDebounceState (Some (now + ms, args)) None)
  = ([], mkDebounceState
           (Some ((lastCall (now, args) calls).1 + ms, (lastCall (now, args) calls).2))
           None).
Proof.
  induction calls as [| [t a] rest IH]; intros now args Hms; cbn; [done |].
  intros [Hnow Hrest]. unfold runTimers; cbn.
  rewrite (proj2 (Z.leb_gt _ _)) by lia. unfold debounce; cbn.
  rewrite Z.max_r by lia. by rewrite IH.
Qed.

(** X26. Without [maxWait], a burst of calls of the debounced function,
    each less than [ms] after the one before it, calls [fn] not at all
    while it lasts and exactly once after it, [ms] after the last call
    and with the arguments of the last call. *)
Theorem debounce_burst_calls_once_with_last_args {A} (ms : Z) (first : Z * A)
    (calls : list (Z * A)) :
  0 < ms ->
  burst ms first.1 calls ->
  let r := debounce_run ms None (first :: calls) debounce_idle in
  let last := lastCall first calls in
  r.1 = []
  /\ debounce_flush r.2 = [last.2]
  /\ forall now,
       runTimers now r.2
       = if last.1 + ms <=? now then ([last.2], debounce_idle) else ([], r.2).
Proof.
  destruct first as [t0 a0]. intros Hms Hburst. cbn -[lastCall].
  unfold debounce; cbn -[lastCall]. rewrite Z.max_r by lia.
  rewrite debounce_run_burst by done. cbn -[lastCall]. done.
Qed.

Lemma debounce_burst_calls_once_with_last_args_witness :
  let r := debounce_run 1000 None [(0, "a"); (500, "b"); (1200, "c")] debounce_idle in
  let last := lastCall (0, "a") [(500, "b"); (1200, "c")] in
  r.1 = []
  /\ debounce_flush r.2 = [last.2]
  /\ forall now,
       runTimers now r.2
       = if last.1 + 1000 <=? now then ([last.2], debounce_idle) else ([], r.2).
Proof.
  apply (debounce_burst_calls_once_with_last_args 1000 (0, "a") [(500, "b"); (1200, "c")]).
  - lia.
  - cbn. lia.
Defined.

Lemma debounce_run_maxWait {A} (ms wait first : Z) (firstArgs : A)
    (calls : list (Z * A)) : forall now args,
  0 < ms -> 0 < wait ->
  burst ms now calls ->
  let r := debounce_run ms (Some wait) calls
             (mkDebounceState (Some (now + ms, args)) (Some (first + wait, firstArgs))) in
  hd_error (r.1 ++ debounce_flush r.2)
  = Some (if first + wait <=? (lastCall (now, args) calls).1 + ms
          then firstArgs else (lastCall (now, args) calls).2).
Proof.
  induction calls as [| [t a] rest IH]; intros now args Hms Hwait; [cbn | cbn -[lastCall]].
  - intros _. by destruct (first + wait <=? now + ms).
  - intros [Hnow Hrest]. cbn [lastCall]. unfold runTimers; cbn.
    pose proof (burst_lastCall ms rest t a Hrest) as Hlast.
    destruct (first + wait <=? now + ms) eqn:Hdue.
    + destruct (first + wait <=? t) eqn:Hfire.
      * destruct (debounce_run ms (Some wait) rest _) as [later s']. cbn.
        rewrite (proj2 (Z.leb_le _ _)); [done |]. apply Z.leb_le in Hfire. lia.
      * unfold debounce; cbn. rewrite Z.max_r by lia.
        specialize (IH t a Hms Hwait Hrest). cbn -[lastCall] in IH.
        by destruct (debounce_run ms (Some wait) rest _) as [later s'].
    + rewrite (proj2 (Z.leb_gt _ _)) by lia.
      unfold debounce; cbn. rewrite Z.max_r by lia.
      specialize (IH t a Hms Hwait Hrest). cbn -[lastCall] in IH.
      by destruct (debounce_run ms (Some wait) rest _) as [later s'].
Qed.

(** X27. With [maxWait], when a burst of calls (each less than [ms]
    after the one before it) lasts so long that the [maxWait] timeout of
    its first call is due no later than the timeout of its last call,
    the first call of [fn] is made with the arguments of the first call
    of the burst, not with the latest ones: the [maxWait] callback keeps
    the arguments of the call that set it. *)
Theorem debounce_maxWait_calls_with_first_args {A} (ms wait : Z) (first : Z * A)
    (calls : list (Z * A)) :
  0 < ms -> 0 < wait ->
  burst ms first.1 calls ->
  first.1 + wait <= (lastCall first calls).1 + ms ->
  let r := debounce_run ms (Some wait) (first :: calls) debounce_idle in
  hd_error (r.1 ++ debounce_flush r.2) = Some first.2.
Proof.
  destruct first as [t0 a0]. intros Hms Hwait Hburst Hlong. cbn -[lastCall] in *.
  unfold debounce; cbn -[lastCall].
  rewrite (proj2 (Z.eqb_neq _ _)) by lia. rewrite !Z.max_r by lia.
  pose proof (debounce_run_maxWait ms wait t0 a0 calls t0 a0 Hms Hwait Hburst) as Hrun.
  cbn -[lastCall] in Hrun.
  destruct (debounce_run ms (Some wait) calls _) as [later s']. cbn -[lastCall] in *.
  rewrite Hrun. by rewrite (proj2 (Z.leb_le _ _)).
Qed.

Lemma debounce_maxWait_calls_with_first_args_witness :
  let r := debounce_run 1000 (Some 1500) [(0, "a"); (500, "b"); (1200, "c")]
             debounce_idle in
  hd_error (r.1 ++ debounce_flush r.2) = Some "a".
Proof.
  apply (debounce_maxWait_calls_with_first_args 1000 1500 (0, "a")
           [(500, "b"); (1200, "c")]).
  - lia.
  - lia.
  - cbn. lia.
  - cbn. lia.
Defined.

(** ** The timer-based variant and tabs that share a URL *)

(** X28. In the timer-based variant of the file the recompute loop
    keeps, for a URL that live tabs with an id have, the oldest of the
    times it gives to those tabs: the entry exists, it is the time of one
    of them, and it is at most the time of each of them. *)
Theorem timer_variant_url_entry_is_oldest (updatedAt : Z) (tabTimes : gmap string Z)
    (url : string) (allTabs : list Tab) (tab : Tab) :
  url <> "" ->
  tab ∈ allTabs ->
  filedUnder url tab ->
  exists t,
    (TimerVariant.recomputeTabTimes allTabs updatedAt tabTimes).2 !! url = Some t
    /\ t <= recomputedTime tabTimes updatedAt tab
    /\ exists tab', tab' ∈ allTabs /\ filedUnder url tab'
                    /\ recomputedTime tabTimes updatedAt tab' = t.
Proof.
  intros Hurl Hin Hfiled.
  pose proof (TimerVariant_keeps_oldest updatedAt tabTimes url Hurl allTabs) as H.
  destruct (_ !! url) as [t |]; [| by destruct (H tab Hin)].
  destruct H as [Hex Hmin]. exists t. split; [done |]. split; [by apply Hmin | done].
Qed.

Lemma timer_variant_url_entry_is_oldest_witness :
  let tabTimes : gmap string Z := <["1" := 4800]> (<["2" := 4500]> ∅) in
  exists t,
    (TimerVariant.recomputeTabTimes duplicate_url_tabs 5002 tabTimes).2 !! duplicate_url
    = Some t
    /\ t <= recomputedTime tabTimes 5002 (sample_tab 1 7 duplicate_url)
    /\ exists tab', tab' ∈ duplicate_url_tabs /\ filedUnder duplicate_url tab'
                    /\ recomputedTime tabTimes 5002 tab' = t.
Proof.
  apply (timer_variant_url_entry_is_oldest 5002
           (<["1" := 4800]> (<["2" := 4500]> ∅)) duplicate_url duplicate_url_tabs
           (sample_tab 1 7 duplicate_url)).
  - discriminate.
  - apply list_elem_of_here.
  - split; [by eexists | reflexivity].
Defined.

(** ** The cycle and the archiver together *)

(** X29. [wrangleTabsAndPersist] asks the browser to close the tabs
    before it stores the archive: when the archive is read but its write
    is rejected, the tabs are closed all the same and the stored archive
    is as before, so that the closed tabs appear in no archive. *)
Theorem rejected_archive_write_loses_closed_tabs (tabs : list Tab) (rest : list bool)
    (w : World) :
  wrangleOption (w_settings w) <> "hostnameAndTitleMatch" ->
  tabs <> [] ->
  faults (w_oracle w) = false :: true :: rest ->
  exists e w',
    wrangleTabsAndPersist tabs w = (Throw e, w')
    /\ br_tabs (w_browser w') = closeTabs (idsOf tabs) (br_tabs (w_browser w))
    /\ w_storage w' = w_storage w.
Proof.
  intros Hopt Htabs Hfaults. unfold wrangleTabsAndPersist.
  destruct tabs as [| tab0 l]; [done |]. cbn [length Nat.eqb].
  set (tabs := tab0 :: l).
  unfold bind at 1, getStorageLocalPersist, bind at 1, await. rewrite Hfaults. cbn [gets].
  set (w0 := set_oracle _ w).
  destruct (wrangleTabs_run (st_persistLocal (w_storage w0)) tabs w0 Hopt)
    as (p' & w' & Hrun & _ & _ & Hbr & Hst & _ & Hf & _).
  unfold bind at 1. rewrite Hrun.
  unfold storage_set_persist, bind, await. rewrite Hf. subst w0. cbn.
  eexists _, _. split; [reflexivity |]. cbn. split; [exact Hbr | exact Hst].
Qed.

Lemma rejected_archive_write_loses_closed_tabs_witness :
  let w := mkWorld (mkOracle sample_clock 0 [false; true] (fun _ => None))
             (mkBrowser sample_tabs [mkWindow (Some 7) true] (Some 7))
             (mkStorage ∅ ∅ (mkPersist [] 0 ∅) false)
             sample_settings sample_cache true ∅ [] in
  exists e w',
    wrangleTabsAndPersist sample_tabs w = (Throw e, w')
    /\ br_tabs (w_browser w') = closeTabs (idsOf sample_tabs) (br_tabs (w_browser w))
    /\ w_storage w' = w_storage w.
Proof.
  apply (rejected_archive_write_loses_closed_tabs sample_tabs []).
  - cbn. discriminate.
  - discriminate.
  - reflexivity.
Defined.

Lemma checkToClose_finally_frame startTime w :
  w_browser (checkToClose_finally startTime w).2 = w_browser w
  /\ w_storage (checkToClose_finally startTime w).2 = w_storage w.
Proof.
  destruct w as [[clk tk fl hn] b st cfg c sc al lg].
  unfold checkToClose_finally, scheduleCheckToClose, bind. cbn.
  by destruct (5000 <? _).
Qed.

Lemma checkToClose_browser (w : World) :
  w_browser (checkToClose w).2 = w_browser (checkToClose_try (tick w)).2
  /\ w_storage (checkToClose w).2 = w_storage (checkToClose_try (tick w)).2.
Proof.
  set (startTime := clock (w_oracle w) (ticks (w_oracle w))).
  assert ((checkToClose w).2
          = (try_finally
               (try_catch checkToClose_try (fun _ => console "error" "[checkToClose]"))
               (checkToClose_finally startTime) (tick w)).2) as -> by reflexivity.
  unfold try_finally, try_catch.
  destruct (checkToClose_try (tick w)) as [[[] | e] w2]; cbn [snd].
  - destruct (checkToClose_finally_frame startTime w2) as [Hb Hs].
    by destruct (checkToClose_finally startTime w2) as [[[] | e] w3].
  - change (console "error" "[checkToClose]" w2)
      with (Ok tt, emit (Console "error" "[checkToClose]") w2).
    cbn beta iota.
    destruct (checkToClose_finally_frame startTime
                (emit (Console "error" "[checkToClose]") w2)) as [Hb Hs].
    by destruct (checkToClose_finally startTime _) as [[[] | e'] w4].
Qed.

Lemma archiveCandidates_run (tabs : list Tab) (w : World) :
  faults (w_oracle w) = [] ->
  wrangleOption (w_settings w) <> "hostnameAndTitleMatch" ->
  exists w',
    archiveCandidates tabs w = (Ok tt, w')
    /\ br_tabs (w_browser w') = closeTabs (idsOf tabs) (br_tabs (w_browser w))
    /\ totalTabsWrangled (st_persistLocal (w_storage w'))
       = totalTabsWrangled (st_persistLocal (w_storage w)) + Z.of_nat (length tabs)
    /\ (forall x, x ∈ savedTabs (st_persistLocal (w_storage w')) ->
          x ∈ savedTabs (st_persistLocal (w_storage w))
          \/ exists tab t, tab ∈ tabs /\ x = set_closedAt t tab).
Proof.
  intros Hfaults Hopt. unfold archiveCandidates, ASYNC_LOCK_acquire.
  destruct tabs as [| tab0 l] eqn:Htabs; cbn [length Nat.ltb Nat.leb].
  { exists w. rewrite closeTabs_nil. cbn. split; [done |]. split; [done |].
    split; [lia | by left]. }
  rewrite <- Htabs.
  unfold bind at 1, getStorageLocalPersist, bind at 1, await. rewrite Hfaults. cbn [gets].
  destruct (wrangleTabs_run (st_persistLocal (w_storage w)) tabs w Hopt)
    as (p' & w2 & Hrun & Htotal & _ & Hbr2 & Hst2 & _ & Hf2 & Hsaved).
  unfold bind at 1. rewrite Hrun.
  unfold storage_set_persist, bind, await. rewrite Hf2, Hfaults. cbn.
  eexists. split; [reflexivity |]. cbn. subst tabs. by rewrite Htotal.
Qed.

(** X30. A cycle that is not paused and meets no failing platform
    call (outside the [hostnameAndTitleMatch] mode, where the archiver
    can throw) closes exactly the candidates its evaluation returns: the
    live tabs afterwards are the live tabs before without those whose id
    is a candidate's, the stored running total has grown by the number
    of candidates, and every entry of the stored archive is an old entry
    or a candidate with a closing stamp. *)
Theorem cycle_closes_and_archives_the_candidates (w : World) :
  faults (w_oracle w) = [] ->
  st_paused (w_storage w) = false ->
  wrangleOption (w_settings w) <> "hostnameAndTitleMatch" ->
  let candidates :=
    (evaluate (w_settings w) (cycle_cutOff w) (cycle_snapshot w) (w_cache w)).1 in
  let w' := (checkToClose w).2 in
  br_tabs (w_browser w') = closeTabs (idsOf candidates) (br_tabs (w_browser w))
  /\ totalTabsWrangled (st_persistLocal (w_storage w'))
     = totalTabsWrangled (st_persistLocal (w_storage w)) + Z.of_nat (length candidates)
  /\ (forall x, x ∈ savedTabs (st_persistLocal (w_storage w')) ->
        x ∈ savedTabs (st_persistLocal (w_storage w))
        \/ exists tab t, tab ∈ candidates /\ x = set_closedAt t tab).
Proof.
  intros Hfaults Hpaused Hopt candidates w'.
  destruct (checkToClose_browser w) as [Hbr Hst]. subst w'. rewrite Hbr, Hst.
  destruct (checkToClose_locked_run (tick (tick w)) (cycle_cutOff w) Hfaults)
    as (w1 & Hlocked & _ & Hbr1 & Hcfg1 & Hor1 & Hpl1 & _ & _).
  destruct (checkToClose_try_run w Hfaults Hpaused) as (w1' & Hlocked' & _ & _ & ->).
  fold candidates.
  assert (w1' = w1) as ->.
  { cbn in Hlocked, Hlocked'. rewrite Hlocked' in Hlocked.
    change (reading (tick (tick w)) 0) with (cycle_updatedAt w) in Hlocked. congruence. }
  assert (faults (w_oracle w1) = []) as Hf1 by by rewrite Hor1.
  assert (wrangleOption (w_settings w1) <> "hostnameAndTitleMatch") as Hopt1
    by by rewrite Hcfg1.
  destruct (archiveCandidates_run candidates w1 Hf1 Hopt1)
    as (w2 & -> & Hbr2 & Htotal & Hsaved).
  cbn [snd]. rewrite Hbr2, Hbr1, Htotal, Hpl1. split; [done |]. split; [done |].
  intros x Hx. destruct (Hsaved x Hx) as [Hold | Hnew]; [left | by right].
  by rewrite Hpl1 in Hold.
Qed.

Lemma cycle_closes_and_archives_the_candidates_witness :
  let candidates :=
    (evaluate (w_settings sample_world) (cycle_cutOff sample_world)
       (cycle_snapshot sample_world) (w_cache sample_world)).1 in
  let w' := (checkToClose sample_world).2 in
  br_tabs (w_browser w') = closeTabs (idsOf candidates) (br_tabs (w_browser sample_world))
  /\ totalTabsWrangled (st_persistLocal (w_storage w'))
     = totalTabsWrangled (st_persistLocal (w_storage sample_world))
       + Z.of_nat (length candidates)
  /\ (forall x, x ∈ savedTabs (st_persistLocal (w_storage w')) ->
        x ∈ savedTabs (st_persistLocal (w_storage sample_world))
        \/ exists tab t, tab ∈ candidates /\ x = set_closedAt t tab).
Proof.
  apply (cycle_closes_and_archives_the_candidates sample_world).
  - reflexivity.
  - reflexivity.
  - cbn. discriminate.
Defined.

(** ** Locked ids in a whole cycle *)

Lemma foldl_lookup_other {A} (f : Cache -> A -> Cache) (l : list A) (k : string) :
  (forall c a, a ∈ l -> memoryTabTimes (f c a) !! k = memoryTabTimes c !! k) ->
  forall c, memoryTabTimes (foldl f c l) !! k = memoryTabTimes c !! k.
Proof.
  induction l as [| a l IH]; intros Hf c; [done |]. cbn [foldl].
  rewrite IH; [apply Hf, list_elem_of_here |].
  intros c' a' Hin. by apply Hf, list_elem_of_further.
Qed.

Lemma setTabTimeSilent_other (k k' : string) (t : Z) (c : Cache) :
  k' <> k -> memoryTabTimes (setTabTimeSilent k' t c) !! k = memoryTabTimes c !! k.
Proof. intros Hne. cbn. by rewrite lookup_insert_ne. Qed.

Lemma String_opt_other (o : option Z) (tabId : Z) :
  o <> Some tabId -> JS.String_opt o <> JS.String_ tabId.
Proof. intros Hne Heq. by apply String_opt_Some_inv in Heq. Qed.

Lemma refreshActiveTabs_other activeTabs u c tabId :
  (forall a, a ∈ activeTabs -> tab_id a <> Some tabId) ->
  memoryTabTimes (refreshActiveTabs activeTabs u c) !! JS.String_ tabId
  = memoryTabTimes c !! JS.String_ tabId.
Proof.
  intros Hother. unfold refreshActiveTabs. apply foldl_lookup_other.
  intros c' a Hin. by apply setTabTimeSilent_other, String_opt_other, Hother.
Qed.

Lemma refreshAudibleTabs_other b allTabs u c tabId :
  (b = true -> forall a, a ∈ allTabs -> tab_id a = Some tabId -> tab_audible a = false) ->
  memoryTabTimes (refreshAudibleTabs b allTabs u c) !! JS.String_ tabId
  = memoryTabTimes c !! JS.String_ tabId.
Proof.
  intros Hother. unfold refreshAudibleTabs. destruct b; [| done].
  apply foldl_lookup_other. intros c' a Hin.
  destruct (tab_audible a) eqn:Haud; [| done].
  apply setTabTimeSilent_other, String_opt_other. intros Hid.
  rewrite (Hother eq_refl a Hin Hid) in Haud. discriminate.
Qed.

Lemma resetTabTimes_other u b tabs c tabId :
  (forall x, x ∈ tabs -> tab_id x <> Some tabId) ->
  memoryTabTimes (resetTabTimes u b tabs c) !! JS.String_ tabId
  = memoryTabTimes c !! JS.String_ tabId.
Proof.
  intros Hother. unfold resetTabTimes. apply foldl_lookup_other.
  intros c' x Hin. specialize (Hother x Hin).
  destruct (tab_id x) as [i |]; [| done]. destruct b; [| done].
  apply setTabTimeSilent_other. intros Heq. apply String_inj in Heq. congruence.
Qed.

Lemma collectCandidates_other lockedIds u tabsToCut tabId : forall c,
  (forall x, x ∈ tabsToCut -> tab_id x <> Some tabId) ->
  memoryTabTimes (collectCandidates lockedIds u tabsToCut c).2 !! JS.String_ tabId
  = memoryTabTimes c !! JS.String_ tabId.
Proof.
  induction tabsToCut as [| x rest IH]; intros c Hother; [done |]. cbn.
  assert (forall y, y ∈ rest -> tab_id y <> Some tabId) as Hrest.
  { intros y Hy. by apply Hother, list_elem_of_further. }
  pose proof (Hother x (list_elem_of_here _ _)) as Hx.
  destruct (tab_id x) as [i |]; [| by apply IH].
  destruct (bool_decide (i ∈ lockedIds)).
  - rewrite IH by done. apply setTabTimeSilent_other.
    intros Heq. apply String_inj in Heq. congruence.
  - specialize (IH c Hrest). by destruct (collectCandidates lockedIds u rest c).
Qed.

(** A group leaves alone the time of an id that no tab passing the
    filter has. *)
Lemma find_other toCut minTabs lockedIds u (f : Tab -> bool) tabs b c tabId :
  (forall x, f x = true -> tab_id x <> Some tabId) ->
  memoryTabTimes (findTabsToCloseCandidates toCut minTabs lockedIds u f tabs b c).2
    !! JS.String_ tabId
  = memoryTabTimes c !! JS.String_ tabId.
Proof.
  intros Hf. unfold findTabsToCloseCandidates.
  assert (forall x, x ∈ List.filter f tabs -> tab_id x <> Some tabId) as Hfiltered.
  { intros x Hx. apply list_elem_of_In, filter_In in Hx as [_ Hx]. by apply Hf. }
  destruct (_ <=? 0); cbn [snd]; [by apply resetTabTimes_other |].
  destruct (length _ =? 0)%nat; cbn [snd]; [done |].
  apply collectCandidates_other. intros x Hx. apply Hfiltered.
  unfold JS.splice_front in Hx. cbn [fst] in Hx.
  apply (subseteq_take _ _) in Hx.
  apply list_elem_of_In, filter_In in Hx as [Hx _]. by apply list_elem_of_In.
Qed.

Lemma candidatesPerWindow_other toCut minTabs lockedIds u (f : Tab -> bool)
    allTabs windows tabId :
  (forall x, f x = true -> tab_id x <> Some tabId) ->
  forall c,
    memoryTabTimes (candidatesPerWindow toCut minTabs lockedIds u f allTabs windows c).2
      !! JS.String_ tabId
    = memoryTabTimes c !! JS.String_ tabId.
Proof.
  intros Hf c. unfold candidatesPerWindow.
  induction windows as [| win ws IH] using rev_ind; [done |].
  rewrite foldl_app. cbn [foldl].
  destruct (foldl _ _ ws) as [acc c1]. cbn [snd] in IH.
  destruct (win_id win) as [wid |]; [| done].
  pose proof (find_other toCut minTabs lockedIds u f
                (default [] (tabsByWindowId allTabs !! wid)) (win_focused win) c1 tabId Hf)
    as Hfind.
  destruct (findTabsToCloseCandidates _ _ _ _ _ _ _ _) as [cands c2].
  cbn [snd] in *. congruence.
Qed.

Lemma evaluate_snd_stages settings cutOff env c :
  let u := snap_updatedAt env in
  let toCut : gset (option Z) :=
    list_to_set (getTabsOlderThan (memoryTabTimes c) cutOff) in
  let c0 := refreshAudibleTabs (filterAudio settings) (snap_allTabs env) u
              (refreshActiveTabs (snap_activeTabs env) u c) in
  let c1 :=
    (if String.eqb (minTabsStrategy settings) "allWindows"
     then findTabsToCloseCandidates toCut (minTabs settings)
            (list_to_set (lockedIds settings)) u
            (createShouldTabBeClosedFilter settings) (snap_allTabs env) false c0
     else candidatesPerWindow toCut (minTabs settings)
            (list_to_set (lockedIds settings)) u
            (createShouldTabBeClosedFilter settings) (snap_allTabs env)
            (snap_windows env) c0).2 in
  memoryTabTimes (evaluate settings cutOff env c).2
  = memoryTabTimes
      (recomputeTabTimes (snap_allTabs env) u (cleanUpTabTimes (snap_allTabs env) c1)).1.
Proof.
  intros u toCut c0 c1. subst c1. unfold evaluate. fold u. fold toCut. fold c0.
  destruct (String.eqb (minTabsStrategy settings) "allWindows").
  - destruct (findTabsToCloseCandidates _ _ _ _ _ _ _ _) as [cands c1]. cbn [snd].
    by destruct (recomputeTabTimes _ _ _).
  - destruct (candidatesPerWindow _ _ _ _ _ _ _ _) as [cands c1]. cbn [snd].
    by destruct (recomputeTabTimes _ _ _).
Qed.

(** C4, as the code has it. A tab whose id is in [lockedIds] is never
    among the candidates of a cycle, because the filter of the cycle
    removes it before the group is counted and trimmed: it is never one
    of the trimmed candidates, so that the branch of the final loop
    that refreshes a locked tab is not reached. Its cached time is
    neither removed nor refreshed: a live locked tab that the cycle does
    not refresh as an active or audible tab keeps the (non-zero) time
    the cache held for it. *)
Theorem locked_never_candidate_nor_refreshed (settings : Settings) (cutOff : Z)
    (env : Snapshot) (c : Cache) (tab : Tab) (tabId : Z) :
  tab_id tab = Some tabId ->
  tabId ∈ lockedIds settings ->
  let r := evaluate settings cutOff env c in
  (forall x, x ∈ r.1 -> tab_id x <> Some tabId)
  /\ (forall group,
        tab ∉ trimmed (toCutSet (memoryTabTimes c) cutOff) (minTabs settings)
                (createShouldTabBeClosedFilter settings) group)
  /\ (forall t,
        tab ∈ snap_allTabs env ->
        cachedTime c tabId = Some t -> t <> 0 ->
        (forall a, a ∈ snap_activeTabs env -> tab_id a <> Some tabId) ->
        (filterAudio settings = true ->
         forall a, a ∈ snap_allTabs env -> tab_id a = Some tabId -> tab_audible a = false) ->
        cachedTime r.2 tabId = Some t).
Proof.
  intros Hid Hlocked r.
  assert (forall x, createShouldTabBeClosedFilter settings x = true ->
                    tab_id x <> Some tabId) as Hfilter.
  { intros x Hx Hxid.
    apply (createShouldTabBeClosedFilter_unlocked settings x tabId Hx Hxid).
    by apply elem_of_list_to_set. }
  split; [| split].
  - intros x Hx. subst r. rewrite evaluate_fst in Hx.
    apply elem_of_cycleCandidates in Hx as (_ & Hx & _). by apply Hfilter.
  - intros group Hin. apply elem_of_trimmed in Hin as (_ & Hin & _).
    by apply (Hfilter tab Hin).
  - intros t Hlive Hcached Ht Hactive Haudible. unfold cachedTime in *. subst r.
    rewrite evaluate_snd_stages, recomputeTabTimes_lookup.
    rewrite bool_decide_eq_true_2 by by eapply elem_of_String_idsOf.
    rewrite cleanUpTabTimes_lookup.
    rewrite bool_decide_eq_true_2 by by eapply elem_of_live_keys.
    assert (forall c1 : Cache,
              memoryTabTimes c1 !! JS.String_ tabId = Some t ->
              Some (JS.or_default (memoryTabTimes c1 !! JS.String_ tabId)
                      (snap_updatedAt env)) = Some t) as Hkeep.
    { intros c1 ->. cbn. by rewrite (proj2 (Z.eqb_neq _ _) Ht). }
    apply Hkeep.
    destruct (String.eqb (minTabsStrategy settings) "allWindows").
    + rewrite find_other by done.
      by rewrite refreshAudibleTabs_other, refreshActiveTabs_other.
    + rewrite candidatesPerWindow_other by done.
      by rewrite refreshAudibleTabs_other, refreshActiveTabs_other.
Qed.

Lemma locked_never_candidate_nor_refreshed_witness :
  let tab := sample_tab 1 7 "https://a.example/" in
  let env := cycle_snapshot locked_tab_world in
  let r := evaluate locked_tab_settings 4001 env sample_cache in
  (forall x, x ∈ r.1 -> tab_id x <> Some 1)
  /\ (tab ∉ trimmed (toCutSet (memoryTabTimes sample_cache) 4001) 2
              (createShouldTabBeClosedFilter locked_tab_settings) sample_tabs)
  /\ cachedTime r.2 1 = Some 50.
Proof.
  destruct (locked_never_candidate_nor_refreshed locked_tab_settings 4001
              (cycle_snapshot locked_tab_world) sample_cache
              (sample_tab 1 7 "https://a.example/") 1) as (Hnot & Htrim & Hkept).
  - reflexivity.
  - apply list_elem_of_here.
  - split; [exact Hnot |]. split; [apply Htrim |]. apply Hkept.
    + apply list_elem_of_here.
    + reflexivity.
    + discriminate.
    + intros a Ha. by inversion Ha.
    + discriminate.
Defined.

(** C4 as the specification words it fails: tab 1 of the sample window
    is past the cutoff and, unlocked, is the one candidate of the cycle.
    With its id locked it is not a candidate, and its cached time is
    not refreshed to the time the cycle stamps (5002): the cache, and
    after [checkToClose] the storage, still hold 50. *)
Lemma locked_tab_not_refreshed :
  let env := cycle_snapshot locked_tab_world in
  let tab := sample_tab 1 7 "https://a.example/" in
  (evaluate sample_settings (cycle_cutOff locked_tab_world) env sample_cache).1 = [tab]
  /\ (evaluate locked_tab_settings (cycle_cutOff locked_tab_world) env sample_cache).1 = []
  /\ snap_updatedAt env = 5002
  /\ cachedTime
       (evaluate locked_tab_settings (cycle_cutOff locked_tab_world) env sample_cache).2 1
     = Some 50
  /\ cachedTime (w_cache (checkToClose locked_tab_world).2) 1 = Some 50
  /\ st_tabTimes (w_storage (checkToClose locked_tab_world).2) !! "1" = Some 50
  /\ br_tabs (w_browser (checkToClose locked_tab_world).2) = sample_tabs
  /\ cachedTime
       (evaluate locked_tab_settings (cycle_cutOff locked_tab_world) env sample_cache).2 1
     <> Some (snap_updatedAt env).
Proof. vm_compute. repeat split. discriminate. Qed.
